(** * CourseSelectionTool: the planner grid and the requirement validator

    A shallow embedding of [src/js/gridManager.js] (class [GridManager]) and
    of [src/js/dependencyGraph.js] (class [DependencyValidator], as laid out
    in the phase 3 plan), with the properties of the specification stated
    over them.

    Conventions of the embedding.
    - A JavaScript object used as a dictionary is a [gmap]; a [Set] of
      course codes is a [gset string]; an array is a [list].
    - What an array slot can hold is a [cell]: [null], [undefined] (also what
      a hole or an index past the end reads as) or a course code.
    - A call that throws a [TypeError] (reading a property of [undefined] or
      of [null]) completes with [TypeError]; the state reached before the
      throw is kept.
    - A dictionary object is read at its own keys. At a name that every
      object inherits from [Object.prototype] ([inheritedNames]:
      [constructor], [__proto__], [toString], ...) and that is not among
      its own keys, JavaScript reads the inherited value instead of
      [undefined], and an assignment to [__proto__] sets the prototype
      instead of a key. The prototype chain is not followed here: where a
      statement depends on such a read or assignment, it requires the key
      to be an own key or a [plainKey].
    - A string is the sequence of its UTF-16 code units, each below 256;
      strings with other code units are outside the embedding.
    - The parser recurses through the catalog; it is defined by recursion on
      a bound on the depth of the call stack and yields [None] when the bound
      is exceeded. *)

From stdpp Require Import gmap strings list fin_maps.
From Stdlib Require Import Ascii ZArith Lia.

(** ** JavaScript values and completions *)

Inductive cell : Type :=
  | Null
  | Undefined
  | Code (c : string).

#[global] Instance cell_eq_dec : EqDecision cell.
Proof. solve_decision. Defined.

(** [if (code)]: [null], [undefined] and the empty string are falsy *)
Definition truthy (v : cell) : bool :=
  match v with
  | Code c => negb (String.eqb c "")
  | _ => false
  end.

Inductive completion (A : Type) : Type :=
  | Normal (a : A)
  | TypeError.
Arguments Normal {A} a.
Arguments TypeError {A}.

(** ** Arrays *)

(** [arr[i]] *)
Definition array_get (arr : list cell) (i : nat) : cell :=
  default Undefined (arr !! i).

(** [arr[i] = v]: a write past the end extends the array with holes *)
Definition array_set (arr : list cell) (i : nat) (v : cell) : list cell :=
  if decide (i < length arr) then <[i := v]> arr
  else arr ++ replicate (i - length arr) Undefined ++ [v].

(** [arr.indexOf(x)], with [None] for [-1] *)
Fixpoint indexOf {A : Type} `{EqDecision A} (x : A) (arr : list A) : option nat :=
  match arr with
  | [] => None
  | y :: rest => if decide (y = x) then Some 0 else S <$> indexOf x rest
  end.

(** ** GridManager *)

(** [this.state]: semester id to its array of slots *)
Abbreviation grid := (gmap string (list cell)).

Definition slotsPerSemester : nat := 5.

(** [new GridManager()] *)
Definition newGrid : grid := ∅.

(** [this.state[id] = new Array(5).fill(null)]: afterwards [this.state[id]]
    reads as the new array. The id [__proto__] is a key like the others
    here (see the conventions). *)
Definition initSemesters (semesterIds : list string) (state : grid) : grid :=
  foldl (fun st id => <[id := replicate slotsPerSemester Null]> st) state semesterIds.

(** The entries are visited in the enumeration order of the map; under the
    uniqueness invariant of the grid the location found does not depend on
    it, and [addCourse] only tests the result against [null]. *)
Fixpoint findCourse_entries (entries : list (string * list cell)) (courseCode : string)
  : option (string * nat) :=
  match entries with
  | [] => None
  | (semId, slots) :: rest =>
      match indexOf (Code courseCode) slots with
      | Some idx => Some (semId, idx)
      | None => findCourse_entries rest courseCode
      end
  end.

Definition findCourse (state : grid) (courseCode : string) : option (string * nat) :=
  findCourse_entries (map_to_list state) courseCode.

(** In [addCourse], [removeCourse] and [moveCourse] the semester id is looked
    up among the own keys of [this.state]: an id that is not a semester of
    the grid reads as [undefined], which is what JavaScript does when the
    id is a plain key (see the conventions). *)
Definition addCourse (state : grid) (semesterId : string) (slotIndex : nat)
    (courseCode : string) : grid * completion bool :=
  match findCourse state courseCode with
  | Some _ => (state, Normal false)
  | None =>
      match state !! semesterId with
      | None => (state, TypeError)
      | Some slots =>
          if decide (array_get slots slotIndex ≠ Null) then (state, Normal false)
          else (<[semesterId := array_set slots slotIndex (Code courseCode)]> state,
                Normal true)
      end
  end.

Definition removeCourse (state : grid) (semesterId : string) (slotIndex : nat)
  : grid * completion unit :=
  match state !! semesterId with
  | None => (state, TypeError)
  | Some slots => (<[semesterId := array_set slots slotIndex Null]> state, Normal tt)
  end.

Definition moveCourse (state : grid) (fromSemester : string) (fromSlot : nat)
    (toSemester : string) (toSlot : nat) : grid * completion unit :=
  match state !! fromSemester with
  | None => (state, TypeError)
  | Some src =>
      let code := array_get src fromSlot in
      let state1 := <[fromSemester := array_set src fromSlot Null]> state in
      match state1 !! toSemester with
      | None => (state1, TypeError)
      | Some dst => (<[toSemester := array_set dst toSlot code]> state1, Normal tt)
      end
  end.

(** [for (const code of slots) if (code) completed.add(code)] *)
Definition addPlaced (completed : gset string) (slots : list cell) : gset string :=
  foldl (fun acc v =>
           match v with
           | Code c => if truthy v then {[c]} ∪ acc else acc
           | _ => acc
           end) completed slots.

(** The outer loop over [semesterOrder[0]], ..., [semesterOrder[bound - 1]] *)
Fixpoint collectSemesters (state : grid) (semesters : list string)
    (completed : gset string) : completion (gset string) :=
  match semesters with
  | [] => Normal completed
  | semId :: rest =>
      match state !! semId with
      | None => TypeError
      | Some slots => collectSemesters state rest (addPlaced completed slots)
      end
  end.

(** [semesterOrder.indexOf(semesterId)] as a JavaScript number *)
Definition targetIdx (semesterId : string) (semesterOrder : list string) : Z :=
  match indexOf semesterId semesterOrder with
  | Some k => Z.of_nat k
  | None => (-1)%Z
  end.

(** [for (let i = 0; i < targetIdx; i++)] *)
Definition getCoursesBeforeSemester (state : grid) (semesterId : string)
    (semesterOrder : list string) : completion (gset string) :=
  collectSemesters state
    (take (Z.to_nat (targetIdx semesterId semesterOrder)) semesterOrder) ∅.

(** [for (let i = 0; i <= targetIdx; i++)] *)
Definition getCoursesUpToSemester (state : grid) (semesterId : string)
    (semesterOrder : list string) : completion (gset string) :=
  collectSemesters state
    (take (Z.to_nat (targetIdx semesterId semesterOrder + 1)) semesterOrder) ∅.

Definition getAllPlacedCourses (state : grid) : gset string :=
  foldl addPlaced ∅ (snd <$> map_to_list state).

(** *** Histories of the grid *)

Inductive op : Type :=
  | AddCourse (semesterId : string) (slotIndex : nat) (courseCode : string)
  | RemoveCourse (semesterId : string) (slotIndex : nat)
  | MoveCourse (fromSemester : string) (fromSlot : nat) (toSemester : string) (toSlot : nat).

Definition apply_op (state : grid) (o : op) : grid :=
  match o with
  | AddCourse s i c => (addCourse state s i c).1
  | RemoveCourse s i => (removeCourse state s i).1
  | MoveCourse fs fi ts ti => (moveCourse state fs fi ts ti).1
  end.

Definition run (ops : list op) (state : grid) : grid := foldl apply_op state ops.

(** Course [c] sits in slot [i] of semester [s]. *)
Definition holds (state : grid) (s : string) (i : nat) (c : string) : Prop :=
  ∃ slots, state !! s = Some slots ∧ slots !! i = Some (Code c).

(** Every course code is in at most one slot of the whole grid. *)
Definition unique (state : grid) : Prop :=
  ∀ c s1 i1 s2 i2, holds state s1 i1 c → holds state s2 i2 c → s1 = s2 ∧ i1 = i2.

(** [this.state[s][i]], when semester [s] exists *)
Definition read (state : grid) (s : string) (i : nat) : option cell :=
  slots ← state !! s; Some (array_get slots i).

(** ** Strings

    A character is one UTF-16 code unit below 256, which covers the
    catalog's course codes, courseset ids and expressions. *)

(** The code units [trim] strips, among those below 256: tab, line feed,
    vertical tab, form feed, carriage return, space and no-break space
    (U+00A0); the other white space and line terminators of JavaScript
    (U+1680, U+2000 to U+200A, U+2028, U+2029, U+202F, U+205F, U+3000,
    U+FEFF) are above 255. *)
Definition isSpace (a : ascii) : bool :=
  let n := nat_of_ascii a in
  ((9 <=? n) && (n <=? 13)) || (n =? 32) || (n =? 160).

Fixpoint trimStart (s : string) : string :=
  match s with
  | String a s' => if isSpace a then trimStart s' else s
  | EmptyString => EmptyString
  end.

Fixpoint trimEnd (s : string) : string :=
  match s with
  | EmptyString => EmptyString
  | String a s' =>
      match trimEnd s' with
      | EmptyString => if isSpace a then EmptyString else String a EmptyString
      | r => String a r
      end
  end.

(** [s.trim()] *)
Definition trim (s : string) : string := trimEnd (trimStart s).

(** [s.includes(sep)] *)
Fixpoint includes (s sep : string) : bool :=
  String.prefix sep s ||
  match s with
  | EmptyString => false
  | String _ s' => includes s' sep
  end.

(** The scan of [s.split(sep)] for a non-empty [sep]: [cur] is the part
    being read, [skip] the number of characters of a separator just found
    that are still to be passed over. *)
Fixpoint split_from (sep : string) (skip : nat) (cur : string) (s : string) : list string :=
  match s with
  | EmptyString => [cur]
  | String a s' =>
      match skip with
      | S k => split_from sep k cur s'
      | O =>
          if String.prefix sep s
          then cur :: split_from sep (String.length sep - 1) EmptyString s'
          else split_from sep 0 (cur +:+ String a EmptyString) s'
      end
  end.

(** [s.split(sep)] *)
Definition split (s sep : string) : list string := split_from sep 0 EmptyString s.

(** [parts.join(sep)] *)
Fixpoint join (sep : string) (parts : list string) : string :=
  match parts with
  | [] => EmptyString
  | [p] => p
  | p :: rest => p +:+ sep +:+ join sep rest
  end.

Definition isUpper (a : ascii) : bool :=
  let n := nat_of_ascii a in (65 <=? n) && (n <=? 90).

Definition isDigit (a : ascii) : bool :=
  let n := nat_of_ascii a in (48 <=? n) && (n <=? 57).

Fixpoint allDigits (s : string) : bool :=
  match s with
  | EmptyString => true
  | String a s' => isDigit a && allDigits s'
  end.

(** Number of leading upper-case letters, and what follows them *)
Fixpoint spanUpper (s : string) : nat * string :=
  match s with
  | String a s' => if isUpper a then let '(n, r) := spanUpper s' in (S n, r) else (0, s)
  | EmptyString => (0, EmptyString)
  end.

(** [/^[A-Z]{2,4}\d{3}[HY]\d_[pce]\d+$/.test(token)] *)
Definition isCoursesetRef (token : string) : bool :=
  let '(n, r) := spanUpper token in
  (2 <=? n) && (n <=? 4) &&
  match r with
  | String d1 (String d2 (String d3 (String hy (String d4 (String us (String k
      (String d5 ds))))))) =>
      isDigit d1 && isDigit d2 && isDigit d3 &&
      (Ascii.eqb hy "H"%char || Ascii.eqb hy "Y"%char) &&
      isDigit d4 && Ascii.eqb us "_"%char &&
      (Ascii.eqb k "p"%char || Ascii.eqb k "c"%char || Ascii.eqb k "e"%char) &&
      isDigit d5 && allDigits ds
  | _ => false
  end.

(** ** The catalog *)

(** An entry of [coursesets]: [{ courses: "<expression>" }] *)
Record CoursesetEntry : Type := { courses : string }.

(** A course record; a requirement is a courseset id or [null] *)
Record Course : Type := {
  code : string;
  prerequisites : option string;
  corequisites : option string;
  exclusions : option string;
}.

(** [CourseDatabase]: the [courses] map and the [coursesets] object *)
Record CourseDatabase : Type := {
  db_courses : gmap string Course;
  coursesets : gmap string CoursesetEntry;
}.

(** [db.getCourse(code)]; no course is filed under [null] or [undefined] *)
Definition getCourse (db : CourseDatabase) (courseCode : cell) : option Course :=
  match courseCode with
  | Code c => db_courses db !! c
  | _ => None
  end.

(** ** Expression trees

    [{ type: 'COURSE', code }], [{ type: 'OR', children }] and
    [{ type: 'AND', children }]; a child is [null] where a nested courseset
    reference did not resolve. *)
Unset Elimination Schemes.
Inductive tree : Type :=
  | COURSE (code : string)
  | OR (children : list (option tree))
  | AND (children : list (option tree)).
Set Elimination Schemes.

(** [this.treeCache] *)
Abbreviation cache := (gmap string (option tree)).

(** ** The parser *)

Section ParserBody.
Variable parseCourseset_rec : string → cache → option (option tree * cache).

Definition parseToken_body (token : string) (c : cache)
  : option (option tree * cache) :=
  if isCoursesetRef token then parseCourseset_rec token c
  else Some (Some (COURSE token), c).

(** [parts.map(p => this.parseToken(p))], left to right *)
Fixpoint parseTokens_body (parts : list string) (c : cache)
  : option (list (option tree) * cache) :=
  match parts with
  | [] => Some ([], c)
  | p :: rest =>
      match parseToken_body p c with
      | None => None
      | Some (t, c1) =>
          match parseTokens_body rest c1 with
          | None => None
          | Some (ts, c2) => Some (t :: ts, c2)
          end
      end
  end.

Definition parseExpression_body (expr : string) (c : cache)
  : option (option tree * cache) :=
  let trimmed := trim expr in
  if includes trimmed " & " then
    match parseTokens_body (trim <$> split trimmed " & ") c with
    | None => None
    | Some (children, c1) => Some (Some (AND children), c1)
    end
  else if includes trimmed " / " then
    match parseTokens_body (trim <$> split trimmed " / ") c with
    | None => None
    | Some (children, c1) => Some (Some (OR children), c1)
    end
  else parseToken_body trimmed c.
End ParserBody.

(** [fuel] bounds the depth of nested [parseCourseset] calls; [None] is a
    call stack deeper than the bound. [this.db.coursesets[setId]] is looked
    up among the own keys of the courseset table: a [setId] without an entry
    reads as [undefined], which is what JavaScript does when [setId] is a
    plain key (see the conventions); the tokens that [parseToken] passes on
    match the courseset-id pattern and are plain keys. *)
Fixpoint parseCourseset (db : CourseDatabase) (fuel : nat) (setId : string) (c : cache)
  : option (option tree * cache) :=
  match fuel with
  | O => None
  | S fuel' =>
      if String.eqb setId "" then Some (None, c)
      else
        match c !! setId with
        | Some tree => Some (tree, c)
        | None =>
            match coursesets db !! setId with
            | None => Some (None, c)
            | Some cs =>
                match parseExpression_body (parseCourseset db fuel') (courses cs) c with
                | None => None
                | Some (tree, c1) => Some (tree, <[setId := tree]> c1)
                end
            end
        end
  end.

Definition parseExpression (db : CourseDatabase) (fuel : nat) :=
  parseExpression_body (parseCourseset db fuel).

Definition parseToken (db : CourseDatabase) (fuel : nat) :=
  parseToken_body (parseCourseset db fuel).

(** ** The evaluator *)

(** [MissingInfo]; the [AND] form is documented in the source but, as shown
    below, never built by [validate]. *)
Unset Elimination Schemes.
Inductive MissingInfo : Type :=
  | MissingCOURSE (code : string)
  | MissingOR (options : list string)
  | MissingAND (items : list MissingInfo).
Set Elimination Schemes.

Record RequirementResult : Type := {
  satisfied : bool;
  missing : list MissingInfo;
}.

Definition bindC {A B : Type} (m : completion A) (k : A → completion B) : completion B :=
  match m with
  | Normal a => k a
  | TypeError => TypeError
  end.

Section FlatMap.
Variable visit : option tree → completion (list string).

(** [children.flatMap(c => visit(c))] *)
Fixpoint flatMap_children (children : list (option tree)) : completion (list string) :=
  match children with
  | [] => Normal []
  | child :: rest =>
      bindC (visit child) (fun codes =>
      bindC (flatMap_children rest) (fun more => Normal (codes ++ more)))
  end.
End FlatMap.

(** [collectLeafCodes] on a node; reading [tree.type] of a [null] child throws *)
Fixpoint collectLeafCodes_node (t : tree) : completion (list string) :=
  match t with
  | COURSE code => Normal [code]
  | OR children | AND children =>
      flatMap_children
        (fun child => match child with
                      | None => TypeError
                      | Some t' => collectLeafCodes_node t'
                      end)
        children
  end.

Definition collectLeafCodes (t : option tree) : completion (list string) :=
  match t with
  | None => TypeError
  | Some t' => collectLeafCodes_node t'
  end.

Section ValidateLoops.
Variable validate_child : option tree → completion RequirementResult.

(** The [for] loop of the [OR] case, then the code after it *)
Fixpoint validate_OR (after : completion RequirementResult)
    (children : list (option tree)) : completion RequirementResult :=
  match children with
  | [] => after
  | child :: rest =>
      bindC (validate_child child) (fun result =>
      if satisfied result then Normal {| satisfied := true; missing := [] |}
      else validate_OR after rest)
  end.

(** The [for] loop of the [AND] case over [allSatisfied] and [allMissing] *)
Fixpoint validate_AND (allSatisfied : bool) (allMissing : list MissingInfo)
    (children : list (option tree)) : completion RequirementResult :=
  match children with
  | [] => Normal {| satisfied := allSatisfied; missing := allMissing |}
  | child :: rest =>
      bindC (validate_child child) (fun result =>
      if satisfied result then validate_AND allSatisfied allMissing rest
      else validate_AND false (allMissing ++ missing result) rest)
  end.
End ValidateLoops.

Fixpoint validate_node (completedCourses : gset string) (t : tree)
  : completion RequirementResult :=
  let validate_child child :=
    match child with
    | None => Normal {| satisfied := true; missing := [] |}
    | Some t' => validate_node completedCourses t'
    end in
  match t with
  | COURSE code =>
      let sat := bool_decide (code ∈ completedCourses) in
      Normal {| satisfied := sat;
                missing := if sat then [] else [MissingCOURSE code] |}
  | OR children =>
      validate_OR validate_child
        (bindC (collectLeafCodes_node t) (fun options =>
         Normal {| satisfied := false; missing := [MissingOR options] |}))
        children
  | AND children =>
      validate_AND validate_child true [] children
  end.

(** [validate(completedCourses, tree)] *)
Definition validate (completedCourses : gset string) (t : option tree)
  : completion RequirementResult :=
  match t with
  | None => Normal {| satisfied := true; missing := [] |}
  | Some t' => validate_node completedCourses t'
  end.

(** ** The placement validator *)

Inductive PlacementError : Type :=
  | prerequisite (missing : list MissingInfo)
  | corequisite (missing : list MissingInfo)
  | exclusion (conflicting : list string).

Record PlacementResult : Type := {
  valid : bool;
  errors : list PlacementError;
}.

(** A computation of the validator: it reads and extends the tree cache, and
    either exceeds the stack bound ([None]) or completes. *)
Definition V (A : Type) : Type := cache → option (completion A * cache).

Definition ret {A : Type} (a : A) : V A := fun c => Some (Normal a, c).

Definition bind {A B : Type} (m : V A) (k : A → V B) : V B :=
  fun c =>
    match m c with
    | None => None
    | Some (TypeError, c1) => Some (TypeError, c1)
    | Some (Normal a, c1) => k a c1
    end.

Definition lift {A : Type} (r : completion A) : V A := fun c => Some (r, c).

Definition parsing (p : cache → option (option tree * cache)) : V (option tree) :=
  fun c =>
    match p c with
    | None => None
    | Some (t, c1) => Some (Normal t, c1)
    end.

Notation "'let*' x := m 'in' k" := (bind m (fun x => k))
  (at level 10, x name, m at level 200, k at level 200,
   format "'let*'  x  :=  m  'in' '//' k").

(** [if (course.prerequisites)]: [null] and the empty string are falsy *)
Definition requirement (field : option string) : option string :=
  match field with
  | Some id => if String.eqb id "" then None else Some id
  | None => None
  end.

(** [allPlaced.delete(courseCode)] *)
Definition set_delete (s : gset string) (v : cell) : gset string :=
  match v with
  | Code c => s ∖ {[c]}
  | _ => s
  end.

(** The three rule blocks of [validatePlacement], in source order; each
    receives the [errors] array built so far and returns it, extended by
    [errors.push] when its rule fails. *)

(** [// Prerequisites: must be in semesters BEFORE this one] *)
Definition validatePlacement_prerequisites (db : CourseDatabase) (fuel : nat)
    (course : Course) (semesterId : string) (gridManager : grid)
    (semesterOrder : list string) (errors : list PlacementError)
  : V (list PlacementError) :=
  match requirement (prerequisites course) with
  | None => ret errors
  | Some id =>
      let* completed := lift (getCoursesBeforeSemester gridManager semesterId semesterOrder) in
      let* prereqTree := parsing (parseCourseset db fuel id) in
      let* result := lift (validate completed prereqTree) in
      ret (if satisfied result then errors
           else errors ++ [prerequisite (missing result)])
  end.

(** [// Corequisites: must be in semesters BEFORE or IN this one] *)
Definition validatePlacement_corequisites (db : CourseDatabase) (fuel : nat)
    (course : Course) (semesterId : string) (gridManager : grid)
    (semesterOrder : list string) (errors : list PlacementError)
  : V (list PlacementError) :=
  match requirement (corequisites course) with
  | None => ret errors
  | Some id =>
      let* completed := lift (getCoursesUpToSemester gridManager semesterId semesterOrder) in
      let* coreqTree := parsing (parseCourseset db fuel id) in
      let* result := lift (validate completed coreqTree) in
      ret (if satisfied result then errors
           else errors ++ [corequisite (missing result)])
  end.

(** [// Exclusions: must NOT have taken any excluded course] *)
Definition validatePlacement_exclusions (db : CourseDatabase) (fuel : nat)
    (course : Course) (courseCode : cell) (gridManager : grid)
    (errors : list PlacementError)
  : V (list PlacementError) :=
  match requirement (exclusions course) with
  | None => ret errors
  | Some id =>
      let allPlaced := set_delete (getAllPlacedCourses gridManager) courseCode in
      let* exclTree := parsing (parseCourseset db fuel id) in
      let* result := lift (validate allPlaced exclTree) in
      if satisfied result then
        let* codes := lift (collectLeafCodes exclTree) in
        let conflicting := filter (fun code => code ∈ allPlaced) codes in
        ret (errors ++ [exclusion conflicting])
      else ret errors
  end.

Definition validatePlacement (db : CourseDatabase) (fuel : nat) (courseCode : cell)
    (semesterId : string) (gridManager : grid) (semesterOrder : list string)
  : V PlacementResult :=
  match getCourse db courseCode with
  | None => ret {| valid := true; errors := [] |}
  | Some course =>
      let* errors1 :=
        validatePlacement_prerequisites db fuel course semesterId gridManager semesterOrder [] in
      let* errors2 :=
        validatePlacement_corequisites db fuel course semesterId gridManager semesterOrder
          errors1 in
      let* errors3 :=
        validatePlacement_exclusions db fuel course courseCode gridManager errors2 in
      ret {| valid := bool_decide (length errors3 = 0); errors := errors3 |}
  end.

(** [results.set(key, value)] on a [Map] kept in insertion order *)
Fixpoint map_set (results : list (cell * PlacementResult)) (key : cell)
    (value : PlacementResult) : list (cell * PlacementResult) :=
  match results with
  | [] => [(key, value)]
  | (k, v) :: rest =>
      if decide (k = key) then (k, value) :: rest
      else (k, v) :: map_set rest key value
  end.

(** The inner loop of [validateAll]: every element of the semester's array *)
Fixpoint validateAll_slots (db : CourseDatabase) (fuel : nat) (gridManager : grid)
    (semesterOrder : list string) (semId : string) (slots : list cell)
    (results : list (cell * PlacementResult)) : V (list (cell * PlacementResult)) :=
  match slots with
  | [] => ret results
  | code :: rest =>
      let* r := validatePlacement db fuel code semId gridManager semesterOrder in
      validateAll_slots db fuel gridManager semesterOrder semId rest (map_set results code r)
  end.

(** The outer loop of [validateAll] *)
Fixpoint validateAll_semesters (db : CourseDatabase) (fuel : nat) (gridManager : grid)
    (semesterOrder : list string) (semesters : list string)
    (results : list (cell * PlacementResult)) : V (list (cell * PlacementResult)) :=
  match semesters with
  | [] => ret results
  | semId :: rest =>
      match gridManager !! semId with
      | None => lift TypeError
      | Some slots =>
          let* results1 := validateAll_slots db fuel gridManager semesterOrder semId slots results in
          validateAll_semesters db fuel gridManager semesterOrder rest results1
      end
  end.

Definition validateAll (db : CourseDatabase) (fuel : nat) (gridManager : grid)
    (semesterOrder : list string) : V (list (cell * PlacementResult)) :=
  validateAll_semesters db fuel gridManager semesterOrder semesterOrder [].

(** ** Vocabulary of the specification *)

(** Course [c] sits in a slot of one of the semesters at indices
    [0 .. bound - 1] of the semester order. *)
Definition placedWithin (state : grid) (semesterOrder : list string) (bound : nat)
    (c : string) : Prop :=
  ∃ i sem slot, i < bound ∧ semesterOrder !! i = Some sem ∧ holds state sem slot c.

(** What a prerequisite or corequisite rule adds to [errors], given the set
    it is checked against and the tree of its courseset *)
Definition ruleOutcome (kind : list MissingInfo → PlacementError)
    (completed : gset string) (t : option tree) (errors : list PlacementError)
  : completion (list PlacementError) :=
  bindC (validate completed t) (fun result =>
    Normal (if satisfied result then errors else errors ++ [kind (missing result)])).

(** One temporal rule of [validatePlacement], with the set of codes the
    requirement is checked against as a parameter: nothing happens without
    a requirement id; otherwise the id is resolved and its tree is evaluated
    against the set. *)
Definition temporalRule (db : CourseDatabase) (fuel : nat)
    (kind : list MissingInfo → PlacementError) (field : option string)
    (completed : gset string) (errors : list PlacementError)
  : V (list PlacementError) :=
  match requirement field with
  | None => ret errors
  | Some id =>
      let* t := parsing (parseCourseset db fuel id) in
      lift (ruleOutcome kind completed t errors)
  end.

(** The three rules for a course of the catalog, the prerequisite rule
    against [before] and the corequisite rule against [upto] *)
Definition placementAgainst (db : CourseDatabase) (fuel : nat) (course : Course)
    (courseCode : cell) (gridManager : grid) (before upto : gset string)
  : V PlacementResult :=
  let* errors1 := temporalRule db fuel prerequisite (prerequisites course) before [] in
  let* errors2 := temporalRule db fuel corequisite (corequisites course) upto errors1 in
  let* errors3 := validatePlacement_exclusions db fuel course courseCode gridManager errors2 in
  ret {| valid := bool_decide (length errors3 = 0); errors := errors3 |}.

(** No [null] anywhere below the node *)
Fixpoint present (t : tree) : bool :=
  match t with
  | COURSE _ => true
  | OR children | AND children =>
      forallb (fun child => match child with
                            | None => false
                            | Some t' => present t'
                            end) children
  end.

Definition presentChild (child : option tree) : bool :=
  match child with
  | None => false
  | Some t => present t
  end.

(** Every [AND] and [OR] node below has at least one child *)
Fixpoint branching (t : tree) : bool :=
  match t with
  | COURSE _ => true
  | OR children | AND children =>
      negb (bool_decide (children = [])) &&
      forallb (fun child => match child with
                            | None => true
                            | Some t' => branching t'
                            end) children
  end.

(** The [Course.code] values of the descendants, concatenated in order *)
Fixpoint leaves (t : tree) : list string :=
  match t with
  | COURSE code => [code]
  | OR children | AND children =>
      flat_map (fun child => match child with
                             | None => []
                             | Some t' => leaves t'
                             end) children
  end.

(** An entry that is not the nested [AND] form *)
Definition flatEntry (m : MissingInfo) : Prop :=
  match m with
  | MissingAND _ => False
  | _ => True
  end.

Definition unsatisfied (r : RequirementResult) : bool := negb (satisfied r).

(** Only characters that [trim] strips *)
Fixpoint blank (s : string) : bool :=
  match s with
  | EmptyString => true
  | String a s' => isSpace a && blank s'
  end.

(** The delimiter occurs in the raw expression with something other than
    white space before it and after it. *)
Definition separates (expr sep : string) : Prop :=
  ∃ l r, expr = l +:+ sep +:+ r ∧ blank l = false ∧ blank r = false.

(** The tokens [parseExpression] cuts an expression into *)
Definition tokens (expr : string) : list string :=
  let trimmed := trim expr in
  if includes trimmed " & " then trim <$> split trimmed " & "
  else if includes trimmed " / " then trim <$> split trimmed " / "
  else [trimmed].

(** The raw expression of courseset [setId] has the courseset reference
    [ref] among its tokens. *)
Definition references (db : CourseDatabase) (setId ref : string) : Prop :=
  ∃ cs, coursesets db !! setId = Some cs ∧
        ref ∈ tokens (courses cs) ∧ isCoursesetRef ref = true.

(** [setId] is on a reference cycle or leads to one. *)
Definition loops (db : CourseDatabase) (setId : string) : Prop :=
  ∃ y, rtc (references db) setId y ∧ tc (references db) y y.

(** The cache holds no id that leads to a cycle. *)
Definition avoids (db : CourseDatabase) (c : cache) : Prop :=
  ∀ z, loops db z → c !! z = None.

(** Every cached tree has a child under each of its [AND] and [OR] nodes. *)
Definition cache_branching (c : cache) : Prop :=
  ∀ setId t, c !! setId = Some (Some t) → branching t = true.

(** ** Example catalogs and plans *)

Definition entry (expr : string) : CoursesetEntry := {| courses := expr |}.

(** The coursesets of the specification's scenarios 1 and 2 *)
Definition sampleCatalog : CourseDatabase := {|
  db_courses := list_to_map [
    ("ECE435H1", {| code := "ECE435H1"; prerequisites := Some "ECE435H1_p6";
                    corequisites := None; exclusions := None |});
    ("ECE464H1", {| code := "ECE464H1"; prerequisites := Some "ECE464H1_p3";
                    corequisites := None; exclusions := None |})];
  coursesets := list_to_map [
    ("ECE435H1_p1", entry "ECE216H1 / ECE355H1");
    ("ECE435H1_p2", entry "ECE302H1 / MIE286H1");
    ("ECE435H1_p3", entry "ECE335H1 / ECE350H1");
    ("ECE435H1_p4", entry "ECE231H1 / ECE360H1");
    ("ECE435H1_p5", entry "ECE320H1 / ECE357H1");
    ("ECE435H1_p6",
     entry "ECE435H1_p1 & ECE435H1_p2 & ECE435H1_p3 & ECE435H1_p4 & ECE435H1_p5");
    ("ECE464H1_p1", entry "ECE302H1 & ECE316H1 & ECE417H1");
    ("ECE464H1_p2", entry "ECE417H1 & MIE286H1");
    ("ECE464H1_p3", entry "ECE464H1_p1 / ECE464H1_p2")];
|}.

(** A catalog in which some courseset ids are referenced but not defined:
    [ECE998H1_p1], [ECE999H1_p9], [ECE999H1_e9], [ECE300H1_e1],
    [ECE301H1_p1] and [ECE301H1_c1] have no entry. *)
Definition danglingCatalog : CourseDatabase := {|
  db_courses := list_to_map [
    ("ECE100H1", {| code := "ECE100H1"; prerequisites := None;
                    corequisites := None; exclusions := Some "ECE100H1_e1" |});
    ("ECE300H1", {| code := "ECE300H1"; prerequisites := None;
                    corequisites := None; exclusions := Some "ECE300H1_e1" |});
    ("ECE301H1", {| code := "ECE301H1"; prerequisites := Some "ECE301H1_p1";
                    corequisites := Some "ECE301H1_c1"; exclusions := None |})];
  coursesets := list_to_map [
    ("ECE100H1_p1", entry "ECE101H1 & ECE999H1_p9");
    ("ECE100H1_p2", entry "ECE100H1_p1 / ECE102H1");
    ("ECE100H1_p3", entry "ECE998H1_p1 & ECE999H1_p9");
    ("ECE100H1_e1", entry "ECE200H1 / ECE999H1_e9")];
|}.

(** Two coursesets that reference each other (scenario 4, with ids that
    match the courseset pattern) *)
Definition cyclicCatalog : CourseDatabase := {|
  db_courses := ∅;
  coursesets := list_to_map [
    ("ECE100H1_p1", entry "ECE200H1_p1");
    ("ECE200H1_p1", entry "ECE100H1_p1")];
|}.

(** [ECE100H1] and [ECE200H1] placed, with [ECE300H1] and [ECE301H1] *)
Definition plan1 : grid :=
  run [AddCourse "fall-1" 0 "ECE100H1"; AddCourse "winter-1" 0 "ECE200H1";
       AddCourse "fall-1" 1 "ECE300H1"; AddCourse "winter-1" 1 "ECE301H1"]
      (initSemesters ["fall-1"; "winter-1"] newGrid).

(** A five-slot plan with two courses placed, used as a running example *)
Definition plan0 : grid :=
  run [AddCourse "fall-1" 0 "APS105H1"; AddCourse "winter-1" 1 "ECE244H1"]
      (initSemesters ["fall-1"; "winter-1"] newGrid).

(** The courses of the plan's test cases 1 and 3, and a corequisite *)
Definition testCatalog : CourseDatabase := {|
  db_courses := list_to_map [
    ("APS111H1", {| code := "APS111H1"; prerequisites := None;
                    corequisites := None; exclusions := None |});
    ("APS112H1", {| code := "APS112H1"; prerequisites := Some "APS112H1_p1";
                    corequisites := None; exclusions := None |});
    ("ECE212H1", {| code := "ECE212H1"; prerequisites := None;
                    corequisites := Some "ECE212H1_c1"; exclusions := None |});
    ("ECE430H1", {| code := "ECE430H1"; prerequisites := None;
                    corequisites := None; exclusions := Some "ECE430H1_e1" |})];
  coursesets := list_to_map [
    ("APS112H1_p1", entry "APS111H1");
    ("ECE212H1_c1", entry "APS111H1");
    ("ECE430H1_e1", entry "ECE530H1")];
|}.

(** [APS111H1], [APS112H1] and [ECE212H1] in the same semester;
    [ECE430H1] and the course it excludes in different ones *)
Definition plan2 : grid :=
  run [AddCourse "fall-1" 0 "APS111H1"; AddCourse "fall-1" 1 "APS112H1";
       AddCourse "fall-1" 2 "ECE212H1"; AddCourse "fall-1" 3 "ECE430H1";
       AddCourse "winter-1" 0 "ECE530H1"]
      (initSemesters ["fall-1"; "winter-1"] newGrid).

(** The semester order of the example plans *)
Definition twoSemesters : list string := ["fall-1"; "winter-1"].

(** Nesting depth of the coursesets of [sampleCatalog] *)
Definition sampleRank (setId : string) : nat :=
  if bool_decide (setId = "ECE435H1_p6" ∨ setId = "ECE464H1_p3") then 1 else 0.

(** ** The tree renderer of the detail view

    [treeToString] of the phase 4 plan: [''] for [null], the code of a leaf,
    the children joined by [' and '] for an [AND] node and by [' or '] for
    an [OR] node, the latter in parentheses unless it has one child. *)

Fixpoint treeToString_node (node : tree) : string :=
  let parts children :=
    map (fun child => match child with
                      | None => EmptyString
                      | Some t => treeToString_node t
                      end) children in
  match node with
  | COURSE code => code
  | OR children =>
      match parts children with
      | [p] => p
      | ps => "(" +:+ join " or " ps +:+ ")"
      end
  | AND children => join " and " (parts children)
  end.

Definition treeToString (node : option tree) : string :=
  match node with
  | None => EmptyString
  | Some t => treeToString_node t
  end.

(** [formatRequirementReadable(coursesetId)] *)
Definition formatRequirementReadable (db : CourseDatabase) (fuel : nat)
    (coursesetId : string) (c : cache) : option (string * cache) :=
  match parseCourseset db fuel coursesetId c with
  | None => None
  | Some (t, c1) => Some (treeToString t, c1)
  end.

(** ** Loading the catalog

    [CourseDatabase.load], after the document has been fetched: every
    record of [data.courses] is filed under its code and its group, when it
    has one, is added to the groups; [data.coursesets || {}] becomes the
    courseset table. *)

(** A record of [data.courses]: the course and its optional group *)
Record CourseRecord : Type := {
  record : Course;
  group : option string;
}.

(** The state of a [CourseDatabase] object *)
Record LoadedDatabase : Type := {
  database : CourseDatabase;
  groups : gset string;
}.

(** [new CourseDatabase()] *)
Definition newDatabase : LoadedDatabase :=
  {| database := {| db_courses := ∅; coursesets := ∅ |}; groups := ∅ |}.

(** One turn of the loop over [data.courses] *)
Definition load_course (acc : gmap string Course * gset string) (r : CourseRecord)
  : gmap string Course * gset string :=
  (<[code (record r) := record r]> acc.1,
   match requirement (group r) with
   | Some g => {[g]} ∪ acc.2
   | None => acc.2
   end).

Definition load (this : LoadedDatabase) (data_courses : list CourseRecord)
    (data_coursesets : option (gmap string CoursesetEntry)) : LoadedDatabase :=
  let '(courseMap, groupSet) :=
    foldl load_course (db_courses (database this), groups this) data_courses in
  {| database := {| db_courses := courseMap;
                    coursesets := default ∅ data_coursesets |};
     groups := groupSet |}.

(** ** Further vocabulary *)

(** The property names every object inherits from [Object.prototype] *)
Definition inheritedNames : list string :=
  ["constructor"; "__proto__"; "hasOwnProperty"; "isPrototypeOf";
   "propertyIsEnumerable"; "toString"; "toLocaleString"; "valueOf";
   "__defineGetter__"; "__defineSetter__"; "__lookupGetter__"; "__lookupSetter__"].

(** A key at which a dictionary object holds only what was stored in it *)
Definition plainKey (key : string) : Prop := key ∉ inheritedNames.

(** The semester ids of the call are plain keys. *)
Definition plainOp (o : op) : Prop :=
  match o with
  | AddCourse s _ _ => plainKey s
  | RemoveCourse s _ => plainKey s
  | MoveCourse fs _ ts _ => plainKey fs ∧ plainKey ts
  end.

(** The slot indices of the call are among the five slots of a semester. *)
Definition inBounds (o : op) : Prop :=
  match o with
  | AddCourse _ _ _ => True
  | RemoveCourse _ i => i < slotsPerSemester
  | MoveCourse _ fi _ ti => fi < slotsPerSemester ∧ ti < slotsPerSemester
  end.

(** Every semester has five slots, each [null] or a course code. *)
Definition fiveSlots (state : grid) : Prop :=
  ∀ s slots, state !! s = Some slots →
    length slots = slotsPerSemester ∧ Forall (fun v => v ≠ Undefined) slots.

Fixpoint allUpper (s : string) : bool :=
  match s with
  | EmptyString => true
  | String a s' => isUpper a && allUpper s'
  end.

(** The courseset-id grammar: two to four upper-case letters, three digits,
    [H] or [Y], a digit, an underscore, one of [p], [c], [e], and one or
    more digits *)
Definition coursesetIdForm (token : string) : Prop :=
  ∃ letters d1 d2 d3 hy d4 k digits,
    token = letters +:+ String d1 (String d2 (String d3 (String hy (String d4
              (String "_"%char (String k digits)))))) ∧
    allUpper letters = true ∧ 2 ≤ String.length letters ≤ 4 ∧
    isDigit d1 = true ∧ isDigit d2 = true ∧ isDigit d3 = true ∧
    (hy = "H"%char ∨ hy = "Y"%char) ∧ isDigit d4 = true ∧
    (k = "p"%char ∨ k = "c"%char ∨ k = "e"%char) ∧
    digits ≠ EmptyString ∧ allDigits digits = true.

(** What the parser builds: inner nodes with at least two children, and
    leaves whose code does not match the courseset-id pattern *)
Fixpoint shaped (t : tree) : bool :=
  match t with
  | COURSE code => negb (isCoursesetRef code)
  | OR children | AND children =>
      (2 <=? length children) &&
      forallb (fun child => match child with
                            | None => true
                            | Some t' => shaped t'
                            end) children
  end.

Definition cache_shaped (c : cache) : Prop :=
  ∀ setId t, c !! setId = Some (Some t) → shaped t = true.

(** The boolean reading of a tree: a leaf holds when its code is completed,
    an [OR] when some child holds, an [AND] when every child holds, and an
    absent child holds. *)
Fixpoint holdsIn (completed : gset string) (t : tree) : bool :=
  match t with
  | COURSE code => bool_decide (code ∈ completed)
  | OR children =>
      existsb (fun child => match child with
                            | None => true
                            | Some t' => holdsIn completed t'
                            end) children
  | AND children =>
      forallb (fun child => match child with
                            | None => true
                            | Some t' => holdsIn completed t'
                            end) children
  end.

(** The course codes a missing entry names *)
Definition missingCodes (m : MissingInfo) : list string :=
  match m with
  | MissingCOURSE code => [code]
  | MissingOR options => options
  | MissingAND _ => []
  end.

(** The kind of a placement error, numbered in the order of the rules *)
Definition errorRank (e : PlacementError) : nat :=
  match e with
  | prerequisite _ => 0
  | corequisite _ => 1
  | exclusion _ => 2
  end.

(** The cache [c1] keeps every entry of [c], and what it adds is filed
    under courseset ids of the catalog. *)
Definition cache_extends (db : CourseDatabase) (c c1 : cache) : Prop :=
  c ⊆ c1 ∧ ∀ k, is_Some (c1 !! k) → is_Some (c !! k) ∨ is_Some (coursesets db !! k).

(** One call of [validatePlacement] within a run of [validateAll]: the
    semester and the slot content it was made for, the result it returned
    and the cache it left *)
Record Visit : Type := {
  visit_semester : string;
  visit_code : cell;
  visit_result : PlacementResult;
  visit_cache : cache;
}.

(** The calls were made one after the other, the first from the cache [c],
    each next one from the cache the previous call left, and [c1] is the
    cache after the last. *)
Fixpoint ran (db : CourseDatabase) (fuel : nat) (gridManager : grid)
    (semesterOrder : list string) (c : cache) (visits : list Visit) (c1 : cache) : Prop :=
  match visits with
  | [] => c1 = c
  | v :: rest =>
      validatePlacement db fuel (visit_code v) (visit_semester v) gridManager semesterOrder c
        = Some (Normal (visit_result v), visit_cache v) ∧
      ran db fuel gridManager semesterOrder (visit_cache v) rest c1
  end.

(** Every element of the array of every semester of the order, in order,
    with its semester *)
Definition slotsInOrder (gridManager : grid) (semesterOrder : list string)
  : list (string * cell) :=
  flat_map (fun sem => (fun code => (sem, code)) <$> default [] (gridManager !! sem))
    semesterOrder.

(** The result of the last of the calls made for [key] *)
Definition lastResult (visits : list Visit) (key : cell) : option PlacementResult :=
  visit_result <$> last (filter (fun v => visit_code v = key) visits).

(** The result map has one entry per key: under each key the result of the
    last call made for it, and nothing under other keys. *)
Definition files (visits : list Visit) (results : list (cell * PlacementResult)) : Prop :=
  NoDup results.*1 ∧ ∀ k v, (k, v) ∈ results ↔ lastResult visits k = Some v.

(** Every courseset reference inside a courseset of the catalog, and every
    exclusion id of a course, has an entry in the catalog; a prerequisite or
    corequisite id of a course has an entry or is a plain key. *)
Definition resolvable (db : CourseDatabase) : Prop :=
  (∀ setId ref, references db setId ref → is_Some (coursesets db !! ref)) ∧
  (∀ courseCode course id, db_courses db !! courseCode = Some course →
     requirement (exclusions course) = Some id → is_Some (coursesets db !! id)) ∧
  (∀ courseCode course id, db_courses db !! courseCode = Some course →
     requirement (prerequisites course) = Some id ∨
     requirement (corequisites course) = Some id →
     is_Some (coursesets db !! id) ∨ plainKey id).

(** Every cached tree is a tree without [null] below it. *)
Definition cache_present (c : cache) : Prop :=
  ∀ setId o, c !! setId = Some o → ∃ t, o = Some t ∧ present t = true.

(** A document in which [ECE100H1] occurs twice, with different groups *)
Definition sampleRecords : list CourseRecord := [
  {| record := {| code := "ECE100H1"; prerequisites := None;
                  corequisites := None; exclusions := None |};
     group := Some "Core" |};
  {| record := {| code := "ECE200H1"; prerequisites := Some "ECE200H1_p1";
                  corequisites := None; exclusions := None |};
     group := Some "" |};
  {| record := {| code := "ECE100H1"; prerequisites := Some "ECE100H1_p1";
                  corequisites := None; exclusions := None |};
     group := Some "Area 6" |}].

(** A grid in which [fall-1] was never created *)
Definition winterOnly : grid := initSemesters ["winter-1"] newGrid.

(** * Properties *)

(** ** Arrays *)

Section Arrays.
Implicit Types (arr : list cell) (i j : nat) (v : cell).

Lemma array_get_set_eq arr i v : array_get (array_set arr i v) i = v.
Proof.
  unfold array_get, array_set. case_decide as Hi.
  - by rewrite list_lookup_insert_eq.
  - rewrite lookup_app_r by lia.
    rewrite lookup_app_r by (rewrite length_replicate; lia).
    rewrite length_replicate. by replace (i - length arr - (i - length arr)) with 0 by lia.
Qed.

Lemma array_get_set_ne arr i j v :
  i ≠ j → array_get (array_set arr i v) j = array_get arr j.
Proof.
  intros Hne. unfold array_get, array_set. case_decide as Hi.
  - by rewrite list_lookup_insert_ne.
  - destruct (decide (j < length arr)) as [Hj|Hj].
    + by rewrite lookup_app_l.
    + rewrite (lookup_ge_None_2 arr j) by lia. simpl.
      rewrite lookup_app_r by lia.
      destruct (decide (j < i)) as [Hji|Hji].
      * rewrite lookup_app_l by (rewrite length_replicate; lia).
        by rewrite lookup_replicate_2 by lia.
      * rewrite lookup_ge_None_2; [done|].
        rewrite length_app, length_replicate. simpl. lia.
Qed.

Lemma array_set_lookup_Code arr i v j c :
  array_set arr i v !! j = Some (Code c) →
  (j = i ∧ v = Code c) ∨ (j ≠ i ∧ arr !! j = Some (Code c)).
Proof.
  intros H. destruct (decide (j = i)) as [->|Hne].
  - left. split; [done|].
    pose proof (array_get_set_eq arr i v) as Hg.
    unfold array_get in Hg. rewrite H in Hg. by simpl in Hg.
  - right. split; [done|].
    pose proof (array_get_set_ne arr i j v ltac:(done)) as Hg.
    unfold array_get in Hg. rewrite H in Hg. simpl in Hg.
    destruct (arr !! j) as [w|]; simpl in Hg; congruence.
Qed.

Lemma indexOf_None {A} `{EqDecision A} (x : A) (l : list A) :
  indexOf x l = None ↔ x ∉ l.
Proof.
  induction l as [|y l IH]; simpl.
  - split; [intros _; apply not_elem_of_nil | done].
  - case_decide as Hy.
    + subst. split; [done|]. intros Hn. exfalso. apply Hn. left.
    + destruct (indexOf x l) as [k|]; simpl.
      * split; [done|]. intros Hn. exfalso.
        assert (x ∉ l) as Hl by (intros ?; apply Hn; by right).
        apply IH in Hl. done.
      * split; [|done]. intros _ Hin. apply elem_of_cons in Hin as [->|Hin]; [done|].
        by apply IH in Hin.
Qed.

Lemma indexOf_Some {A} `{EqDecision A} (x : A) (l : list A) k :
  indexOf x l = Some k → l !! k = Some x ∧ ∀ j, j < k → l !! j ≠ Some x.
Proof.
  revert k. induction l as [|y l IH]; intros k; simpl; [done|].
  case_decide as Hy.
  - intros [= <-]. subst. split; [done|]. intros j Hj. lia.
  - destruct (indexOf x l) as [k'|] eqn:Hk; simpl; [|done].
    intros [= <-]. destruct (IH k' eq_refl) as [H1 H2]. split; [done|].
    intros [|j] Hj; simpl; [congruence|]. apply H2. lia.
Qed.
End Arrays.

(** ** The grid: placement uniqueness and the frame of a move *)

Section Grid.
Implicit Types (state : grid) (s : string) (i j : nat) (c : string) (v : cell).

Lemma findCourse_entries_None entries c :
  findCourse_entries entries c = None ↔ ∀ s slots, (s, slots) ∈ entries → Code c ∉ slots.
Proof.
  induction entries as [|[s0 l0] rest IH]; simpl.
  - split; [|done]. intros _ s slots Hin. by apply elem_of_nil in Hin.
  - destruct (indexOf (Code c) l0) as [k|] eqn:Hk.
    + split; [done|]. intros Hall. exfalso.
      apply indexOf_Some in Hk as [Hk _].
      apply (Hall s0 l0); [left|]. by eapply list_elem_of_lookup_2.
    + rewrite IH. apply indexOf_None in Hk. split.
      * intros Hall s slots Hin. apply elem_of_cons in Hin as [[= -> ->]|Hin]; eauto.
      * intros Hall s slots Hin. apply (Hall s). by right.
Qed.

Lemma findCourse_None state c :
  findCourse state c = None ↔ ∀ s i, ¬ holds state s i c.
Proof.
  unfold findCourse. rewrite findCourse_entries_None. split.
  - intros Hall s i (slots & Hs & Hi). apply (Hall s slots).
    + by apply elem_of_map_to_list.
    + by eapply list_elem_of_lookup_2.
  - intros Hno s slots Hin Hc. apply elem_of_map_to_list in Hin.
    apply list_elem_of_lookup_1 in Hc as [i Hi]. apply (Hno s i). by exists slots.
Qed.

Lemma findCourse_Some state c loc :
  findCourse state c = Some loc → holds state loc.1 loc.2 c.
Proof.
  unfold findCourse. intros H.
  assert (∀ entries, findCourse_entries entries c = Some loc →
            ∃ slots, (loc.1, slots) ∈ entries ∧ slots !! loc.2 = Some (Code c)) as Hgen.
  { clear. induction entries as [|[s0 l0] rest IH]; simpl; [done|].
    destruct (indexOf (Code c) l0) as [k|] eqn:Hk.
    - intros [= <-]. simpl. exists l0. split; [left|]. by apply indexOf_Some in Hk as [? _].
    - intros Hr. destruct (IH Hr) as (slots & ? & ?). exists slots. split; [by right|done]. }
  destruct (Hgen _ H) as (slots & Hin & Hi). exists slots.
  split; [by apply elem_of_map_to_list|done].
Qed.

(** What a single write may add to the placements *)
Lemma holds_write_inv state s slots i v s' j c :
  state !! s = Some slots →
  holds (<[s := array_set slots i v]> state) s' j c →
  (s' = s ∧ j = i ∧ v = Code c) ∨ ((s', j) ≠ (s, i) ∧ holds state s' j c).
Proof.
  intros Hs (l & Hl & Hj). destruct (decide (s' = s)) as [->|Hne].
  - rewrite lookup_insert_eq in Hl. injection Hl as <-.
    apply array_set_lookup_Code in Hj as [[-> ->]|[Hji Hj]]; [by left|].
    right. split; [congruence|]. by exists slots.
  - rewrite lookup_insert_ne in Hl by done. right. split; [congruence|]. by exists l.
Qed.

Lemma unique_write_Null state s slots i v :
  state !! s = Some slots → (∀ c, v ≠ Code c) → unique state →
  unique (<[s := array_set slots i v]> state).
Proof.
  intros Hs Hv Hu c s1 i1 s2 i2 H1 H2.
  apply (holds_write_inv _ _ _ _ _ _ _ _ Hs) in H1 as [(_ & _ & ?)|[_ H1]]; [by edestruct Hv|].
  apply (holds_write_inv _ _ _ _ _ _ _ _ Hs) in H2 as [(_ & _ & ?)|[_ H2]]; [by edestruct Hv|].
  by eapply Hu.
Qed.

Lemma unique_write_fresh state s slots i c :
  state !! s = Some slots →
  (∀ s' j, (s', j) ≠ (s, i) → ¬ holds state s' j c) →
  unique state →
  unique (<[s := array_set slots i (Code c)]> state).
Proof.
  intros Hs Hfresh Hu x s1 i1 s2 i2 H1 H2.
  apply (holds_write_inv _ _ _ _ _ _ _ _ Hs) in H1 as [(? & ? & ?)|[Hn1 H1]];
    apply (holds_write_inv _ _ _ _ _ _ _ _ Hs) in H2 as [(? & ? & ?)|[Hn2 H2]];
    simplify_eq.
  - done.
  - by destruct (Hfresh _ _ Hn2).
  - by destruct (Hfresh _ _ Hn1).
  - by eapply Hu.
Qed.

Lemma addCourse_unique state s i c : unique state → unique (addCourse state s i c).1.
Proof.
  intros Hu. unfold addCourse.
  destruct (findCourse state c) as [loc|] eqn:Hf; [done|].
  destruct (state !! s) as [slots|] eqn:Hs; [|done].
  case_decide; [done|]. simpl.
  apply unique_write_fresh; [done| |done].
  intros s' j _. by apply findCourse_None.
Qed.

Lemma removeCourse_unique state s i : unique state → unique (removeCourse state s i).1.
Proof.
  intros Hu. unfold removeCourse. destruct (state !! s) as [slots|] eqn:Hs; [|done].
  simpl. by apply unique_write_Null.
Qed.

Lemma moveCourse_unique state fs fi ts ti :
  unique state → unique (moveCourse state fs fi ts ti).1.
Proof.
  intros Hu. unfold moveCourse. destruct (state !! fs) as [src|] eqn:Hfs; [|done].
  assert (unique (<[fs := array_set src fi Null]> state)) as Hu1
    by (by apply unique_write_Null).
  simpl. destruct (<[fs := array_set src fi Null]> state !! ts) as [dst|] eqn:Hts; [|done].
  simpl. destruct (array_get src fi) as [| |c] eqn:Hcode.
  - by apply unique_write_Null.
  - by apply unique_write_Null.
  - apply unique_write_fresh; [done| |done].
    intros s' j _ Hh.
    apply (holds_write_inv _ _ _ _ _ _ _ _ Hfs) in Hh as [(_ & _ & ?)|[Hn Hh]]; [done|].
    assert (holds state fs fi c) as Hsrc.
    { exists src. split; [done|]. unfold array_get in Hcode.
      destruct (src !! fi) as [w|]; simpl in Hcode; congruence. }
    destruct (Hu _ _ _ _ _ Hh Hsrc) as [-> ->]. done.
Qed.

Lemma initSemesters_empty ids state s i c :
  (∀ s i c, ¬ holds state s i c) → ¬ holds (initSemesters ids state) s i c.
Proof.
  revert state. induction ids as [|id ids IH]; intros state Hno; simpl; [apply Hno|].
  apply IH. intros s' j x (l & Hl & Hj).
  destruct (decide (id = s')) as [->|Hne].
  - rewrite lookup_insert_eq in Hl.
    assert (l = replicate slotsPerSemester Null) as -> by (by injection Hl).
    apply lookup_replicate in Hj as [? _]. done.
  - rewrite lookup_insert_ne in Hl by done. apply (Hno s' j x). by exists l.
Qed.

Lemma plainKey_decide key : bool_decide (key ∉ inheritedNames) = true → plainKey key.
Proof. apply bool_decide_eq_true_1. Qed.

Lemma run_unique ops state : unique state → unique (run ops state).
Proof.
  revert state. induction ops as [|o ops IH]; intros state Hu; [done|].
  simpl. apply IH. destruct o; simpl.
  - by apply addCourse_unique.
  - by apply removeCourse_unique.
  - by apply moveCourse_unique.
Qed.
End Grid.

Section GridClaims.
Implicit Types (state : grid) (s : string) (i j : nat) (c : string) (v : cell).

Lemma read_write state s slots i v s' j :
  state !! s = Some slots →
  read (<[s := array_set slots i v]> state) s' j =
    if decide ((s', j) = (s, i)) then Some v else read state s' j.
Proof.
  intros Hs. unfold read. destruct (decide (s' = s)) as [->|Hne].
  - rewrite lookup_insert_eq, Hs. simpl. case_decide as Heq.
    + injection Heq as ->. by rewrite array_get_set_eq.
    + rewrite array_get_set_ne; [done|]. congruence.
  - rewrite lookup_insert_ne by done. rewrite decide_False; [done|]. congruence.
Qed.

Lemma moveCourse_state state fs fi ts ti src dst :
  state !! fs = Some src → state !! ts = Some dst →
  ∃ dst1, <[fs := array_set src fi Null]> state !! ts = Some dst1 ∧
    moveCourse state fs fi ts ti =
      (<[ts := array_set dst1 ti (array_get src fi)]> (<[fs := array_set src fi Null]> state),
       Normal tt).
Proof.
  intros Hfs Hts. unfold moveCourse. rewrite Hfs. simpl.
  destruct (<[fs := array_set src fi Null]> state !! ts) as [dst1|] eqn:H1.
  - by exists dst1.
  - destruct (decide (fs = ts)) as [->|Hne].
    + by rewrite lookup_insert_eq in H1.
    + rewrite lookup_insert_ne in H1 by done. congruence.
Qed.

Lemma reachable_unique (semesterIds : list string) (ops : list op) :
  unique (run ops (initSemesters semesterIds newGrid)).
Proof.
  apply run_unique. intros c s1 i1 s2 i2 H1 _.
  exfalso. revert H1. apply initSemesters_empty.
  intros s i x (l & Hl & _). unfold newGrid in Hl. by rewrite lookup_empty in Hl.
Qed.


(** C10. [moveCourse] between two existing semesters never checks what the
    destination holds: it completes, the destination slot then holds what
    the source slot held, the source slot (when it is another slot) holds
    [null], every other slot reads as before and the other semesters keep
    their arrays; a different course that sat in the destination slot is
    afterwards in no slot of a grid that placed it only once. *)
Theorem moveCourse_overwrites_destination
    state fromSemester fromSlot toSemester toSlot src dst :
  state !! fromSemester = Some src →
  state !! toSemester = Some dst →
  let moved := moveCourse state fromSemester fromSlot toSemester toSlot in
  moved.2 = Normal tt ∧
  read moved.1 toSemester toSlot = Some (array_get src fromSlot) ∧
  ((fromSemester, fromSlot) ≠ (toSemester, toSlot) →
     read moved.1 fromSemester fromSlot = Some Null) ∧
  (∀ s i, (s, i) ≠ (fromSemester, fromSlot) → (s, i) ≠ (toSemester, toSlot) →
     read moved.1 s i = read state s i) ∧
  (∀ s, s ≠ fromSemester → s ≠ toSemester → moved.1 !! s = state !! s) ∧
  (∀ y, dst !! toSlot = Some (Code y) → array_get src fromSlot ≠ Code y →
     unique state → ∀ s i, ¬ holds moved.1 s i y).
Proof.
  intros Hfs Hts moved.
  destruct (moveCourse_state state fromSemester fromSlot toSemester toSlot src dst Hfs Hts)
    as (dst1 & Hd1 & Hmove).
  subst moved. rewrite Hmove. simpl. repeat split.
  - rewrite (read_write _ _ _ _ _ _ _ Hd1). by rewrite decide_True.
  - intros Hne. rewrite (read_write _ _ _ _ _ _ _ Hd1). rewrite decide_False by done.
    rewrite (read_write _ _ _ _ _ _ _ Hfs). by rewrite decide_True.
  - intros s i Hn1 Hn2. rewrite (read_write _ _ _ _ _ _ _ Hd1). rewrite decide_False by done.
    rewrite (read_write _ _ _ _ _ _ _ Hfs). by rewrite decide_False.
  - intros s Hn1 Hn2. by rewrite !lookup_insert_ne.
  - intros y Hy Hcode Hu s i Hh.
    apply (holds_write_inv _ _ _ _ _ _ _ _ Hd1) in Hh as [(_ & _ & ?)|[Hn2 Hh]]; [done|].
    apply (holds_write_inv _ _ _ _ _ _ _ _ Hfs) in Hh as [(_ & _ & ?)|[Hn1 Hh]]; [done|].
    assert (holds state toSemester toSlot y) as Hdst by (by exists dst).
    destruct (Hu _ _ _ _ _ Hh Hdst) as [-> ->]. done.
Qed.
End GridClaims.



Lemma moveCourse_overwrites_destination_witness :
  let moved := moveCourse plan0 "fall-1" 0 "winter-1" 1 in
  moved.2 = Normal tt ∧
  read moved.1 "winter-1" 1 = Some (Code "APS105H1") ∧
  read moved.1 "fall-1" 0 = Some Null ∧
  ∀ s i, ¬ holds moved.1 s i "ECE244H1".
Proof.
  assert (plan0 !! "fall-1" = Some [Code "APS105H1"; Null; Null; Null; Null]) as Hfs
    by (vm_compute; reflexivity).
  assert (plan0 !! "winter-1" = Some [Null; Code "ECE244H1"; Null; Null; Null]) as Hts
    by (vm_compute; reflexivity).
  destruct (moveCourse_overwrites_destination plan0 "fall-1" 0 "winter-1" 1 _ _ Hfs Hts)
    as (Hok & Hdst & Hsrc & _ & _ & Hgone).
  split; [exact Hok|]. split; [exact Hdst|]. split; [apply Hsrc; discriminate|].
  apply Hgone; [reflexivity|discriminate|].
  apply reachable_unique.
Defined.

(** ** The semester-relative sets *)

Section CompletedSets.
Implicit Types (state : grid) (c : string) (completed : gset string).

Lemma addPlaced_elem completed slots c :
  c ∈ addPlaced completed slots ↔ c ∈ completed ∨ (c ≠ "" ∧ Code c ∈ slots).
Proof.
  unfold addPlaced. revert completed.
  induction slots as [|v slots IH]; intros completed; simpl.
  - split; [by left|]. intros [?|[_ H]]; [done|]. by apply elem_of_nil in H.
  - rewrite IH. destruct v as [| |x]; simpl.
    + split; (intros [?|[? H]]; [by left|right; split; [done|]]).
      * by right.
      * by apply elem_of_cons in H as [?|?].
    + split; (intros [?|[? H]]; [by left|right; split; [done|]]).
      * by right.
      * by apply elem_of_cons in H as [?|?].
    + destruct (String.eqb x "") eqn:Hx; simpl.
      * apply String.eqb_eq in Hx as ->.
        split; (intros [?|[? H]]; [by left|right; split; [done|]]).
        -- by right.
        -- apply elem_of_cons in H as [[= ?]|?]; done.
      * apply String.eqb_neq in Hx. split.
        -- intros [H|[? H]].
           ++ apply elem_of_union in H as [H|H]; [|by left].
              apply elem_of_singleton in H as ->. right. split; [done|left].
           ++ right. split; [done|by right].
        -- intros [H|[? H]].
           ++ left. apply elem_of_union. by right.
           ++ apply elem_of_cons in H as [[= ->]|H].
              ** left. apply elem_of_union. left. by apply elem_of_singleton.
              ** right. done.
Qed.

Lemma collectSemesters_spec state semesters completed :
  (∀ sem, sem ∈ semesters → is_Some (state !! sem)) →
  ∃ result, collectSemesters state semesters completed = Normal result ∧
    ∀ c, c ∈ result ↔
         c ∈ completed ∨
         (c ≠ "" ∧ ∃ sem slots, sem ∈ semesters ∧ state !! sem = Some slots ∧ Code c ∈ slots).
Proof.
  revert completed. induction semesters as [|sem rest IH]; intros completed Hall; simpl.
  - exists completed. split; [done|]. intros c. split; [by left|].
    intros [?|(_ & ? & ? & H & _)]; [done|]. by apply elem_of_nil in H.
  - destruct (Hall sem) as [slots Hs]; [left|]. rewrite Hs.
    destruct (IH (addPlaced completed slots)) as (result & Hr & Hspec).
    { intros s Hin. apply Hall. by right. }
    exists result. split; [done|]. intros c. rewrite Hspec, addPlaced_elem. split.
    + intros [[?|[? ?]]|(? & s & l & ? & ? & ?)].
      * by left.
      * right. split; [done|]. exists sem, slots. split; [left|done].
      * right. split; [done|]. exists s, l. split; [by right|done].
    + intros [?|(? & s & l & Hin & Hl & ?)]; [by left; left|].
      apply elem_of_cons in Hin as [->|Hin].
      * left. right. split; [done|]. congruence.
      * right. split; [done|]. by exists s, l.
Qed.

Lemma collectSemesters_take state semesterOrder bound :
  (∀ sem, sem ∈ semesterOrder → is_Some (state !! sem)) →
  ∃ result, collectSemesters state (take bound semesterOrder) ∅ = Normal result ∧
    ∀ c, c ∈ result ↔ c ≠ "" ∧ placedWithin state semesterOrder bound c.
Proof.
  intros Hall.
  destruct (collectSemesters_spec state (take bound semesterOrder) ∅) as (result & Hr & Hspec).
  { intros sem Hin. apply Hall. apply elem_of_take in Hin as (i & Hi & _).
    by eapply list_elem_of_lookup_2. }
  exists result. split; [done|]. intros c. rewrite Hspec. split.
  - intros [H|(? & sem & slots & Hin & Hs & Hc)]; [by apply not_elem_of_empty in H|].
    split; [done|]. apply elem_of_take in Hin as (i & Hi & Hlt).
    apply list_elem_of_lookup_1 in Hc as [slot Hslot].
    exists i, sem, slot. split; [done|]. split; [done|]. by exists slots.
  - intros [? (i & sem & slot & Hlt & Hi & slots & Hs & Hslot)]. right. split; [done|].
    exists sem, slots. split; [|split; [done|by eapply list_elem_of_lookup_2]].
    apply elem_of_take. by exists i.
Qed.

Lemma targetIdx_found semesterId semesterOrder k :
  indexOf semesterId semesterOrder = Some k →
  Z.to_nat (targetIdx semesterId semesterOrder) = k ∧
  Z.to_nat (targetIdx semesterId semesterOrder + 1) = S k.
Proof. intros H. unfold targetIdx. rewrite H. lia. Qed.
End CompletedSets.

Section TemporalRules.
Implicit Types (state : grid) (c : string).

Lemma validate_leaf (completed : gset string) a :
  validate completed (Some (COURSE a)) =
    Normal {| satisfied := bool_decide (a ∈ completed);
              missing := if bool_decide (a ∈ completed) then [] else [MissingCOURSE a] |}.
Proof. reflexivity. Qed.

Lemma indexOf_first {A} `{EqDecision A} (x : A) (l : list A) k i :
  indexOf x l = Some k → i < k → l !! i ≠ Some x.
Proof. intros H Hi. apply indexOf_Some in H as [_ H]. by apply H. Qed.

Lemma collectSemesters_prefix state semesterOrder bound :
  (∀ i sem, i < bound → semesterOrder !! i = Some sem → is_Some (state !! sem)) →
  ∃ result, collectSemesters state (take bound semesterOrder) ∅ = Normal result ∧
    ∀ c, c ∈ result ↔ c ≠ "" ∧ placedWithin state semesterOrder bound c.
Proof.
  intros Hall.
  destruct (collectSemesters_spec state (take bound semesterOrder) ∅) as (result & Hr & Hspec).
  { intros sem Hin. apply elem_of_take in Hin as (i & Hi & Hlt). by eapply Hall. }
  exists result. split; [done|]. intros c. rewrite Hspec. split.
  - intros [H|(? & sem & slots & Hin & Hs & Hc)]; [by apply not_elem_of_empty in H|].
    split; [done|]. apply elem_of_take in Hin as (i & Hi & Hlt).
    apply list_elem_of_lookup_1 in Hc as [slot Hslot].
    exists i, sem, slot. split; [done|]. split; [done|]. by exists slots.
  - intros [? (i & sem & slot & Hlt & Hi & slots & Hs & Hslot)]. right. split; [done|].
    exists sem, slots. split; [|split; [done|by eapply list_elem_of_lookup_2]].
    apply elem_of_take. by exists i.
Qed.

Lemma temporalRule_prerequisites db fuel course semesterId state semesterOrder before
    errors (cache : gmap string (option tree)) :
  getCoursesBeforeSemester state semesterId semesterOrder = Normal before →
  validatePlacement_prerequisites db fuel course semesterId state semesterOrder errors cache
    = temporalRule db fuel prerequisite (prerequisites course) before errors cache.
Proof.
  intros HB. unfold validatePlacement_prerequisites, temporalRule.
  destruct (requirement (prerequisites course)) as [id|]; [|done].
  unfold bind, lift, parsing, ret, ruleOutcome, bindC. rewrite HB.
  destruct (parseCourseset db fuel id cache) as [[t c1]|]; [|done].
  by destruct (validate before t).
Qed.

Lemma temporalRule_corequisites db fuel course semesterId state semesterOrder upto
    errors (cache : gmap string (option tree)) :
  getCoursesUpToSemester state semesterId semesterOrder = Normal upto →
  validatePlacement_corequisites db fuel course semesterId state semesterOrder errors cache
    = temporalRule db fuel corequisite (corequisites course) upto errors cache.
Proof.
  intros HU. unfold validatePlacement_corequisites, temporalRule.
  destruct (requirement (corequisites course)) as [id|]; [|done].
  unfold bind, lift, parsing, ret, ruleOutcome, bindC. rewrite HU.
  destruct (parseCourseset db fuel id cache) as [[t c1]|]; [|done].
  by destruct (validate upto t).
Qed.

Lemma validatePlacement_exclusions_none db fuel course courseCode state errors
    (cache : gmap string (option tree)) :
  requirement (exclusions course) = None →
  validatePlacement_exclusions db fuel course courseCode state errors cache
    = Some (Normal errors, cache).
Proof. intros H. unfold validatePlacement_exclusions. by rewrite H. Qed.

(** C1. For a semester at index [k] of the semester order (the semesters at
    the indices up to [k] being in the grid; later ones are not read),
    [validatePlacement] of a course of the catalog is the run of its three
    rules in which the prerequisite tree is evaluated against exactly the
    codes (non-empty strings, the truthy slot contents) in slots of the
    semesters at indices [0 .. k-1], and the corequisite tree against the
    codes in the semesters at indices [0 .. k]. Hence, for a course whose
    requirement is the single course [a] sitting in semester [k] itself
    (and, the grid placing each course once, nowhere else):
    [validatePlacement] reports [a] missing when it is the prerequisite,
    and reports nothing when it is the corequisite. *)
Theorem placement_rules_follow_semester_order state semesterOrder semesterId k :
  indexOf semesterId semesterOrder = Some k →
  (∀ i sem, i ≤ k → semesterOrder !! i = Some sem → is_Some (state !! sem)) →
  ∃ before upto,
    getCoursesBeforeSemester state semesterId semesterOrder = Normal before ∧
    getCoursesUpToSemester state semesterId semesterOrder = Normal upto ∧
    (∀ c, c ∈ before ↔ c ≠ "" ∧ placedWithin state semesterOrder k c) ∧
    (∀ c, c ∈ upto ↔ c ≠ "" ∧ placedWithin state semesterOrder (S k) c) ∧
    (∀ db fuel courseCode course (cache : gmap string (option tree)),
       getCourse db courseCode = Some course →
       validatePlacement db fuel courseCode semesterId state semesterOrder cache =
         placementAgainst db fuel course courseCode state before upto cache) ∧
    (∀ a slot, a ≠ "" → holds state semesterId slot a → unique state →
       (a ∉ before) ∧ a ∈ upto ∧
       ∀ db fuel courseCode course id (cache cache1 : gmap string (option tree)),
         getCourse db courseCode = Some course →
         parseCourseset db fuel id cache = Some (Some (COURSE a), cache1) →
         requirement (exclusions course) = None →
         (requirement (prerequisites course) = Some id →
          requirement (corequisites course) = None →
          validatePlacement db fuel courseCode semesterId state semesterOrder cache =
            Some (Normal {| valid := false;
                            errors := [prerequisite [MissingCOURSE a]] |}, cache1)) ∧
         (requirement (prerequisites course) = None →
          requirement (corequisites course) = Some id →
          validatePlacement db fuel courseCode semesterId state semesterOrder cache =
            Some (Normal {| valid := true; errors := [] |}, cache1))).
Proof.
  intros Hk Hall.
  destruct (targetIdx_found _ _ _ Hk) as [Hb Hu].
  destruct (collectSemesters_prefix state semesterOrder k) as (before & Hbefore & Hbs).
  { intros i sem Hi. apply Hall. lia. }
  destruct (collectSemesters_prefix state semesterOrder (S k)) as (upto & Hupto & Hus).
  { intros i sem Hi. apply Hall. lia. }
  exists before, upto.
  assert (getCoursesBeforeSemester state semesterId semesterOrder = Normal before) as HB
    by (unfold getCoursesBeforeSemester; by rewrite Hb).
  assert (getCoursesUpToSemester state semesterId semesterOrder = Normal upto) as HU
    by (unfold getCoursesUpToSemester; by rewrite Hu).
  assert (∀ db fuel courseCode course (cache : gmap string (option tree)),
            getCourse db courseCode = Some course →
            validatePlacement db fuel courseCode semesterId state semesterOrder cache =
              placementAgainst db fuel course courseCode state before upto cache) as Hrun.
  { intros db fuel courseCode course cache Hcourse.
    unfold validatePlacement, placementAgainst. rewrite Hcourse.
    unfold bind at 1 4. rewrite (temporalRule_prerequisites _ _ _ _ _ _ _ _ _ HB).
    destruct (temporalRule db fuel prerequisite (prerequisites course) before [] cache)
      as [[[e1|] c1]|]; [|done|done].
    unfold bind at 1 3. rewrite (temporalRule_corequisites _ _ _ _ _ _ _ _ _ HU).
    done. }
  do 4 (split; [done|]). split; [exact Hrun|].
  intros a slot Ha Hhold Huniq.
  assert (a ∉ before) as Hnb.
  { rewrite Hbs. intros [_ (i & sem & sl & Hlt & Hi & Hh)].
    destruct (Huniq _ _ _ _ _ Hh Hhold) as [-> _].
    by eapply (indexOf_first semesterId semesterOrder k i). }
  assert (a ∈ upto) as Hin.
  { rewrite Hus. split; [done|]. exists k, semesterId, slot.
    split; [lia|]. split; [|done]. by apply indexOf_Some in Hk as [? _]. }
  split; [done|]. split; [done|].
  intros db fuel courseCode course id cache cache1 Hcourse Hparse Hexcl. split.
  - intros Hpre Hco. rewrite (Hrun _ _ _ _ _ Hcourse).
    unfold placementAgainst, temporalRule. rewrite Hpre, Hco.
    unfold bind, lift, parsing, ret, ruleOutcome, bindC. rewrite Hparse.
    rewrite validate_leaf, (bool_decide_eq_false_2 _ Hnb). simpl.
    by rewrite (validatePlacement_exclusions_none _ _ _ _ _ _ _ Hexcl).
  - intros Hpre Hco. rewrite (Hrun _ _ _ _ _ Hcourse).
    unfold placementAgainst, temporalRule. rewrite Hpre, Hco.
    unfold bind, lift, parsing, ret, ruleOutcome, bindC. rewrite Hparse.
    rewrite validate_leaf, (bool_decide_eq_true_2 _ Hin). simpl.
    by rewrite (validatePlacement_exclusions_none _ _ _ _ _ _ _ Hexcl).
Qed.
End TemporalRules.

(** ** The evaluator *)

Section Evaluator.
Implicit Types (completed : gset string) (t : tree) (child : option tree)
  (children : list (option tree)) (r : RequirementResult).

Lemma tree_ind (P : tree → Prop) :
  (∀ code, P (COURSE code)) →
  (∀ children, Forall (from_option P True) children → P (OR children)) →
  (∀ children, Forall (from_option P True) children → P (AND children)) →
  ∀ t, P t.
Proof.
  intros HC HO HA.
  refine (fix IH t : P t :=
    let children_ok :=
      fix go (cs : list (option tree)) : Forall (from_option P True) cs :=
        match cs with
        | [] => List.Forall_nil _
        | c :: cs' =>
            @List.Forall_cons _ (from_option P True) c cs'
              (match c return from_option P True c with
               | Some t' => IH t'
               | None => I
               end) (go cs')
        end in
    match t with
    | COURSE code => HC code
    | OR cs => HO cs (children_ok cs)
    | AND cs => HA cs (children_ok cs)
    end).
Qed.

Lemma validate_node_OR completed children :
  validate_node completed (OR children) =
    validate_OR (validate completed)
      (bindC (collectLeafCodes_node (OR children)) (fun options =>
         Normal {| satisfied := false; missing := [MissingOR options] |}))
      children.
Proof. reflexivity. Qed.

Lemma validate_node_AND completed children :
  validate_node completed (AND children) =
    validate_AND (validate completed) true [] children.
Proof. reflexivity. Qed.

(** The [OR] loop, when every child's evaluation completes *)
Lemma validate_OR_results (f : option tree → completion RequirementResult)
    after children results :
  Forall2 (fun child r => f child = Normal r) children results →
  validate_OR f after children =
    if existsb satisfied results
    then Normal {| satisfied := true; missing := [] |}
    else after.
Proof.
  induction 1 as [|child r children results Hc _ IH]; simpl; [done|].
  rewrite Hc. simpl. destruct (satisfied r); simpl; [done|apply IH].
Qed.

(** The [AND] loop, when every child's evaluation completes *)
Lemma validate_AND_results (f : option tree → completion RequirementResult)
    allSatisfied allMissing children results :
  Forall2 (fun child r => f child = Normal r) children results →
  validate_AND f allSatisfied allMissing children =
    Normal {| satisfied := allSatisfied && forallb satisfied results;
              missing := allMissing ++ flat_map missing (List.filter unsatisfied results) |}.
Proof.
  intros H. revert allSatisfied allMissing.
  induction H as [|child r children results Hc _ IH]; intros allSatisfied allMissing; simpl.
  - by rewrite andb_true_r, app_nil_r.
  - rewrite Hc. simpl. unfold unsatisfied at 1.
    destruct (satisfied r) eqn:Hr; simpl.
    + rewrite IH. done.
    + rewrite IH. rewrite andb_false_r. simpl. by rewrite app_assoc.
Qed.

(** A child whose evaluation throws makes the [AND] loop throw. *)
Lemma validate_AND_throws (f : option tree → completion RequirementResult)
    allSatisfied allMissing children :
  Exists (fun child => f child = TypeError) children →
  validate_AND f allSatisfied allMissing children = TypeError.
Proof.
  intros H. revert allSatisfied allMissing.
  induction H as [child children Hc|child children _ IH]; intros allSatisfied allMissing; simpl.
  - by rewrite Hc.
  - destruct (f child) as [r|]; simpl; [|done]. destruct (satisfied r); apply IH.
Qed.

Lemma collectLeafCodes_present t :
  present t = true → collectLeafCodes_node t = Normal (leaves t).
Proof.
  induction t as [code|children IH|children IH] using tree_ind; [done| |];
    simpl; intros Hp.
  all: induction children as [|[c|] cs IHcs]; simpl in *; [done| |done].
  all: apply andb_true_iff in Hp as [Hc Hcs].
  all: apply Forall_cons in IH as [IHc IHrest]; simpl in IHc.
  all: rewrite (IHc Hc); simpl.
  all: rewrite (IHcs IHrest Hcs); done.
Qed.

Lemma satisfied_no_missing completed t r :
  validate_node completed t = Normal r → satisfied r = true → missing r = [].
Proof.
  destruct t as [code|children|children].
  - simpl. intros [= <-]. simpl. by intros ->.
  - rewrite validate_node_OR.
    assert (∀ r', bindC (collectLeafCodes_node (OR children)) (fun options =>
               Normal {| satisfied := false; missing := [MissingOR options] |}) = Normal r' →
            satisfied r' = true → missing r' = []) as Ha.
    { destruct (collectLeafCodes_node (OR children)); simpl; [|done]. by intros r' [= <-]. }
    revert Ha.
    generalize (bindC (collectLeafCodes_node (OR children)) (fun options =>
         Normal {| satisfied := false; missing := [MissingOR options] |})).
    intros after Ha. induction children as [|c cs IHcs]; simpl; [apply Ha|].
    destruct (validate completed c) as [rc|]; simpl; [|done].
    destruct (satisfied rc); [by intros [= <-]|apply IHcs].
  - rewrite validate_node_AND.
    assert (∀ allSatisfied allMissing,
              (allSatisfied = true → allMissing = []) →
              validate_AND (validate completed) allSatisfied allMissing children = Normal r →
              satisfied r = true → missing r = []) as Hgen; [|by apply Hgen].
    induction children as [|c cs IHcs]; intros allSatisfied allMissing Hinv; simpl.
    + intros [= <-]. simpl. done.
    + destruct (validate completed c) as [rc|]; simpl; [|done].
      destruct (satisfied rc); [by apply IHcs|]. by apply IHcs.
Qed.

Lemma validate_satisfied_no_missing completed child r :
  validate completed child = Normal r → satisfied r = true → missing r = [].
Proof.
  destruct child as [t|]; simpl; [apply satisfied_no_missing|]. by intros [= <-].
Qed.

(** [validate] builds [MissingCOURSE] and [MissingOR] entries only. *)
Lemma validate_flat completed t r :
  validate_node completed t = Normal r → Forall flatEntry (missing r).
Proof.
  revert r. induction t as [code|children IH|children IH] using tree_ind; intros r.
  - simpl. intros [= <-]. simpl. case_bool_decide; repeat constructor.
  - rewrite validate_node_OR.
    assert (∀ r', bindC (collectLeafCodes_node (OR children)) (fun options =>
               Normal {| satisfied := false; missing := [MissingOR options] |}) = Normal r' →
            Forall flatEntry (missing r')) as Ha.
    { destruct (collectLeafCodes_node (OR children)); simpl; [|done].
      intros r' [= <-]. simpl. repeat constructor. }
    revert Ha.
    generalize (bindC (collectLeafCodes_node (OR children)) (fun options =>
         Normal {| satisfied := false; missing := [MissingOR options] |})).
    intros after Ha. clear IH. induction children as [|c cs IHcs]; simpl; [apply Ha|].
    destruct (validate completed c) as [rc|]; simpl; [|done].
    destruct (satisfied rc); [|apply IHcs]. intros [= <-]. constructor.
  - rewrite validate_node_AND.
    assert (∀ allSatisfied allMissing,
              Forall flatEntry allMissing →
              validate_AND (validate completed) allSatisfied allMissing children = Normal r →
              Forall flatEntry (missing r)) as Hgen; [|apply Hgen; constructor].
    induction children as [|c cs IHcs]; intros allSatisfied allMissing Hinv; simpl.
    + by intros [= <-].
    + apply Forall_cons in IH as [IHc IHrest].
      destruct (validate completed c) as [rc|] eqn:Hc; simpl; [|done].
      destruct (satisfied rc); [by apply IHcs|]. apply IHcs; [done|].
      apply Forall_app. split; [done|].
      destruct c as [tc|]; simpl in *; [by apply IHc|]. injection Hc as <-. constructor.
Qed.

Lemma children_results completed (Q : RequirementResult → Prop) children :
  Forall (from_option (fun t => ∃ r, validate_node completed t = Normal r ∧ Q r) False)
    children →
  ∃ results, Forall2 (fun child r => validate completed child = Normal r) children results ∧
             Forall Q results.
Proof.
  induction 1 as [|[c|] cs Hc _ (results & H2 & HQ)]; simpl in *.
  - exists []. split; constructor.
  - destruct Hc as (r & Hr & Hq). exists (r :: results). split; by constructor.
  - done.
Qed.

Lemma present_children (P : tree → Prop) children :
  Forall (from_option (fun t => present t = true → P t) True) children →
  forallb presentChild children = true →
  Forall (from_option P False) children.
Proof.
  induction 1 as [|[c|] cs Hc _ IH]; simpl; intros Hp; [constructor| |done].
  apply andb_true_iff in Hp as [Hpc Hps]. constructor; [by apply Hc|by apply IH].
Qed.

(** Without [null] below it, a tree always evaluates. *)
Lemma validate_present_total completed t :
  present t = true → ∃ r, validate_node completed t = Normal r.
Proof.
  induction t as [code|children IH|children IH] using tree_ind; intros Hp.
  - simpl. eauto.
  - destruct (children_results completed (fun _ => True) children) as (results & H2 & _).
    { eapply Forall_impl; [apply (present_children _ _ IH Hp)|].
      intros [c|]; simpl; [|done]. intros [r Hr]. eauto. }
    rewrite validate_node_OR, (validate_OR_results _ _ _ _ H2).
    rewrite (collectLeafCodes_present _ Hp). simpl. destruct (existsb satisfied results); eauto.
  - destruct (children_results completed (fun _ => True) children) as (results & H2 & _).
    { eapply Forall_impl; [apply (present_children _ _ IH Hp)|].
      intros [c|]; simpl; [|done]. intros [r Hr]. eauto. }
    rewrite validate_node_AND, (validate_AND_results _ _ _ _ _ H2). eauto.
Qed.

Lemma present_results completed children :
  forallb presentChild children = true →
  ∃ results, Forall2 (fun child r => validate completed child = Normal r) children results.
Proof.
  intros Hp.
  destruct (children_results completed (fun _ => True) children) as (results & H2 & _);
    [|by exists results].
  apply (present_children (fun t => ∃ r, validate_node completed t = Normal r ∧ True));
    [|done].
  apply Forall_forall. intros [c|] _; simpl; [|done]. intros Hc.
  destruct (validate_present_total completed c Hc) as [r Hr]. eauto.
Qed.

(** A tree without [null] whose inner nodes all have a child is not
    satisfied by a set that holds none of its leaf codes. *)
Lemma validate_disjoint_unsatisfied completed t :
  present t = true → branching t = true →
  Forall (fun code => code ∉ completed) (leaves t) →
  ∃ r, validate_node completed t = Normal r ∧ satisfied r = false.
Proof.
  induction t as [code|children IH|children IH] using tree_ind; intros Hp Hb Hl.
  - simpl. eexists. split; [done|]. simpl. apply bool_decide_eq_false_2.
    by apply Forall_cons in Hl as [? _].
  - simpl in Hb. apply andb_true_iff in Hb as [Hne Hb].
    destruct (children_results completed (fun r => satisfied r = false) children)
      as (results & H2 & HQ).
    { clear Hne. simpl in Hp, Hl. induction IH as [|[c|] cs Hc _ IHcs]; simpl in *;
        [constructor| |done].
      apply andb_true_iff in Hp as [? ?]. apply andb_true_iff in Hb as [? ?].
      apply Forall_app in Hl as [? ?].
      constructor; [by apply Hc|by apply IHcs]. }
    rewrite validate_node_OR, (validate_OR_results _ _ _ _ H2).
    rewrite (collectLeafCodes_present _ Hp). simpl.
    assert (existsb satisfied results = false) as ->.
    { clear H2. induction HQ as [|r rs Hr _ IHr]; simpl; [done|]. by rewrite Hr. }
    eauto.
  - simpl in Hb. apply andb_true_iff in Hb as [Hne Hb].
    destruct (children_results completed (fun r => satisfied r = false) children)
      as (results & H2 & HQ).
    { clear Hne. simpl in Hp, Hl. induction IH as [|[c|] cs Hc _ IHcs]; simpl in *;
        [constructor| |done].
      apply andb_true_iff in Hp as [? ?]. apply andb_true_iff in Hb as [? ?].
      apply Forall_app in Hl as [? ?].
      constructor; [by apply Hc|by apply IHcs]. }
    rewrite validate_node_AND, (validate_AND_results _ _ _ _ _ H2).
    eexists. split; [done|]. simpl.
    destruct H2 as [|c r cs rs _ _]; simpl in *.
    + done.
    + apply Forall_cons in HQ as [-> _]. done.
Qed.

(** The [OR] case, when every child's evaluation completes and the leaf
    codes can be collected (as is the case without [null] below) *)
Lemma validate_OR_spec completed children results options :
  Forall2 (fun child r => validate completed child = Normal r) children results →
  collectLeafCodes (Some (OR children)) = Normal options →
  validate completed (Some (OR children)) =
    Normal {| satisfied := existsb satisfied results;
              missing := if existsb satisfied results then [] else [MissingOR options] |}.
Proof.
  intros H2 Hl. unfold collectLeafCodes in Hl.
  change (validate completed (Some (OR children)))
    with (validate_node completed (OR children)).
  rewrite validate_node_OR, (validate_OR_results _ _ _ _ H2), Hl.
  simpl. by destruct (existsb satisfied results).
Qed.

Lemma validate_OR_present completed children :
  present (OR children) = true →
  ∃ results,
    Forall2 (fun child r => validate completed child = Normal r) children results ∧
    validate completed (Some (OR children)) =
      Normal {| satisfied := existsb satisfied results;
                missing := if existsb satisfied results then []
                           else [MissingOR (leaves (OR children))] |}.
Proof.
  intros Hp. destruct (present_results completed children Hp) as [results H2].
  exists results. split; [done|]. apply validate_OR_spec; [done|].
  by apply collectLeafCodes_present.
Qed.

(** C5, as amended. For every [AND] node whose children's evaluations
    complete: the node is satisfied iff every child is; its missing list is
    the concatenation, in child order, of the missing lists of the
    unsatisfied children, made of [MissingCOURSE] and [MissingOR] entries
    only, so its length is the sum of their lengths; and against the empty
    completed set the node is unsatisfied when no descendant is [null] and
    every [AND] and [OR] node below has at least one child. *)
Theorem validate_AND_flattens completed children results :
  Forall2 (fun child r => validate completed child = Normal r) children results →
  ∃ r, validate completed (Some (AND children)) = Normal r ∧
    (satisfied r = true ↔ Forall (fun rc => satisfied rc = true) results) ∧
    missing r = flat_map missing (List.filter unsatisfied results) ∧
    Forall flatEntry (missing r) ∧
    length (missing r) =
      list_sum (map (fun rc => length (missing rc)) (List.filter unsatisfied results)) ∧
    (completed = ∅ → present (AND children) = true → branching (AND children) = true →
     satisfied r = false).
Proof.
  intros H2. eexists. split.
  { change (validate completed (Some (AND children)))
      with (validate_node completed (AND children)).
    rewrite validate_node_AND. apply (validate_AND_results _ _ _ _ _ H2). }
  simpl. split; [|split; [done|split; [|split]]].
  - rewrite forallb_forall, Forall_forall. split; intros H x Hx; apply H.
    + by apply list_elem_of_In.
    + by apply list_elem_of_In.
  - apply (validate_flat completed (AND children)
             {| satisfied := true && forallb satisfied results;
                missing := [] ++ flat_map missing (List.filter unsatisfied results) |}).
    rewrite validate_node_AND. apply (validate_AND_results _ _ _ _ _ H2).
  - apply length_flat_map.
  - intros -> Hp Hb.
    destruct (validate_disjoint_unsatisfied ∅ (AND children) Hp Hb) as (r & Hr & Hs).
    { apply Forall_forall. intros c _. apply not_elem_of_empty. }
    rewrite validate_node_AND, (validate_AND_results _ _ _ _ _ H2) in Hr.
    injection Hr as <-. done.
Qed.
End Evaluator.

(** ** The evaluator on the example catalogs *)

(** C5, as stated, fails: the courseset [ECE100H1_p3] is an [AND] of two
    references that do not resolve; its tree is satisfied by the empty
    completed set. *)
Lemma validate_AND_empty_set_counterexample :
  fst <$> parseCourseset danglingCatalog 2 "ECE100H1_p3" ∅ = Some (Some (AND [None; None])) ∧
  ¬ (∃ r, validate ∅ (Some (AND [None; None])) = Normal r ∧ satisfied r = false).
Proof.
  split; [vm_compute; reflexivity|].
  intros (r & Hr & Hs). vm_compute in Hr. injection Hr as <-. discriminate.
Qed.

Lemma validate_AND_flattens_witness :
  ∃ r,
    validate ∅ (Some (AND [Some (COURSE "ECE302H1");
                           Some (OR [Some (COURSE "ECE216H1"); Some (COURSE "ECE355H1")])]))
      = Normal r ∧
    satisfied r = false ∧
    missing r = [MissingCOURSE "ECE302H1"; MissingOR ["ECE216H1"; "ECE355H1"]] ∧
    length (missing r) = 2.
Proof.
  destruct (validate_AND_flattens ∅
              [Some (COURSE "ECE302H1");
               Some (OR [Some (COURSE "ECE216H1"); Some (COURSE "ECE355H1")])]
              [{| satisfied := false; missing := [MissingCOURSE "ECE302H1"] |};
               {| satisfied := false; missing := [MissingOR ["ECE216H1"; "ECE355H1"]] |}])
    as (r & Hr & _ & Hm & _ & Hlen & Hempty).
  - repeat constructor.
  - exists r. split; [exact Hr|]. split; [by apply Hempty|]. split; [exact Hm|exact Hlen].
Defined.

(** C4, at the failing input. In [danglingCatalog] the courseset
    [ECE100H1_p2] is an [OR] whose first alternative is an [AND] with a
    reference that does not resolve. Against the empty set both children
    evaluate, unsatisfied, so no child is satisfied; yet [validate] does not
    return the single [MissingOR] entry: [collectLeafCodes] reads [.type] of
    the [null] child and throws. *)
Theorem validate_OR_throws_below_unresolved_reference :
  let first := Some (AND [Some (COURSE "ECE101H1"); None]) in
  let second := Some (COURSE "ECE102H1") in
  fst <$> parseCourseset danglingCatalog 3 "ECE100H1_p2" ∅ = Some (Some (OR [first; second])) ∧
  validate ∅ first = Normal {| satisfied := false; missing := [MissingCOURSE "ECE101H1"] |} ∧
  validate ∅ second = Normal {| satisfied := false; missing := [MissingCOURSE "ECE102H1"] |} ∧
  validate ∅ (Some (OR [first; second])) = TypeError.
Proof. repeat split; vm_compute; reflexivity. Qed.

(** ** The placement validator on the example catalogs *)

(** C7, at the failing input. [ECE300H1] names the exclusion courseset
    [ECE300H1_e1], which the catalog does not define. The id resolves to
    [null] and [null] evaluates satisfied with nothing missing; prerequisite
    and corequisite rules with unknown ids pass ([ECE301H1]); but the
    exclusion rule takes the satisfied result for a conflict and calls
    [collectLeafCodes(null)], which throws. *)
Theorem validatePlacement_throws_on_unknown_exclusion :
  fst <$> parseCourseset danglingCatalog 3 "ECE300H1_e1" ∅ = Some None ∧
  (∀ completed, validate completed None = Normal {| satisfied := true; missing := [] |}) ∧
  fst <$> validatePlacement danglingCatalog 3 (Code "ECE301H1") "winter-1" plan1
            ["fall-1"; "winter-1"] ∅
    = Some (Normal {| valid := true; errors := [] |}) ∧
  fst <$> validatePlacement danglingCatalog 3 (Code "ECE300H1") "fall-1" plan1
            ["fall-1"; "winter-1"] ∅
    = Some TypeError.
Proof. repeat split; vm_compute; reflexivity. Qed.

(** C2, at the failing input. The exclusion courseset of [ECE100H1] is
    ["ECE200H1 / ECE999H1_e9"], whose second reference does not resolve.
    With [ECE200H1] placed the exclusion tree evaluates satisfied over the
    placed codes without [ECE100H1], so an exclusion error listing
    [ECE200H1] is due; [collectLeafCodes] throws on the [null] child
    instead. *)
Theorem validatePlacement_throws_on_exclusion_conflict :
  let exclTree := Some (OR [Some (COURSE "ECE200H1"); None]) in
  fst <$> parseCourseset danglingCatalog 3 "ECE100H1_e1" ∅ = Some exclTree ∧
  validate (set_delete (getAllPlacedCourses plan1) (Code "ECE100H1")) exclTree
    = Normal {| satisfied := true; missing := [] |} ∧
  fst <$> validatePlacement danglingCatalog 3 (Code "ECE100H1") "fall-1" plan1
            ["fall-1"; "winter-1"] ∅
    = Some TypeError.
Proof. repeat split; vm_compute; reflexivity. Qed.

(** C8, at the failing input. [validateAll] visits every element of every
    semester array and files a result under it, empty slots included: on
    [plan0] the result has the key [null] besides the two course codes, and
    on a grid without courses it is not empty. *)
Theorem validateAll_files_empty_slots :
  fst <$> validateAll sampleCatalog 3 plan0 ["fall-1"; "winter-1"] ∅
    = Some (Normal [(Code "APS105H1", {| valid := true; errors := [] |});
                    (Null, {| valid := true; errors := [] |});
                    (Code "ECE244H1", {| valid := true; errors := [] |})]) ∧
  fst <$> validateAll sampleCatalog 3 (initSemesters ["fall-1"] newGrid) ["fall-1"] ∅
    = Some (Normal [(Null, {| valid := true; errors := [] |})]).
Proof. split; vm_compute; reflexivity. Qed.

(** ** Tokenizing *)

Section Strings.
Implicit Types (s sep cur p r : string).
#[local] Arguments String.append !_ _ / : simpl nomatch.

Lemma append_nil_r s : s +:+ "" = s.
Proof. induction s as [|a s IH]; simpl; [done|by f_equal]. Qed.

Lemma append_assoc s p r : (s +:+ p) +:+ r = s +:+ (p +:+ r).
Proof. induction s as [|a s IH]; simpl; [done|by f_equal]. Qed.

Lemma prefix_append p s : String.prefix p s = true ↔ ∃ r, s = p +:+ r.
Proof.
  revert s. induction p as [|a p IH]; intros s.
  - destruct s; simpl; split; eauto.
  - destruct s as [|b s]; simpl.
    + split; [done|]. by intros [r ?].
    + destruct (Ascii.ascii_dec a b) as [->|Hne].
      * rewrite IH. split; intros [r Hr]; exists r; congruence.
      * split; [done|]. intros [r Hr]. congruence.
Qed.

#[local] Arguments String.prefix : simpl never.

Lemma split_from_skip sep p cur r :
  split_from sep (String.length p) cur (p +:+ r) = split_from sep 0 cur r.
Proof.
  induction p as [|a p IH]; simpl; [|by rewrite IH]. by destruct r.
Qed.

Lemma split_from_nonempty sep skip cur s : split_from sep skip cur s ≠ [].
Proof.
  revert skip cur. induction s as [|a s IH]; intros skip cur; simpl; [done|].
  destruct skip; [|apply IH]. destruct (String.prefix sep (String a s)); [done|apply IH].
Qed.

Lemma join_cons sep p parts : parts ≠ [] → join sep (p :: parts) = p +:+ sep +:+ join sep parts.
Proof. by destruct parts. Qed.

Lemma split_from_cons sep cur a s :
  split_from sep 0 cur (String a s) =
    if String.prefix sep (String a s)
    then cur :: split_from sep (String.length sep - 1) "" s
    else split_from sep 0 (cur +:+ String a "") s.
Proof. reflexivity. Qed.

(** Joining the parts with the separator gives the string back. *)
Lemma join_split_from sep cur s :
  sep ≠ "" → join sep (split_from sep 0 cur s) = cur +:+ s.
Proof.
  intros Hsep. remember (String.length s) as n eqn:Hn.
  revert s cur Hn. induction n as [n IH] using lt_wf_ind. intros s cur Hn.
  destruct s as [|b s]; [simpl; by rewrite append_nil_r|].
  rewrite split_from_cons. destruct sep as [|a sep']; [done|].
  destruct (String.prefix (String a sep') (String b s)) eqn:Hp.
  - apply prefix_append in Hp as [r Hr]. simpl in Hr. injection Hr as -> ->.
    cbn [String.length]. rewrite Nat.sub_succ, Nat.sub_0_r.
    rewrite split_from_skip.
    rewrite join_cons by apply split_from_nonempty.
    rewrite (IH (String.length r)); [done| |done].
    subst n. simpl. clear. induction sep' as [|c sep' IHs]; simpl; lia.
  - rewrite (IH (String.length s)); [|subst n; simpl; lia|done].
    by rewrite append_assoc.
Qed.

Lemma join_split s sep : sep ≠ "" → join sep (split s sep) = s.
Proof. intros Hsep. unfold split. by rewrite join_split_from. Qed.

(** At least two parts exactly when the separator occurs. *)
Lemma split_from_includes sep cur s :
  sep ≠ "" → includes s sep = true → 2 ≤ length (split_from sep 0 cur s).
Proof.
  intros Hsep. revert cur. induction s as [|b s IH]; intros cur.
  - destruct sep; [done|]. simpl. done.
  - rewrite split_from_cons. simpl.
    destruct (String.prefix sep (String b s)); simpl.
    + intros _.
      pose proof (split_from_nonempty sep (String.length sep - 1) "" s) as Hne.
      destruct (split_from sep (String.length sep - 1) "" s); [done|simpl; lia].
    + apply IH.
Qed.

Lemma split_from_whole sep cur s :
  includes s sep = false → split_from sep 0 cur s = [cur +:+ s].
Proof.
  revert cur. induction s as [|b s IH]; intros cur; simpl.
  - intros _. by rewrite append_nil_r.
  - destruct (String.prefix sep (String b s)); simpl; [done|].
    intros H. rewrite IH by done. by rewrite append_assoc.
Qed.

Lemma split_includes s sep : sep ≠ "" → includes s sep = true → 2 ≤ length (split s sep).
Proof. apply split_from_includes. Qed.

Lemma split_whole s sep : includes s sep = false → split s sep = [s].
Proof. intros H. unfold split. by rewrite split_from_whole. Qed.
End Strings.

(** ** Delimiters in the raw and in the trimmed expression *)

Section Trimming.
Implicit Types (s l r m sep : string).
#[local] Arguments String.append !_ _ / : simpl nomatch.
#[local] Arguments String.prefix : simpl never.

Lemma trimStart_blank s : trimStart s = "" ↔ blank s = true.
Proof.
  induction s as [|a s IH]; simpl; [done|].
  destruct (isSpace a); simpl; [done|]. split; discriminate.
Qed.

Lemma trimEnd_blank s : trimEnd s = "" ↔ blank s = true.
Proof.
  induction s as [|a s IH]; simpl; [done|].
  destruct (trimEnd s) as [|b t] eqn:Ht.
  - destruct (isSpace a); simpl; [by rewrite <- IH|]. split; discriminate.
  - split; [discriminate|]. intros H. apply andb_true_iff in H as [_ H].
    apply IH in H. discriminate.
Qed.

Lemma blank_app l r : blank (l +:+ r) = blank l && blank r.
Proof.
  induction l as [|a l IH]; simpl; [done|]. rewrite IH. by rewrite andb_assoc.
Qed.

Lemma trimStart_app l m : blank l = false → trimStart (l +:+ m) = trimStart l +:+ m.
Proof.
  induction l as [|a l IH]; simpl; [done|]. destruct (isSpace a); simpl; [apply IH|done].
Qed.

Lemma trimEnd_app m r : blank r = false → trimEnd (m +:+ r) = m +:+ trimEnd r.
Proof.
  intros Hr. induction m as [|a m IH]; simpl; [done|]. rewrite IH.
  destruct (m +:+ trimEnd r) as [|b t] eqn:Hm; [|done].
  exfalso. destruct m; simpl in Hm; [|done].
  apply trimEnd_blank in Hm. congruence.
Qed.

Lemma blank_trimStart s : blank (trimStart s) = blank s.
Proof.
  induction s as [|a s IH]; simpl; [done|]. destruct (isSpace a) eqn:Ha; simpl; [done|].
  by rewrite Ha.
Qed.

(** What [trimStart] and [trimEnd] strip is white space. *)
Lemma trimStart_split s : ∃ ws, blank ws = true ∧ s = ws +:+ trimStart s.
Proof.
  induction s as [|a s (ws & Hws & Hs)]; simpl; [by exists ""|].
  destruct (isSpace a) eqn:Ha.
  - exists (String a ws). simpl. rewrite Ha, Hws. split; [done|]. by rewrite <- Hs.
  - by exists "".
Qed.

Lemma trimEnd_split s : ∃ ws, blank ws = true ∧ s = trimEnd s +:+ ws.
Proof.
  induction s as [|a s (ws & Hws & Hs)]; simpl; [by exists ""|].
  destruct (trimEnd s) as [|b t] eqn:Ht.
  - destruct (isSpace a) eqn:Ha.
    + exists (String a ws). simpl in *. rewrite Ha, Hws. split; [done|]. by rewrite <- Hs.
    + exists ws. split; [done|]. simpl in *. by rewrite <- Hs.
  - exists ws. split; [done|]. simpl in *. by rewrite <- Hs.
Qed.

(** A trimmed string neither starts nor ends with white space. *)
Lemma trimStart_head s a t : trimStart s = String a t → isSpace a = false.
Proof.
  induction s as [|b s IH]; simpl; [done|].
  destruct (isSpace b) eqn:Hb; [done|]. by intros [= <- _].
Qed.

Lemma trimEnd_head s a t : trimEnd s = String a t → ∃ t', s = String a t'.
Proof.
  destruct s as [|b s]; simpl; [done|].
  destruct (trimEnd s); [destruct (isSpace b)|]; intros [= <- _]; eauto.
Qed.

Lemma trimEnd_last l r : trimEnd (l +:+ r) = l +:+ r → r ≠ "" → blank r = false.
Proof.
  intros H Hr. induction l as [|a l IH]; simpl in H.
  - destruct (blank r) eqn:Hb; [|done]. apply trimEnd_blank in Hb. congruence.
  - destruct (trimEnd (l +:+ r)) as [|b t] eqn:Ht.
    + destruct l; simpl in *; [|by destruct (isSpace a)].
      destruct r; [done|]. by destruct (isSpace a).
    + apply IH. by injection H.
Qed.

Lemma trimEnd_idem s : trimEnd (trimEnd s) = trimEnd s.
Proof.
  induction s as [|a s IH]; simpl; [done|].
  destruct (trimEnd s) as [|b t] eqn:Ht.
  - destruct (isSpace a) eqn:Ha; simpl; [done|]. by rewrite Ha.
  - simpl in *. by rewrite IH.
Qed.

Lemma includes_prefix s sep : String.prefix sep s = true → includes s sep = true.
Proof. intros H. destruct s; simpl; by rewrite H. Qed.

Lemma includes_app l sep r : includes (l +:+ sep +:+ r) sep = true.
Proof.
  induction l as [|a l IH]; simpl.
  - apply includes_prefix, prefix_append. eauto.
  - rewrite IH. apply orb_true_r.
Qed.

Lemma includes_split s sep : includes s sep = true → ∃ l r, s = l +:+ sep +:+ r.
Proof.
  induction s as [|a s IH]; simpl.
  - rewrite orb_false_r. intros H. apply prefix_append in H as [r Hr]. by exists "", r.
  - intros H. apply orb_true_iff in H as [H|H].
    + apply prefix_append in H as [r Hr]. by exists "", r.
    + destruct (IH H) as (l & r & ->). by exists (String a l), r.
Qed.

(** For a delimiter that begins and ends with a space, the trimmed
    expression contains it exactly when the raw expression contains it
    between two stretches that are not all white space. *)
Lemma includes_trim expr (mid : string) :
  let sep := " " +:+ mid +:+ " " in
  includes (trim expr) sep = true ↔ separates expr sep.
Proof.
  intros sep. split.
  - intros H. apply includes_split in H as (l & r & Htrim).
    destruct (trimStart_split expr) as (ws1 & Hws1 & Hexpr).
    destruct (trimEnd_split (trimStart expr)) as (ws2 & Hws2 & Hstart).
    fold (trim expr) in Hstart. rewrite Htrim in Hstart.
    assert (blank l = false) as Hl.
    { destruct l as [|a l]; simpl in *.
      - unfold trim in Htrim. apply trimEnd_head in Htrim as [t' Ht'].
        by apply trimStart_head in Ht'.
      - unfold trim in Htrim. apply trimEnd_head in Htrim as [t' Ht'].
        apply trimStart_head in Ht'. by rewrite Ht'. }
    assert (blank r = false) as Hr.
    { assert (l +:+ sep +:+ r = (l +:+ " " +:+ mid) +:+ (" " +:+ r)) as Heq
        by (unfold sep; by rewrite !append_assoc).
      assert (trimEnd (trim expr) = trim expr) as Hfix by apply trimEnd_idem.
      rewrite Htrim, Heq in Hfix. apply trimEnd_last in Hfix; [|done].
      destruct (blank r) eqn:Hb; [|done].
      simpl in Hfix. rewrite Hb in Hfix. by vm_compute in Hfix. }
    exists (ws1 +:+ l), (r +:+ ws2). split; [|split].
    + rewrite Hexpr at 1. rewrite Hstart. by rewrite !append_assoc.
    + rewrite blank_app, Hl. apply andb_false_r.
    + by rewrite blank_app, Hr.
  - intros (l & r & -> & Hl & Hr). unfold trim.
    rewrite trimStart_app by done.
    replace (trimStart l +:+ sep +:+ r) with ((trimStart l +:+ sep) +:+ r)
      by (by rewrite append_assoc).
    rewrite trimEnd_app by done. rewrite append_assoc. apply includes_app.
Qed.
End Trimming.

(** ** The parser *)

Section Parser.
Variable db : CourseDatabase.
Implicit Types (fuel : nat) (c : cache) (token setId expr : string).

Lemma parseTokens_body_length rec parts c children c1 :
  parseTokens_body rec parts c = Some (children, c1) → length children = length parts.
Proof.
  revert c children c1. induction parts as [|p parts IH]; intros c children c1; simpl.
  - by intros [= <- <-].
  - destruct (parseToken_body rec p c) as [[t c2]|]; [|done].
    destruct (parseTokens_body rec parts c2) as [[ts c3]|] eqn:Hts; [|done].
    intros [= <- <-]. simpl. f_equal. by eapply IH.
Qed.

(** Tokens that are plain course codes become leaves and leave the cache
    alone. *)
Lemma parseTokens_body_codes rec parts c :
  Forall (fun p => isCoursesetRef p = false) parts →
  parseTokens_body rec parts c = Some ((fun p => Some (COURSE p)) <$> parts, c).
Proof.
  induction 1 as [|p parts Hp _ IH]; simpl; [done|].
  unfold parseToken_body. by rewrite Hp, IH.
Qed.

(** C6, as amended. [parseExpression] looks for the delimiters in the
    trimmed string, not in the expression as given: the trimmed string
    contains a delimiter exactly when the expression contains it with
    something other than white space somewhere before it and somewhere
    after it. When [" & "] occurs in the trimmed string, the
    result is an [AND] node over the tokens obtained by splitting at
    [" & "] (at least two, which joined by [" & "] give the trimmed string
    back), each trimmed and parsed as one token, left to right; only when
    [" & "] does not occur and [" / "] does, the result is the [OR] node over
    the tokens split at [" / "]; when neither occurs, the whole trimmed
    string is parsed as one token. *)
Theorem parseExpression_splits_on_one_delimiter fuel expr c :
  let trimmed := trim expr in
  (includes trimmed " & " = true →
     parseExpression db fuel expr c =
       (match parseTokens_body (parseCourseset db fuel) (trim <$> split trimmed " & ") c with
        | None => None
        | Some (children, c1) => Some (Some (AND children), c1)
        end) ∧
     join " & " (split trimmed " & ") = trimmed ∧
     2 ≤ length (split trimmed " & ")) ∧
  (includes trimmed " & " = false → includes trimmed " / " = true →
     parseExpression db fuel expr c =
       (match parseTokens_body (parseCourseset db fuel) (trim <$> split trimmed " / ") c with
        | None => None
        | Some (children, c1) => Some (Some (OR children), c1)
        end) ∧
     join " / " (split trimmed " / ") = trimmed ∧
     2 ≤ length (split trimmed " / ")) ∧
  (includes trimmed " & " = false → includes trimmed " / " = false →
     parseExpression db fuel expr c = parseToken db fuel trimmed c ∧
     split trimmed " & " = [trimmed] ∧ split trimmed " / " = [trimmed]) ∧
  (includes trimmed " & " = true ↔ separates expr " & ") ∧
  (includes trimmed " / " = true ↔ separates expr " / ").
Proof.
  intros trimmed. unfold parseExpression, parseExpression_body. fold trimmed.
  split; [|split; [|split; [|split; [apply (includes_trim expr "&")
                                    |apply (includes_trim expr "/")]]]].
  - intros Hand. rewrite Hand. split; [done|].
    split; [by apply join_split|by apply split_includes].
  - intros Hand Hor. rewrite Hand, Hor. split; [done|].
    split; [by apply join_split|by apply split_includes].
  - intros Hand Hor. rewrite Hand, Hor. split; [done|].
    split; by apply split_whole.
Qed.
End Parser.

Lemma parseExpression_splits_on_one_delimiter_witness :
  fst <$> parseExpression sampleCatalog 0 "  ECE302H1 & ECE316H1 & ECE417H1 " ∅
    = Some (Some (AND [Some (COURSE "ECE302H1"); Some (COURSE "ECE316H1");
                       Some (COURSE "ECE417H1")])) ∧
  fst <$> parseExpression sampleCatalog 0 "ECE216H1 / ECE355H1" ∅
    = Some (Some (OR [Some (COURSE "ECE216H1"); Some (COURSE "ECE355H1")])) ∧
  fst <$> parseExpression sampleCatalog 0 " APS105H1" ∅ = Some (Some (COURSE "APS105H1")).
Proof.
  split; [|split].
  - destruct (parseExpression_splits_on_one_delimiter sampleCatalog 0
                "  ECE302H1 & ECE316H1 & ECE417H1 " ∅) as ((-> & _ & _) & _);
      [reflexivity|reflexivity].
  - destruct (parseExpression_splits_on_one_delimiter sampleCatalog 0
                "ECE216H1 / ECE355H1" ∅) as (_ & (-> & _ & _) & _);
      [reflexivity|reflexivity|reflexivity].
  - destruct (parseExpression_splits_on_one_delimiter sampleCatalog 0
                " APS105H1" ∅) as (_ & _ & (-> & _ & _) & _);
      [reflexivity|reflexivity|reflexivity].
Defined.

(** The delimiter [" & "] occurs in the expression, followed by white space
    only: after trimming it is no delimiter any more, the expression is
    split at [" / "] and the result is an [OR] node. *)
Lemma parseExpression_edge_delimiter_counterexample :
  includes "ECE101H1 / ECE102H1 & " " & " = true ∧
  fst <$> parseExpression sampleCatalog 0 "ECE101H1 / ECE102H1 & " ∅
    = Some (Some (OR [Some (COURSE "ECE101H1"); Some (COURSE "ECE102H1 &")])) ∧
  ¬ (∀ expr, includes expr " & " = true →
       ∃ children c1,
         parseExpression sampleCatalog 0 expr ∅ = Some (Some (AND children), c1)).
Proof.
  assert (fst <$> parseExpression sampleCatalog 0 "ECE101H1 / ECE102H1 & " ∅
          = Some (Some (OR [Some (COURSE "ECE101H1"); Some (COURSE "ECE102H1 &")]))) as Hor
    by (vm_compute; reflexivity).
  split; [reflexivity|]. split; [exact Hor|].
  intros Hall. destruct (Hall "ECE101H1 / ECE102H1 & " eq_refl) as (children & c1 & Hand).
  rewrite Hand in Hor. discriminate.
Qed.

(** [trim] strips the no-break space as well. *)
Example trim_strips_no_break_space :
  trim (String (ascii_of_nat 160) " ECE101H1 / ECE102H1" +:+ String (ascii_of_nat 160) "")
    = "ECE101H1 / ECE102H1".
Proof. vm_compute. reflexivity. Qed.

(** ** Resolution and reference cycles *)

Section Cycles.
Variable db : CourseDatabase.
Implicit Types (fuel : nat) (c : cache) (setId ref : string).

Lemma loops_step setId : loops db setId → ∃ ref, references db setId ref ∧ loops db ref.
Proof.
  intros (y & Hxy & Hyy). destruct Hxy as [x|x w y Hxw Hwy].
  - inversion Hyy as [? ? Hxx|? w ? Hxw Hwx]; subst.
    + exists x. split; [done|]. by exists x.
    + exists w. split; [done|]. exists w. split; [done|].
      eapply tc_rtc_l; [by apply tc_rtc|]. by apply tc_once.
  - exists w. split; [done|]. by exists y.
Qed.

Lemma isCoursesetRef_nonempty ref : isCoursesetRef ref = true → ref ≠ "".
Proof. by intros H ->. Qed.

#[local] Abbreviation avoids := (avoids db).

Section Body.
Variable rec : string → cache → option (option tree * cache).
Hypothesis rec_diverges : ∀ setId c,
  setId ≠ "" → loops db setId → avoids c → rec setId c = None.
Hypothesis rec_avoids : ∀ setId c t c1,
  avoids c → rec setId c = Some (t, c1) → avoids c1.

Lemma parseToken_body_avoids token c t c1 :
  avoids c → parseToken_body rec token c = Some (t, c1) → avoids c1.
Proof.
  intros Hc. unfold parseToken_body. destruct (isCoursesetRef token).
  - by apply rec_avoids.
  - by intros [= <- <-].
Qed.

Lemma parseTokens_body_avoids parts c ts c1 :
  avoids c → parseTokens_body rec parts c = Some (ts, c1) → avoids c1.
Proof.
  revert c ts c1. induction parts as [|p parts IH]; intros c ts c1 Hc; simpl.
  - by intros [= <- <-].
  - destruct (parseToken_body rec p c) as [[t c2]|] eqn:Hp; [|done].
    destruct (parseTokens_body rec parts c2) as [[ts' c3]|] eqn:Hps; [|done].
    intros [= <- <-]. eapply IH; [|done]. by eapply parseToken_body_avoids.
Qed.

Lemma parseTokens_body_diverges parts c ref :
  ref ∈ parts → isCoursesetRef ref = true → loops db ref → avoids c →
  parseTokens_body rec parts c = None.
Proof.
  intros Hin Href Hloop. revert c.
  induction parts as [|p parts IH]; intros c Hc; [by apply elem_of_nil in Hin|].
  simpl. destruct (parseToken_body rec p c) as [[t c2]|] eqn:Hp; [|done].
  apply elem_of_cons in Hin as [<-|Hin].
  - unfold parseToken_body in Hp. rewrite Href in Hp.
    rewrite rec_diverges in Hp; [done| |done|done]. by apply isCoursesetRef_nonempty.
  - rewrite IH; [done|done|]. by eapply parseToken_body_avoids.
Qed.

Lemma parseExpression_body_tokens expr c :
  parseExpression_body rec expr c =
    match parseTokens_body rec (tokens expr) c with
    | None => None
    | Some (ts, c1) =>
        if includes (trim expr) " & " then Some (Some (AND ts), c1)
        else if includes (trim expr) " / " then Some (Some (OR ts), c1)
        else Some (default None (head ts), c1)
    end.
Proof.
  unfold parseExpression_body, tokens.
  destruct (includes (trim expr) " & "); [done|].
  destruct (includes (trim expr) " / "); [done|].
  simpl. by destruct (parseToken_body rec (trim expr) c) as [[t c1]|].
Qed.

Lemma parseExpression_body_avoids expr c t c1 :
  avoids c → parseExpression_body rec expr c = Some (t, c1) → avoids c1.
Proof.
  intros Hc. rewrite parseExpression_body_tokens.
  destruct (parseTokens_body rec (tokens expr) c) as [[ts c2]|] eqn:Hts; [|done].
  intros H. assert (c1 = c2) as ->.
  { destruct (includes (trim expr) " & "); [congruence|].
    destruct (includes (trim expr) " / "); congruence. }
  by eapply parseTokens_body_avoids.
Qed.

Lemma parseExpression_body_diverges expr c ref :
  ref ∈ tokens expr → isCoursesetRef ref = true → loops db ref → avoids c →
  parseExpression_body rec expr c = None.
Proof.
  intros Hin Href Hloop Hc. rewrite parseExpression_body_tokens.
  by rewrite (parseTokens_body_diverges _ _ ref).
Qed.
End Body.

(** Below a looping id the recursion never bottoms out, and ids that
    loop never enter the cache. *)
Lemma parseCourseset_loops fuel :
  (∀ setId c, setId ≠ "" → loops db setId → avoids c →
              parseCourseset db fuel setId c = None) ∧
  (∀ setId c t c1, avoids c → parseCourseset db fuel setId c = Some (t, c1) → avoids c1).
Proof.
  induction fuel as [|fuel [IHd IHa]]; [by split|].
  assert (∀ setId c, setId ≠ "" → loops db setId → avoids c →
            parseCourseset db (S fuel) setId c = None) as Hd.
  { intros setId c Hne Hloop Hc. simpl.
    apply String.eqb_neq in Hne. rewrite Hne. rewrite (Hc _ Hloop).
    destruct (loops_step _ Hloop) as (ref & (cs & Hcs & Hin & Href) & Hl).
    rewrite Hcs. by rewrite (parseExpression_body_diverges _ IHd IHa _ _ ref). }
  split; [done|].
  intros setId c t c1 Hc. simpl.
  destruct (String.eqb setId "") eqn:Hne; [by intros [= <- <-]|].
  destruct (c !! setId) as [t0|] eqn:Hhit; [by intros [= <- <-]|].
  destruct (coursesets db !! setId) as [cs|] eqn:Hcs; [|by intros [= <- <-]].
  destruct (parseExpression_body (parseCourseset db fuel) (courses cs) c)
    as [[t1 c2]|] eqn:Hexpr; [|done].
  intros [= <- <-] z Hz.
  destruct (decide (setId = z)) as [->|Hzne].
  - apply String.eqb_neq in Hne.
    pose proof (Hd z c Hne Hz Hc) as Hnone. simpl in Hnone.
    apply String.eqb_neq in Hne. by rewrite Hne, Hhit, Hcs, Hexpr in Hnone.
  - rewrite lookup_insert_ne by done.
    by apply (parseExpression_body_avoids _ IHa _ _ _ _ Hc Hexpr).
Qed.

Lemma self_reference_loops setId : tc (references db) setId setId → loops db setId.
Proof. intros H. by exists setId. Qed.

Lemma self_reference_nonempty setId : tc (references db) setId setId → setId ≠ "".
Proof.
  intros H. assert (∃ x, references db x setId) as (x & cs & _ & _ & Href).
  { clear -H. induction H as [x y Hxy|x w y Hxw _ IH]; [by exists x|done]. }
  by apply isCoursesetRef_nonempty.
Qed.

(** With a rank that decreases along references, resolution returns. *)
Lemma parseCourseset_ranked (rank : string → nat) :
  (∀ setId ref, references db setId ref → rank ref < rank setId) →
  ∀ fuel setId c, rank setId < fuel → is_Some (parseCourseset db fuel setId c).
Proof.
  intros Hrank. induction fuel as [|fuel IH]; intros setId c Hlt; [lia|].
  simpl. destruct (String.eqb setId ""); [done|].
  destruct (c !! setId); [done|].
  destruct (coursesets db !! setId) as [cs|] eqn:Hcs; [|done].
  assert (∀ parts c0, (∀ p, p ∈ parts → p ∈ tokens (courses cs)) →
            is_Some (parseTokens_body (parseCourseset db fuel) parts c0)) as Htokens.
  { induction parts as [|p parts IHp]; intros c0 Hsub; simpl; [done|].
    assert (is_Some (parseToken_body (parseCourseset db fuel) p c0)) as [[t c2] ->].
    { unfold parseToken_body. destruct (isCoursesetRef p) eqn:Hp; [|done].
      apply IH. assert (rank p < rank setId); [|lia].
      apply Hrank. exists cs. split; [done|]. split; [|done]. apply Hsub. left. }
    destruct (IHp c2) as [[ts c3] ->]; [|done]. intros q Hq. apply Hsub. by right. }
  rewrite parseExpression_body_tokens.
  destruct (Htokens (tokens (courses cs)) c) as [[ts c1] ->]; [done|].
  destruct (includes (trim (courses cs)) " & "); [done|].
  by destruct (includes (trim (courses cs)) " / ").
Qed.
End Cycles.

Section CycleClaim.
Variable db : CourseDatabase.

(** C3, as amended. The parser has no cycle guard: for every courseset id
    whose raw expression transitively references itself, resolving it from
    a cache that holds no id leading to a cycle (the empty cache of a new
    validator, or one filled by earlier resolutions) exceeds every bound on
    the call stack; no reference is treated as absent and no error value
    is produced. Resolution returns whenever some rank decreases along the
    references, that is, when the coursesets are acyclic. *)
Theorem parseCourseset_recurses_on_cycles :
  (∀ setId c fuel,
      tc (references db) setId setId → avoids db c →
      parseCourseset db fuel setId c = None) ∧
  (∀ rank : string → nat,
      (∀ setId ref, references db setId ref → rank ref < rank setId) →
      ∀ setId c, is_Some (parseCourseset db (S (rank setId)) setId c)).
Proof.
  split.
  - intros setId c fuel Hcycle Hc.
    apply (proj1 (parseCourseset_loops db fuel)); [|by apply self_reference_loops|done].
    by apply (self_reference_nonempty db).
  - intros rank Hrank setId c. apply (parseCourseset_ranked db rank Hrank). lia.
Qed.
End CycleClaim.

Lemma cyclicCatalog_cycle :
  tc (references cyclicCatalog) "ECE100H1_p1" "ECE100H1_p1".
Proof.
  apply (tc_l _ _ "ECE200H1_p1"); [|apply tc_once].
  - exists (entry "ECE200H1_p1"). split; [vm_compute; reflexivity|].
    split; [|reflexivity]. vm_compute. left.
  - exists (entry "ECE100H1_p1"). split; [vm_compute; reflexivity|].
    split; [|reflexivity]. vm_compute. left.
Defined.

Lemma avoids_empty db : avoids db ∅.
Proof. intros z _. apply lookup_empty. Defined.

(** C3, as stated, fails: on the two coursesets that reference each other no
    stack bound lets the resolution of [ECE100H1_p1] return. *)
Lemma parseCourseset_cycle_counterexample :
  ¬ (∃ fuel r, parseCourseset cyclicCatalog fuel "ECE100H1_p1" ∅ = Some r).
Proof.
  intros (fuel & r & Hr).
  rewrite (proj1 (parseCourseset_loops cyclicCatalog fuel) "ECE100H1_p1" ∅) in Hr.
  - discriminate.
  - discriminate.
  - apply (self_reference_loops cyclicCatalog), cyclicCatalog_cycle.
  - apply avoids_empty.
Qed.

Lemma sampleRank_decreases setId ref :
  references sampleCatalog setId ref → sampleRank ref < sampleRank setId.
Proof.
  intros (cs & Hcs & Hin & Href).
  apply elem_of_list_to_map_2 in Hcs.
  repeat (apply elem_of_cons in Hcs as [Hcs|Hcs];
          [injection Hcs as -> ->; vm_compute in Hin;
           repeat (apply elem_of_cons in Hin as [->|Hin];
                   [first [discriminate Href | vm_compute; lia]|]);
           by apply elem_of_nil in Hin|]).
  by apply elem_of_nil in Hcs.
Defined.

Lemma parseCourseset_recurses_on_cycles_witness :
  parseCourseset cyclicCatalog 100 "ECE100H1_p1" ∅ = None ∧
  is_Some (parseCourseset sampleCatalog 2 "ECE435H1_p6" ∅).
Proof.
  split.
  - apply (proj1 (parseCourseset_recurses_on_cycles cyclicCatalog)).
    + apply cyclicCatalog_cycle.
    + apply avoids_empty.
  - apply (proj2 (parseCourseset_recurses_on_cycles sampleCatalog) sampleRank
             sampleRank_decreases "ECE435H1_p6" ∅).
Defined.

(** ** Unknown courseset ids *)

Section UnknownIds.
Variable db : CourseDatabase.
Implicit Types (fuel : nat) (c : cache) (setId : string) (errors : list PlacementError).

Lemma parseCourseset_empty fuel c : parseCourseset db (S fuel) "" c = Some (None, c).
Proof. reflexivity. Qed.

Lemma parseCourseset_unknown fuel setId c :
  c !! setId = None → coursesets db !! setId = None →
  parseCourseset db (S fuel) setId c = Some (None, c).
Proof. intros Hc Hdb. simpl. rewrite Hc, Hdb. by destruct (String.eqb setId ""). Qed.

Lemma validate_absent (completed : gset string) :
  validate completed None = Normal {| satisfied := true; missing := [] |}.
Proof. reflexivity. Qed.

(** A prerequisite rule naming an unknown courseset passes. *)
Lemma validatePlacement_prerequisites_unknown fuel course setId semesterId gridManager
    semesterOrder completed errors c :
  requirement (prerequisites course) = Some setId →
  c !! setId = None → coursesets db !! setId = None →
  getCoursesBeforeSemester gridManager semesterId semesterOrder = Normal completed →
  validatePlacement_prerequisites db (S fuel) course semesterId gridManager semesterOrder
    errors c = Some (Normal errors, c).
Proof.
  intros Hreq Hc Hdb Hset. unfold validatePlacement_prerequisites, bind, lift, parsing, ret.
  by rewrite Hreq, Hset, (parseCourseset_unknown _ _ _ Hc Hdb).
Qed.

(** A corequisite rule naming an unknown courseset passes. *)
Lemma validatePlacement_corequisites_unknown fuel course setId semesterId gridManager
    semesterOrder completed errors c :
  requirement (corequisites course) = Some setId →
  c !! setId = None → coursesets db !! setId = None →
  getCoursesUpToSemester gridManager semesterId semesterOrder = Normal completed →
  validatePlacement_corequisites db (S fuel) course semesterId gridManager semesterOrder
    errors c = Some (Normal errors, c).
Proof.
  intros Hreq Hc Hdb Hset. unfold validatePlacement_corequisites, bind, lift, parsing, ret.
  by rewrite Hreq, Hset, (parseCourseset_unknown _ _ _ Hc Hdb).
Qed.

(** An exclusion rule naming an unknown courseset always throws: the absent
    tree counts as satisfied, which this rule reads as a conflict, and the
    conflicting codes are then collected from [null]. *)
Lemma validatePlacement_exclusions_unknown fuel course setId courseCode gridManager errors c :
  requirement (exclusions course) = Some setId →
  c !! setId = None → coursesets db !! setId = None →
  validatePlacement_exclusions db (S fuel) course courseCode gridManager errors c =
    Some (TypeError, c).
Proof.
  intros Hreq Hc Hdb. unfold validatePlacement_exclusions, bind, lift, parsing, ret.
  by rewrite Hreq, (parseCourseset_unknown _ _ _ Hc Hdb).
Qed.
End UnknownIds.

(** ** The keys of a bulk validation *)

Section BulkKeys.
Variable db : CourseDatabase.
Implicit Types (results : list (cell * PlacementResult)) (k key : cell) (c : cache).

Lemma map_set_keys results key value k :
  k ∈ (map_set results key value).*1 ↔ k = key ∨ k ∈ results.*1.
Proof.
  induction results as [|[k0 v0] results IH]; simpl.
  - rewrite list_elem_of_singleton. split; [by left|]. intros [?|H]; [done|].
    by apply elem_of_nil in H.
  - case_decide as Hk; simpl.
    + subst. rewrite !elem_of_cons. tauto.
    + rewrite !elem_of_cons, IH. tauto.
Qed.

Lemma validateAll_slots_keys fuel gridManager semesterOrder semId slots results c rs c1 :
  validateAll_slots db fuel gridManager semesterOrder semId slots results c
    = Some (Normal rs, c1) →
  ∀ k, k ∈ rs.*1 ↔ k ∈ slots ∨ k ∈ results.*1.
Proof.
  revert results c. induction slots as [|code slots IH]; intros results c; simpl.
  - unfold ret. intros [= <- <-] k. split; [by right|]. intros [H|?]; [|done].
    by apply elem_of_nil in H.
  - unfold bind at 1.
    destruct (validatePlacement db fuel code semId gridManager semesterOrder c)
      as [[[r|] c2]|]; [|done|done].
    intros H k. rewrite (IH _ _ H), map_set_keys, elem_of_cons. tauto.
Qed.

Lemma validateAll_semesters_keys fuel gridManager semesterOrder semesters results c rs c1 :
  validateAll_semesters db fuel gridManager semesterOrder semesters results c
    = Some (Normal rs, c1) →
  ∀ k, k ∈ rs.*1 ↔
       (∃ sem slots, sem ∈ semesters ∧ gridManager !! sem = Some slots ∧ k ∈ slots) ∨
       k ∈ results.*1.
Proof.
  revert results c. induction semesters as [|sem semesters IH]; intros results c; simpl.
  - unfold ret. intros [= <- <-] k. split; [by right|].
    intros [(? & ? & H & _)|?]; [|done]. by apply elem_of_nil in H.
  - destruct (gridManager !! sem) as [slots|] eqn:Hsem; [|done].
    unfold bind at 1.
    destruct (validateAll_slots db fuel gridManager semesterOrder sem slots results c)
      as [[[rs1|] c2]|] eqn:Hslots; [|done|done].
    intros H k. rewrite (IH _ _ H), (validateAll_slots_keys _ _ _ _ _ _ _ _ _ Hslots).
    split.
    + intros [(s & l & Hin & Hl & Hk)|[Hk|Hk]].
      * left. exists s, l. split; [by right|done].
      * left. exists sem, slots. split; [left|done].
      * by right.
    + intros [(s & l & Hin & Hl & Hk)|Hk]; [|by right; right].
      apply elem_of_cons in Hin as [->|Hin].
      * right. left. congruence.
      * left. by exists s, l.
Qed.

(** Whenever [validateAll] returns, the keys of its result are the contents
    of all slots of the semesters of the order: the course codes, and also
    [null] as soon as one of these semesters has an empty slot. *)
Lemma validateAll_keys fuel gridManager semesterOrder c rs c1 :
  validateAll db fuel gridManager semesterOrder c = Some (Normal rs, c1) →
  ∀ k, k ∈ rs.*1 ↔
       ∃ sem slots, sem ∈ semesterOrder ∧ gridManager !! sem = Some slots ∧ k ∈ slots.
Proof.
  intros H k. rewrite (validateAll_semesters_keys _ _ _ _ _ _ _ _ H). split.
  - intros [?|Hk]; [done|]. by apply elem_of_nil in Hk.
  - by left.
Qed.
End BulkKeys.

(** ** The exclusion rule on resolved trees *)

Section Exclusions.
Variable db : CourseDatabase.
Implicit Types (state : grid) (c : cache) (t : tree) (code : string).

Lemma array_set_lookup_other (arr : list cell) i j v x :
  j ≠ i → arr !! j = Some x → array_set arr i v !! j = Some x.
Proof.
  intros Hne Hj. unfold array_set. case_decide.
  - by rewrite list_lookup_insert_ne.
  - rewrite lookup_app_l; [done|]. by eapply lookup_lt_Some.
Qed.

Lemma holds_write_other state s slots i v s' j code :
  state !! s = Some slots → (s', j) ≠ (s, i) → holds state s' j code →
  holds (<[s := array_set slots i v]> state) s' j code.
Proof.
  intros Hs Hne (l & Hl & Hj). destruct (decide (s' = s)) as [->|Hs'].
  - exists (array_set slots i v). rewrite lookup_insert_eq. split; [done|].
    assert (l = slots) as -> by congruence.
    apply array_set_lookup_other; [congruence|done].
  - exists l. by rewrite lookup_insert_ne.
Qed.

Lemma foldl_addPlaced_elem (arrays : list (list cell)) (completed : gset string) code :
  code ∈ foldl addPlaced completed arrays ↔
  code ∈ completed ∨ (code ≠ "" ∧ ∃ slots, slots ∈ arrays ∧ Code code ∈ slots).
Proof.
  revert completed. induction arrays as [|slots arrays IH]; intros completed; simpl.
  - split; [by left|]. intros [?|(_ & ? & H & _)]; [done|]. by apply elem_of_nil in H.
  - rewrite IH, addPlaced_elem. split.
    + intros [[?|[? ?]]|(? & l & ? & ?)].
      * by left.
      * right. split; [done|]. exists slots. split; [left|done].
      * right. split; [done|]. exists l. split; [by right|done].
    + intros [?|(? & l & Hin & ?)]; [by left; left|].
      apply elem_of_cons in Hin as [->|Hin].
      * left. by right.
      * right. split; [done|]. by exists l.
Qed.

(** The codes [getAllPlacedCourses] returns: the non-empty codes in slots *)
Lemma getAllPlacedCourses_elem state code :
  code ∈ getAllPlacedCourses state ↔ code ≠ "" ∧ ∃ s i, holds state s i code.
Proof.
  unfold getAllPlacedCourses. rewrite foldl_addPlaced_elem. split.
  - intros [H|(? & slots & Hin & Hc)]; [by apply not_elem_of_empty in H|].
    split; [done|]. apply list_elem_of_fmap in Hin as ([s l] & -> & Hin).
    apply elem_of_map_to_list in Hin. apply list_elem_of_lookup_1 in Hc as [i Hi].
    exists s, i. by exists l.
  - intros (? & s & i & slots & Hs & Hi). right. split; [done|]. exists slots. split.
    + apply list_elem_of_fmap. exists (s, slots). split; [done|].
      by apply elem_of_map_to_list.
    + by eapply list_elem_of_lookup_2.
Qed.

(** Removing a course from its slot removes its code from the placed set,
    in a grid that places it once. *)
Lemma getAllPlacedCourses_removeCourse state s i code :
  unique state → holds state s i code →
  getAllPlacedCourses (removeCourse state s i).1 = getAllPlacedCourses state ∖ {[code]}.
Proof.
  intros Hu Hh. pose proof Hh as (slots & Hs & Hi).
  unfold removeCourse. rewrite Hs. simpl. apply set_eq. intros x.
  rewrite elem_of_difference, !getAllPlacedCourses_elem, elem_of_singleton. split.
  - intros (Hx & s' & j & Hh').
    apply (holds_write_inv _ _ _ _ _ _ _ _ Hs) in Hh' as [(_ & _ & ?)|[Hne Hh']]; [done|].
    split; [split; [done|by exists s', j]|].
    intros ->. destruct (Hu _ _ _ _ _ Hh' Hh) as [-> ->]. done.
  - intros [(Hx & s' & j & Hh') Hne]. split; [done|]. exists s', j.
    apply holds_write_other; [done| |done].
    intros [= -> ->]. destruct Hh' as (l & Hl & Hj). congruence.
Qed.

(** On an exclusion tree without [null], the rule reports an error exactly
    when the tree is satisfied by the placed codes other than the course's
    own, and the error lists the leaf codes of the tree that are placed. *)
Lemma validatePlacement_exclusions_present fuel course setId courseCode state errors c t c1 :
  requirement (exclusions course) = Some setId →
  parseCourseset db fuel setId c = Some (Some t, c1) →
  present t = true →
  let allPlaced := set_delete (getAllPlacedCourses state) courseCode in
  ∃ r, validate allPlaced (Some t) = Normal r ∧
    validatePlacement_exclusions db fuel course courseCode state errors c =
      Some (Normal (if satisfied r
                    then errors ++ [exclusion (filter (fun code => code ∈ allPlaced) (leaves t))]
                    else errors), c1).
Proof.
  intros Hreq Hparse Hp allPlaced.
  destruct (validate_present_total allPlaced t Hp) as [r Hr].
  exists r. split; [done|].
  unfold validatePlacement_exclusions, bind, lift, parsing, ret.
  rewrite Hreq, Hparse. fold allPlaced. simpl. rewrite Hr.
  destruct (satisfied r); [|done]. by rewrite (collectLeafCodes_present _ Hp).
Qed.

(** Once none of the leaf codes of the exclusion tree is placed, the tree is
    unsatisfied and the rule reports nothing. *)
Lemma validatePlacement_exclusions_cleared fuel course setId courseCode state errors c t c1 :
  requirement (exclusions course) = Some setId →
  parseCourseset db fuel setId c = Some (Some t, c1) →
  present t = true → branching t = true →
  Forall (fun code => code ∉ set_delete (getAllPlacedCourses state) courseCode) (leaves t) →
  validatePlacement_exclusions db fuel course courseCode state errors c =
    Some (Normal errors, c1).
Proof.
  intros Hreq Hparse Hp Hb Hl.
  destruct (validatePlacement_exclusions_present fuel course setId courseCode state errors
              c t c1 Hreq Hparse Hp) as (r & Hr & ->).
  destruct (validate_disjoint_unsatisfied _ t Hp Hb Hl) as (r' & Hr' & Hs).
  simpl in Hr. rewrite Hr in Hr'. injection Hr' as <-. by rewrite Hs.
Qed.

(** The parser gives every [AND] and [OR] node at least two children. *)
Lemma parseTokens_body_branching rec parts c ts c1 :
  (∀ setId c0 ot c2, cache_branching c0 → rec setId c0 = Some (ot, c2) →
     from_option (fun t => branching t = true) True ot ∧ cache_branching c2) →
  cache_branching c → parseTokens_body rec parts c = Some (ts, c1) →
  Forall (from_option (fun t => branching t = true) True) ts ∧ cache_branching c1.
Proof.
  intros Hrec. revert c ts c1. induction parts as [|p parts IH]; intros c ts c1 Hc; simpl.
  - intros [= <- <-]. split; [constructor|done].
  - destruct (parseToken_body rec p c) as [[o c2]|] eqn:Hp; [|done].
    destruct (parseTokens_body rec parts c2) as [[ts' c3]|] eqn:Hps; [|done].
    intros [= <- <-].
    assert (from_option (fun t => branching t = true) True o ∧ cache_branching c2) as [Ht Hc2].
    { unfold parseToken_body in Hp. destruct (isCoursesetRef p).
      - by eapply Hrec.
      - injection Hp as <- <-. done. }
    destruct (IH _ _ _ Hc2 Hps) as [Hts Hc3]. split; [by constructor|done].
Qed.

Lemma branching_node (children : list (option tree)) :
  2 ≤ length children →
  Forall (from_option (fun t => branching t = true) True) children →
  branching (AND children) = true ∧ branching (OR children) = true.
Proof.
  intros Hlen Hall.
  assert (forallb (fun child => match child with
                                | Some t' => branching t'
                                | None => true
                                end) children = true) as Hf.
  { clear Hlen. induction Hall as [|[t|] cs Ht _ IH]; simpl in *; [done| |done].
    by rewrite Ht. }
  simpl. rewrite Hf. destruct children; [simpl in Hlen; lia|done].
Qed.

Lemma parseCourseset_branching fuel setId c ot c1 :
  cache_branching c → parseCourseset db fuel setId c = Some (ot, c1) →
  from_option (fun t => branching t = true) True ot ∧ cache_branching c1.
Proof.
  revert setId c ot c1. induction fuel as [|fuel IH]; intros setId c ot c1 Hc; [done|].
  simpl. destruct (String.eqb setId ""); [by intros [= <- <-]|].
  destruct (c !! setId) as [t0|] eqn:Hhit.
  { intros [= <- <-]. split; [|done]. destruct t0 as [t0|]; [|done]. by eapply Hc. }
  destruct (coursesets db !! setId) as [cs|]; [|by intros [= <- <-]].
  unfold parseExpression_body.
  assert (∀ sep, sep ≠ "" → includes (trim (courses cs)) sep = true →
            ∀ ts c2, parseTokens_body (parseCourseset db fuel)
                       (trim <$> split (trim (courses cs)) sep) c = Some (ts, c2) →
            (branching (AND ts) = true ∧ branching (OR ts) = true) ∧ cache_branching c2)
    as Hnode.
  { intros sep Hsep Hinc ts c2 Hts.
    destruct (parseTokens_body_branching _ _ _ _ _ IH Hc Hts) as [Hall Hc2].
    split; [|done]. apply branching_node; [|done].
    rewrite (parseTokens_body_length _ _ _ _ _ Hts), length_fmap.
    by apply split_includes. }
  assert (∀ (o : option tree) c2,
            from_option (fun t => branching t = true) True o → cache_branching c2 →
            cache_branching (<[setId := o]> c2)) as Hins.
  { intros o c2 Ht Hc2 z tz Hz. destruct (decide (setId = z)) as [->|Hne].
    - rewrite lookup_insert_eq in Hz. injection Hz as ->. done.
    - rewrite lookup_insert_ne in Hz by done. by eapply Hc2. }
  destruct (includes (trim (courses cs)) " & ") eqn:Hand.
  { destruct (parseTokens_body _ _ c) as [[ts c2]|] eqn:Hts; [|done].
    intros [= <- <-]. destruct (Hnode " & " ltac:(done) Hand _ _ Hts) as [[? ?] ?].
    split; [done|]. by apply Hins. }
  destruct (includes (trim (courses cs)) " / ") eqn:Hor.
  { destruct (parseTokens_body _ _ c) as [[ts c2]|] eqn:Hts; [|done].
    intros [= <- <-]. destruct (Hnode " / " ltac:(done) Hor _ _ Hts) as [[? ?] ?].
    split; [done|]. by apply Hins. }
  destruct (parseToken_body (parseCourseset db fuel) (trim (courses cs)) c)
    as [[o c2]|] eqn:Htok; [|done].
  intros [= <- <-].
  assert (from_option (fun t => branching t = true) True o ∧ cache_branching c2) as [Ht Hc2].
  { unfold parseToken_body in Htok. destruct (isCoursesetRef (trim (courses cs))).
    - by eapply IH.
    - injection Htok as <- <-. done. }
  split; [done|]. by apply Hins.
Qed.
End Exclusions.

(** ** The documented scenarios, run on the model *)

Section Scenarios.
#[local] Abbreviation order := twoSemesters.

(** Scenario 1: five [OR] misses of two options each, in declared order *)
Example scenario_nested_AND_of_OR :
  (t ← fst <$> parseCourseset sampleCatalog 2 "ECE435H1_p6" ∅; Some (validate ∅ t)) =
  Some (Normal {| satisfied := false;
                  missing := [MissingOR ["ECE216H1"; "ECE355H1"];
                              MissingOR ["ECE302H1"; "MIE286H1"];
                              MissingOR ["ECE335H1"; "ECE350H1"];
                              MissingOR ["ECE231H1"; "ECE360H1"];
                              MissingOR ["ECE320H1"; "ECE357H1"]] |}).
Proof. vm_compute. reflexivity. Qed.

(** Scenario 2: the second alternative satisfies the [OR] *)
Example scenario_OR_of_AND :
  (t ← fst <$> parseCourseset sampleCatalog 2 "ECE464H1_p3" ∅;
   Some (validate ({["ECE417H1"]} ∪ {["MIE286H1"]}) t)) =
  Some (Normal {| satisfied := true; missing := [] |}).
Proof. vm_compute. reflexivity. Qed.

(** A prerequisite placed in the same semester is reported missing, a
    corequisite placed in the same semester is not. *)
Example scenario_same_semester :
  fst <$> validatePlacement testCatalog 1 (Code "APS112H1") "fall-1" plan2 order ∅ =
    Some (Normal {| valid := false;
                    errors := [prerequisite [MissingCOURSE "APS111H1"]] |}) ∧
  fst <$> validatePlacement testCatalog 1 (Code "ECE212H1") "fall-1" plan2 order ∅ =
    Some (Normal {| valid := true; errors := [] |}).
Proof. split; vm_compute; reflexivity. Qed.

(** The prerequisite is satisfied from an earlier semester. *)
Example scenario_earlier_semester :
  let moved := (moveCourse plan2 "fall-1" 1 "winter-1" 4).1 in
  fst <$> validatePlacement testCatalog 1 (Code "APS112H1") "winter-1" moved order ∅ =
    Some (Normal {| valid := true; errors := [] |}).
Proof. vm_compute. reflexivity. Qed.

(** Test case 3: an exclusion error lists the excluded course that is
    placed; removing that course clears it. *)
Example scenario_exclusion :
  fst <$> validatePlacement testCatalog 1 (Code "ECE430H1") "fall-1" plan2 order ∅ =
    Some (Normal {| valid := false; errors := [exclusion ["ECE530H1"]] |}) ∧
  fst <$> validatePlacement testCatalog 1 (Code "ECE430H1") "fall-1"
            (removeCourse plan2 "winter-1" 0).1 order ∅ =
    Some (Normal {| valid := true; errors := [] |}).
Proof. split; vm_compute; reflexivity. Qed.

(** The tree of a courseset is cached under its id. *)
Example scenario_cache :
  (snd <$> parseCourseset sampleCatalog 2 "ECE464H1_p3" ∅) ≫= (.!! "ECE464H1_p2") =
  Some (Some (AND [Some (COURSE "ECE417H1"); Some (COURSE "MIE286H1")])).
Proof. vm_compute. reflexivity. Qed.
End Scenarios.

(** ** The tree cache *)

(** Resolving an id a second time, from the cache the first resolution
    left, returns the same tree and leaves the cache as it is. *)
Lemma parseCourseset_again db fuel fuel' setId (c c1 : cache) (t : option tree) :
  parseCourseset db fuel setId c = Some (t, c1) →
  parseCourseset db (S fuel') setId c1 = Some (t, c1).
Proof.
  destruct fuel as [|fuel]; [done|]. simpl.
  destruct (String.eqb setId "") eqn:Hid; [by intros [= <- <-]|].
  destruct (c !! setId) as [t0|] eqn:Hhit.
  { intros [= <- <-]. by rewrite Hhit. }
  destruct (coursesets db !! setId) as [cs|] eqn:Hcs.
  - destruct (parseExpression_body (parseCourseset db fuel) (courses cs) c)
      as [[t1 c2]|]; [|done].
    intros [= <- <-]. by rewrite lookup_insert_eq.
  - intros [= <- <-]. by rewrite Hhit.
Qed.

(** * Further properties of the grid *)

Section GridExtras.
Implicit Types (state : grid) (s : string) (i j : nat) (code : string) (v : cell).

Lemma findCourse_entries_first entries code s i :
  findCourse_entries entries code = Some (s, i) →
  ∃ slots, (s, slots) ∈ entries ∧ indexOf (Code code) slots = Some i.
Proof.
  induction entries as [|[s0 l0] rest IH]; simpl; [done|].
  destruct (indexOf (Code code) l0) as [k|] eqn:Hk.
  - intros [= <- <-]. exists l0. split; [left|done].
  - intros H. destruct (IH H) as (slots & Hin & Hi). exists slots. split; [by right|done].
Qed.

(** X1. [findCourse] returns [null] exactly when the code is in no slot;
    a location it returns holds the code and is the first slot of that
    semester to do so; in a grid that places each code once it returns the
    slot of the code. *)
Theorem findCourse_locates state code :
  (findCourse state code = None ↔ ∀ s i, ¬ holds state s i code) ∧
  (∀ s i, findCourse state code = Some (s, i) →
     holds state s i code ∧ ∀ j, j < i → ¬ holds state s j code) ∧
  (unique state → ∀ s i, holds state s i code → findCourse state code = Some (s, i)).
Proof.
  split; [apply findCourse_None|split].
  - intros s i Hf. split; [apply (findCourse_Some _ _ _ Hf)|].
    apply findCourse_entries_first in Hf as (slots & Hin & Hi).
    apply elem_of_map_to_list in Hin. apply indexOf_Some in Hi as [_ Hfirst].
    intros j Hj (l & Hl & Hlj). assert (l = slots) as -> by congruence.
    by apply (Hfirst j).
  - intros Hu s i Hh. destruct (findCourse state code) as [[s' i']|] eqn:Hf.
    + pose proof (findCourse_Some _ _ _ Hf) as Hh'. simpl in Hh'.
      by destruct (Hu _ _ _ _ _ Hh' Hh) as [-> ->].
    + exfalso. by eapply findCourse_None.
Qed.

Lemma holds_write_new state s slots i code :
  state !! s = Some slots →
  holds (<[s := array_set slots i (Code code)]> state) s i code.
Proof.
  intros Hs. exists (array_set slots i (Code code)). rewrite lookup_insert_eq.
  split; [done|]. pose proof (array_get_set_eq slots i (Code code)) as Hg.
  unfold array_get in Hg.
  destruct (array_set slots i (Code code) !! i) as [w|]; simpl in Hg; congruence.
Qed.

Lemma read_Null_lookup state s i :
  read state s i = Some Null ↔ ∃ slots, state !! s = Some slots ∧ slots !! i = Some Null.
Proof.
  unfold read, array_get. split.
  - destruct (state !! s) as [slots|]; simpl; [|done]. intros [= H]. exists slots.
    split; [done|]. destruct (slots !! i) as [w|]; simpl in H; congruence.
  - intros (slots & -> & Hi). simpl. by rewrite Hi.
Qed.

(** X2. For a semester id that is a semester of the grid or a plain key,
    [addCourse] returns [true] exactly when the code is nowhere in the
    grid and the target slot exists and holds [null]; it throws exactly
    when the code is nowhere in the grid and the semester does not exist;
    unless it returns [true] the grid is untouched. When it returns [true],
    the slot holds the code, every other slot reads as before, and the
    placed codes are the former ones and the code (when not empty). *)
Theorem addCourse_places state s i code :
  is_Some (state !! s) ∨ plainKey s →
  let added := addCourse state s i code in
  (added.2 = Normal true ↔ findCourse state code = None ∧ read state s i = Some Null) ∧
  (added.2 = TypeError ↔ findCourse state code = None ∧ state !! s = None) ∧
  (added.2 ≠ Normal true → added.1 = state) ∧
  (added.2 = Normal true →
     holds added.1 s i code ∧
     (∀ s' j, (s', j) ≠ (s, i) → read added.1 s' j = read state s' j) ∧
     (∀ c, c ∈ getAllPlacedCourses added.1 ↔
           c ∈ getAllPlacedCourses state ∨ (c = code ∧ code ≠ ""))).
Proof.
  intros _ added. subst added. unfold addCourse.
  destruct (findCourse state code) as [loc|] eqn:Hf.
  { simpl. repeat split; try done; intros [? ?]; done. }
  destruct (state !! s) as [slots|] eqn:Hs.
  2:{ simpl. repeat split; try done.
      intros [_ H]. unfold read in H. by rewrite Hs in H. }
  assert (read state s i = Some (array_get slots i)) as Hread
    by (unfold read; by rewrite Hs).
  case_decide as Hocc; simpl.
  { repeat split; try done.
    - intros [_ H]. rewrite Hread in H. congruence.
    - intros [_ ?]. done. }
  assert (array_get slots i = Null) as Hnull by (by destruct (decide (array_get slots i = Null))).
  split; [split; [by rewrite Hread, Hnull|done]|].
  split; [split; [done|by intros [_ ?]]|].
  split; [done|]. intros _. split; [by apply holds_write_new|]. split.
  - intros s' j Hne. rewrite (read_write _ _ _ _ _ _ _ Hs). by rewrite decide_False.
  - intros c. rewrite !getAllPlacedCourses_elem. split.
    + intros (Hc & s' & j & Hh).
      apply (holds_write_inv _ _ _ _ _ _ _ _ Hs) in Hh as [(_ & _ & [= ->])|[_ Hh]].
      * by right.
      * left. split; [done|]. by exists s', j.
    + intros [(Hc & s' & j & Hh)|[-> Hc]].
      * split; [done|]. exists s', j. apply holds_write_other; [done| |done].
        intros [= -> ->]. destruct Hh as (l & Hl & Hj).
        assert (l = slots) as -> by congruence.
        unfold array_get in Hnull. rewrite Hj in Hnull. done.
      * split; [done|]. exists s, i. by apply holds_write_new.
Qed.
End GridExtras.

Section ArrayExtras.
Implicit Types (arr : list cell) (i j : nat) (v w : cell).

Lemma array_set_in_range arr i v : i < length arr → array_set arr i v = <[i := v]> arr.
Proof. intros Hi. unfold array_set. by rewrite decide_True. Qed.

Lemma array_set_length arr i v : length (array_set arr i v) = length arr `max` S i.
Proof.
  unfold array_set. case_decide.
  - rewrite length_insert. lia.
  - rewrite !length_app, length_replicate. simpl. lia.
Qed.

Lemma array_set_set arr i v w : array_set (array_set arr i v) i w = array_set arr i w.
Proof.
  rewrite (array_set_in_range (array_set arr i v)) by (rewrite array_set_length; lia).
  unfold array_set. case_decide as Hi.
  - apply list_insert_insert_eq.
  - rewrite insert_app_r_alt by lia.
    rewrite insert_app_r_alt by (rewrite length_replicate; lia).
    rewrite length_replicate.
    by replace (i - length arr - (i - length arr)) with 0 by lia.
Qed.

Lemma array_set_same arr i v : arr !! i = Some v → array_set arr i v = arr.
Proof.
  intros Hi. rewrite array_set_in_range by (by eapply lookup_lt_Some).
  by apply list_insert_id.
Qed.

Lemma array_get_Null arr i : array_get arr i = Null ↔ arr !! i = Some Null.
Proof.
  unfold array_get. destruct (arr !! i) as [w|]; simpl; split; congruence.
Qed.
End ArrayExtras.

Section GridShape.
Implicit Types (state : grid) (s : string) (i j : nat) (code : string) (v : cell).

Lemma initSemesters_lookup ids state s :
  initSemesters ids state !! s =
    if decide (s ∈ ids) then Some (replicate slotsPerSemester Null) else state !! s.
Proof.
  revert state. induction ids as [|id ids IH]; intros state.
  - destruct (decide (s ∈ [])) as [H|]; [by apply elem_of_nil in H|done].
  - change (initSemesters (id :: ids) state)
      with (initSemesters ids (<[id := replicate slotsPerSemester Null]> state)).
    rewrite IH. destruct (decide (s ∈ ids)) as [Hin|Hin].
    + rewrite decide_True; [done|by right].
    + destruct (decide (s = id)) as [->|Hne].
      * rewrite lookup_insert_eq. rewrite decide_True; [done|left].
      * rewrite lookup_insert_ne by done. rewrite decide_False; [done|].
        intros H. apply elem_of_cons in H as [?|?]; done.
Qed.

Lemma fiveSlots_write state s slots i v :
  fiveSlots state → state !! s = Some slots → i < slotsPerSemester → v ≠ Undefined →
  fiveSlots (<[s := array_set slots i v]> state).
Proof.
  intros Hf Hs Hi Hv s' l Hl. destruct (Hf _ _ Hs) as [Hlen Hall].
  destruct (decide (s' = s)) as [->|Hne].
  - rewrite lookup_insert_eq in Hl. injection Hl as <-.
    rewrite array_set_in_range by lia. rewrite length_insert. split; [done|].
    by apply Forall_insert.
  - rewrite lookup_insert_ne in Hl by done. by eapply Hf.
Qed.

Lemma fiveSlots_get state s slots i :
  fiveSlots state → state !! s = Some slots → i < slotsPerSemester →
  array_get slots i ≠ Undefined.
Proof.
  intros Hf Hs Hi. destruct (Hf _ _ Hs) as [Hlen Hall].
  destruct (lookup_lt_is_Some_2 slots i ltac:(lia)) as [w Hw].
  unfold array_get. rewrite Hw. simpl.
  rewrite Forall_lookup in Hall. by eapply Hall.
Qed.

Lemma apply_op_fiveSlots state o :
  inBounds o → fiveSlots state → fiveSlots (apply_op state o).
Proof.
  intros Hb Hf. destruct o as [s i code|s i|fs fi ts ti]; simpl in *.
  - unfold addCourse. destruct (findCourse state code); [done|].
    destruct (state !! s) as [slots|] eqn:Hs; [|done].
    case_decide as Hocc; [done|]. simpl.
    assert (array_get slots i = Null) as Hnull
      by (by destruct (decide (array_get slots i = Null))).
    apply array_get_Null, lookup_lt_Some in Hnull.
    destruct (Hf _ _ Hs) as [Hlen _].
    apply fiveSlots_write; [done|done|lia|done].
  - unfold removeCourse. destruct (state !! s) as [slots|] eqn:Hs; [|done].
    simpl. by apply fiveSlots_write.
  - destruct Hb as [Hfi Hti]. unfold moveCourse.
    destruct (state !! fs) as [src|] eqn:Hfs; [|done]. simpl.
    assert (fiveSlots (<[fs := array_set src fi Null]> state)) as Hf1
      by (by apply fiveSlots_write).
    destruct (<[fs := array_set src fi Null]> state !! ts) as [dst|] eqn:Hts; [|done].
    simpl. apply fiveSlots_write; [done|done|done|].
    exact (fiveSlots_get _ _ _ _ Hf Hfs Hfi).
Qed.

Lemma write_dom state s slots (x : list cell) s' :
  state !! s = Some slots → is_Some (<[s := x]> state !! s') ↔ is_Some (state !! s').
Proof.
  intros Hs. destruct (decide (s' = s)) as [->|Hne].
  - rewrite lookup_insert_eq, Hs. split; eauto.
  - by rewrite lookup_insert_ne.
Qed.

Lemma apply_op_dom state o s :
  is_Some (apply_op state o !! s) ↔ is_Some (state !! s).
Proof.
  destruct o as [s0 i code|s0 i|fs fi ts ti]; simpl.
  - unfold addCourse. destruct (findCourse state code); [done|].
    destruct (state !! s0) as [slots|] eqn:Hs; [|done].
    case_decide; [done|]. simpl. by eapply write_dom.
  - unfold removeCourse. destruct (state !! s0) as [slots|] eqn:Hs; [|done].
    simpl. by eapply write_dom.
  - unfold moveCourse. destruct (state !! fs) as [src|] eqn:Hfs; [|done]. simpl.
    destruct (<[fs := array_set src fi Null]> state !! ts) as [dst|] eqn:Hts; simpl.
    + rewrite (write_dom _ _ _ _ _ Hts). by eapply write_dom.
    + by eapply write_dom.
Qed.

Lemma run_shape ops state :
  Forall inBounds ops → fiveSlots state →
  fiveSlots (run ops state) ∧ ∀ s, is_Some (run ops state !! s) ↔ is_Some (state !! s).
Proof.
  intros Hops. revert state. induction Hops as [|o ops Ho _ IH]; intros state Hf; [done|].
  simpl. destruct (IH (apply_op state o)) as [Hf' Hdom]; [by apply apply_op_fiveSlots|].
  split; [done|]. intros s. by rewrite Hdom, apply_op_dom.
Qed.

(** X3. From the grid built by [initSemesters], every sequence of
    [addCourse], [removeCourse] and [moveCourse] calls whose slot indices
    for [removeCourse] and [moveCourse] are below five leads to a grid
    whose semesters are the initial ones, each with exactly five slots that
    hold [null] or a course code, the semester ids given to [initSemesters]
    and to the calls being plain keys; [addCourse] keeps this for every
    slot index. *)
Theorem grid_keeps_five_slots (semesterIds : list string) (ops : list op) :
  Forall plainKey semesterIds → Forall plainOp ops →
  Forall inBounds ops →
  let state := run ops (initSemesters semesterIds newGrid) in
  fiveSlots state ∧ ∀ s, is_Some (state !! s) ↔ s ∈ semesterIds.
Proof.
  intros _ _ Hops state. subst state.
  destruct (run_shape ops (initSemesters semesterIds newGrid) Hops) as [Hf Hdom].
  - intros s slots. rewrite initSemesters_lookup. case_decide; [|done].
    intros [= <-]. split; [done|]. by repeat constructor.
  - split; [done|]. intros s. rewrite Hdom, initSemesters_lookup.
    case_decide as Hin.
    + split; eauto.
    + unfold newGrid. rewrite lookup_empty. split; [by intros [? ?]|done].
Qed.



(** X6. Removing a course from the slot a successful [addCourse] put it in
    gives back the grid as it was before the call. *)
Theorem addCourse_then_removeCourse state s i code state' :
  addCourse state s i code = (state', Normal true) →
  removeCourse state' s i = (state, Normal tt).
Proof.
  unfold addCourse. destruct (findCourse state code); [done|].
  destruct (state !! s) as [slots|] eqn:Hs; [|done].
  case_decide as Hocc; [done|]. intros [= <-].
  assert (array_get slots i = Null) as Hnull
    by (by destruct (decide (array_get slots i = Null))).
  apply array_get_Null in Hnull.
  unfold removeCourse. rewrite lookup_insert_eq. simpl.
  rewrite array_set_set, insert_insert_eq, (array_set_same _ _ _ Hnull).
  by rewrite insert_id.
Qed.
End GridShape.

Section GridMoves.
Implicit Types (state : grid) (s : string) (i j : nat) (code : string) (v : cell).

Lemma holds_lookup state s slots i code :
  state !! s = Some slots → holds state s i code ↔ slots !! i = Some (Code code).
Proof.
  intros Hs. split.
  - intros (l & Hl & Hi). congruence.
  - intros Hi. by exists slots.
Qed.

(** X7. Moving the content of a slot into a slot that holds [null]
    completes, leaves the set of placed codes as it was, and is undone by
    the opposite move: the grid is then the one before the two moves. *)
Theorem moveCourse_into_empty_slot state fromSemester fromSlot toSemester toSlot src v :
  state !! fromSemester = Some src →
  src !! fromSlot = Some v →
  read state toSemester toSlot = Some Null →
  let moved := moveCourse state fromSemester fromSlot toSemester toSlot in
  moved.2 = Normal tt ∧
  getAllPlacedCourses moved.1 = getAllPlacedCourses state ∧
  moveCourse moved.1 toSemester toSlot fromSemester fromSlot = (state, Normal tt).
Proof.
  intros Hfs Hv Hto moved.
  apply read_Null_lookup in Hto as (dst & Hts & Hnull).
  destruct (moveCourse_state state fromSemester fromSlot toSemester toSlot src dst Hfs Hts)
    as (dst1 & Hd1 & Hmove).
  assert (array_get src fromSlot = v) as Hget by (unfold array_get; by rewrite Hv).
  subst moved. rewrite Hmove, Hget. simpl. split; [done|]. split.
  - apply set_eq. intros c. rewrite !getAllPlacedCourses_elem.
    split; intros (Hc & s & i & Hh); (split; [done|]).
    + apply (holds_write_inv _ _ _ _ _ _ _ _ Hd1) in Hh as [(_ & _ & ->)|[_ Hh]].
      * exists fromSemester, fromSlot. by exists src.
      * apply (holds_write_inv _ _ _ _ _ _ _ _ Hfs) in Hh as [(_ & _ & ?)|[_ Hh]]; [done|].
        by exists s, i.
    + destruct (decide ((s, i) = (fromSemester, fromSlot))) as [[= -> ->]|Hne].
      * apply (holds_lookup _ _ _ _ _ Hfs) in Hh. assert (v = Code c) as -> by congruence.
        exists toSemester, toSlot. by apply holds_write_new.
      * exists s, i. apply holds_write_other; [done| |by apply holds_write_other].
        intros [= -> ->]. apply (holds_lookup _ _ _ _ _ Hts) in Hh. congruence.
  - destruct (decide (fromSemester = toSemester)) as [->|Hne].
    + assert (dst = src) as -> by congruence.
      rewrite lookup_insert_eq in Hd1. injection Hd1 as <-.
      rewrite insert_insert_eq. unfold moveCourse. rewrite lookup_insert_eq. simpl.
      rewrite lookup_insert_eq, !insert_insert_eq, array_get_set_eq, array_set_set.
      assert (array_set (array_set (array_set src fromSlot Null) toSlot Null) fromSlot v = src)
        as ->; [|by rewrite insert_id].
      pose proof (lookup_lt_Some _ _ _ Hv) as Hlf.
      pose proof (lookup_lt_Some _ _ _ Hnull) as Hlt.
      rewrite (array_set_in_range src) by done.
      rewrite (array_set_in_range _ toSlot) by (by rewrite length_insert).
      rewrite array_set_in_range by (by rewrite !length_insert).
      apply list_eq. intros j. destruct (decide (j = fromSlot)) as [->|Hjf].
      * rewrite list_lookup_insert_eq by (by rewrite !length_insert). done.
      * rewrite list_lookup_insert_ne by done.
        destruct (decide (j = toSlot)) as [->|Hjt].
        -- rewrite list_lookup_insert_eq by (by rewrite length_insert). done.
        -- by rewrite !list_lookup_insert_ne by done.
    + rewrite lookup_insert_ne in Hd1 by done. assert (dst1 = dst) as -> by congruence.
      unfold moveCourse. rewrite lookup_insert_eq. simpl.
      rewrite insert_insert_eq, lookup_insert_ne by done.
      rewrite lookup_insert_eq, array_get_set_eq, !array_set_set.
      rewrite (array_set_same _ _ _ Hv), (array_set_same _ _ _ Hnull).
      f_equal. apply map_eq. intros s.
      destruct (decide (s = fromSemester)) as [->|Hs1].
      * by rewrite lookup_insert_eq.
      * rewrite lookup_insert_ne by done.
        destruct (decide (s = toSemester)) as [->|Hs2].
        -- by rewrite lookup_insert_eq.
        -- by rewrite !lookup_insert_ne by done.
Qed.
End GridMoves.

(** * Further properties of the semester-relative sets *)

Section SetExtras.
Implicit Types (state : grid) (c : string) (completed : gset string).

Lemma collectSemesters_throws state semesters completed :
  collectSemesters state semesters completed = TypeError ↔
  ∃ sem, sem ∈ semesters ∧ state !! sem = None.
Proof.
  revert completed. induction semesters as [|sem rest IH]; intros completed; simpl.
  - split; [done|]. intros (? & H & _). by apply elem_of_nil in H.
  - destruct (state !! sem) as [slots|] eqn:Hs.
    + rewrite IH. split.
      * intros (x & Hin & Hx). exists x. split; [by right|done].
      * intros (x & Hin & Hx). exists x. split; [|done].
        apply elem_of_cons in Hin as [->|Hin]; [congruence|done].
    + split; [|done]. intros _. exists sem. split; [left|done].
Qed.

Lemma collectSemesters_returns state semesters completed result :
  collectSemesters state semesters completed = Normal result →
  ∀ c, c ∈ result ↔
       c ∈ completed ∨
       (c ≠ "" ∧ ∃ sem slots, sem ∈ semesters ∧ state !! sem = Some slots ∧ Code c ∈ slots).
Proof.
  intros Hr.
  destruct (collectSemesters_spec state semesters completed) as (r & Hr' & Hspec).
  - intros sem Hin. destruct (state !! sem) as [slots|] eqn:Hs; [eauto|].
    assert (collectSemesters state semesters completed = TypeError) as Ht
      by (apply collectSemesters_throws; eauto).
    congruence.
  - assert (r = result) as -> by congruence. done.
Qed.

Lemma targetIdx_bounds semesterId semesterOrder :
  Z.to_nat (targetIdx semesterId semesterOrder) ≤
    Z.to_nat (targetIdx semesterId semesterOrder + 1).
Proof. lia. Qed.

(** X8. Whenever [getCoursesUpToSemester] returns, so does
    [getCoursesBeforeSemester] for the same semester, and the codes it
    returns are among those of [getCoursesUpToSemester], which are among
    those of [getAllPlacedCourses]; the empty string is in none of them.
    For a semester that is not in the order both return the empty set. *)
Theorem completed_sets_are_nested state semesterId semesterOrder :
  (∀ upTo, getCoursesUpToSemester state semesterId semesterOrder = Normal upTo →
     ∃ before, getCoursesBeforeSemester state semesterId semesterOrder = Normal before ∧
       before ⊆ upTo ∧ upTo ⊆ getAllPlacedCourses state ∧ "" ∉ upTo) ∧
  (semesterId ∉ semesterOrder →
     getCoursesBeforeSemester state semesterId semesterOrder = Normal ∅ ∧
     getCoursesUpToSemester state semesterId semesterOrder = Normal ∅).
Proof.
  split.
  - unfold getCoursesUpToSemester, getCoursesBeforeSemester. intros upTo Hup.
    pose proof (targetIdx_bounds semesterId semesterOrder) as Hle.
    set (k := Z.to_nat (targetIdx semesterId semesterOrder)) in *.
    set (k' := Z.to_nat (targetIdx semesterId semesterOrder + 1)) in *.
    destruct (collectSemesters state (take k semesterOrder) ∅) as [before|] eqn:Hb.
    2:{ apply collectSemesters_throws in Hb as (sem & Hin & Hs).
        assert (collectSemesters state (take k' semesterOrder) ∅ = TypeError) as Ht.
        { apply collectSemesters_throws. exists sem. split; [|done].
          apply elem_of_take in Hin as (i & Hi & Hlt). apply elem_of_take.
          exists i. split; [done|lia]. }
        congruence. }
    exists before. split; [done|].
    pose proof (collectSemesters_returns _ _ _ _ Hb) as Hbs.
    pose proof (collectSemesters_returns _ _ _ _ Hup) as Hus.
    split; [|split].
    + intros c Hc. apply Hbs in Hc as [Hc|(Hne & sem & slots & Hin & Hs & Hcs)];
        [by apply not_elem_of_empty in Hc|].
      apply Hus. right. split; [done|]. exists sem, slots. split; [|done].
      apply elem_of_take in Hin as (i & Hi & Hlt). apply elem_of_take.
      exists i. split; [done|lia].
    + intros c Hc. apply Hus in Hc as [Hc|(Hne & sem & slots & Hin & Hs & Hcs)];
        [by apply not_elem_of_empty in Hc|].
      apply getAllPlacedCourses_elem. split; [done|].
      apply list_elem_of_lookup_1 in Hcs as [i Hi]. exists sem, i. by exists slots.
    + intros Hc. apply Hus in Hc as [Hc|(Hne & _)]; [by apply not_elem_of_empty in Hc|done].
  - intros Hnot. apply indexOf_None in Hnot.
    unfold getCoursesUpToSemester, getCoursesBeforeSemester, targetIdx. by rewrite Hnot.
Qed.

(** X9. For a semester at index [k] of the order,
    [getCoursesBeforeSemester] throws exactly when one of the semesters at
    indices below [k] is not in the grid, and [getCoursesUpToSemester]
    exactly when one of those at indices up to [k] is not: semesters later
    in the order are never looked at. *)
Theorem completed_sets_throw_on_missing_semester state semesterId semesterOrder k :
  indexOf semesterId semesterOrder = Some k →
  (getCoursesBeforeSemester state semesterId semesterOrder = TypeError ↔
     ∃ i sem, i < k ∧ semesterOrder !! i = Some sem ∧ state !! sem = None) ∧
  (getCoursesUpToSemester state semesterId semesterOrder = TypeError ↔
     ∃ i sem, i ≤ k ∧ semesterOrder !! i = Some sem ∧ state !! sem = None).
Proof.
  intros Hk. destruct (targetIdx_found _ _ _ Hk) as [Hb Hu].
  unfold getCoursesBeforeSemester, getCoursesUpToSemester. rewrite Hb, Hu.
  rewrite !collectSemesters_throws. split; split.
  - intros (sem & Hin & Hs). apply elem_of_take in Hin as (i & Hi & Hlt). by exists i, sem.
  - intros (i & sem & Hlt & Hi & Hs). exists sem. split; [|done].
    apply elem_of_take. by exists i.
  - intros (sem & Hin & Hs). apply elem_of_take in Hin as (i & Hi & Hlt).
    exists i, sem. split; [lia|done].
  - intros (i & sem & Hlt & Hi & Hs). exists sem. split; [|done].
    apply elem_of_take. exists i. split; [done|lia].
Qed.
End SetExtras.

(** * Further properties of the parser *)

Section ParserExtras.
Variable db : CourseDatabase.
Implicit Types (fuel : nat) (c : cache) (setId : string) (o : option tree).

Lemma cache_extends_refl c : cache_extends db c c.
Proof. split; [done|]. intros k Hk. by left. Qed.

Lemma cache_extends_trans c c1 c2 :
  cache_extends db c c1 → cache_extends db c1 c2 → cache_extends db c c2.
Proof.
  intros [Hs1 Hk1] [Hs2 Hk2]. split; [by etrans|].
  intros k Hk. destruct (Hk2 k Hk) as [H|H]; [by apply Hk1|by right].
Qed.

Section Body.
Variable rec : string → cache → option (option tree * cache).
Hypothesis rec_extends : ∀ setId c o c1, rec setId c = Some (o, c1) → cache_extends db c c1.

Lemma parseToken_body_extends token c o c1 :
  parseToken_body rec token c = Some (o, c1) → cache_extends db c c1.
Proof.
  unfold parseToken_body. destruct (isCoursesetRef token); [apply rec_extends|].
  intros [= <- <-]. apply cache_extends_refl.
Qed.

Lemma parseTokens_body_extends parts c ts c1 :
  parseTokens_body rec parts c = Some (ts, c1) → cache_extends db c c1.
Proof.
  revert c ts c1. induction parts as [|p parts IH]; intros c ts c1; simpl.
  - intros [= <- <-]. apply cache_extends_refl.
  - destruct (parseToken_body rec p c) as [[o c2]|] eqn:Hp; [|done].
    destruct (parseTokens_body rec parts c2) as [[ts' c3]|] eqn:Hps; [|done].
    intros [= <- <-]. eapply cache_extends_trans; [by eapply parseToken_body_extends|].
    by eapply IH.
Qed.

Lemma parseExpression_body_extends expr c o c1 :
  parseExpression_body rec expr c = Some (o, c1) → cache_extends db c c1.
Proof.
  unfold parseExpression_body. destruct (includes (trim expr) " & ").
  { destruct (parseTokens_body rec _ c) as [[ts c2]|] eqn:Hts; [|done].
    intros [= <- <-]. by eapply parseTokens_body_extends. }
  destruct (includes (trim expr) " / ").
  { destruct (parseTokens_body rec _ c) as [[ts c2]|] eqn:Hts; [|done].
    intros [= <- <-]. by eapply parseTokens_body_extends. }
  apply parseToken_body_extends.
Qed.
End Body.

Lemma parseCourseset_extends fuel setId c o c1 :
  parseCourseset db fuel setId c = Some (o, c1) → cache_extends db c c1.
Proof.
  revert setId c o c1. induction fuel as [|fuel IH]; intros setId c o c1; [done|].
  simpl. destruct (String.eqb setId ""); [intros [= <- <-]; apply cache_extends_refl|].
  destruct (c !! setId) as [t0|] eqn:Hhit; [intros [= <- <-]; apply cache_extends_refl|].
  destruct (coursesets db !! setId) as [cs|] eqn:Hcs;
    [|intros [= <- <-]; apply cache_extends_refl].
  destruct (parseExpression_body (parseCourseset db fuel) (courses cs) c)
    as [[t1 c2]|] eqn:Hbody; [|done].
  intros [= <- <-].
  destruct (parseExpression_body_extends _ IH _ _ _ _ Hbody) as [Hsub Hkeys]. split.
  - by apply insert_subseteq_r.
  - intros k Hk. destruct (decide (setId = k)) as [<-|Hne]; [right; eauto|].
    rewrite lookup_insert_ne in Hk by done. by apply Hkeys.
Qed.

(** X10. Whenever [parseCourseset] returns, the tree cache has kept every
    entry it had and gained entries under courseset ids of the catalog
    only; the tree of an id that the catalog or the cache knows is filed
    under that id; an id that neither knows resolves to [null] and leaves
    the cache as it is; and resolving the same id again, from the cache
    left behind, returns the same tree without changing the cache. *)
Theorem parseCourseset_fills_cache fuel setId c o c1 :
  parseCourseset db fuel setId c = Some (o, c1) →
  cache_extends db c c1 ∧
  (setId ≠ "" → is_Some (c !! setId) ∨ is_Some (coursesets db !! setId) →
     c1 !! setId = Some o) ∧
  (c !! setId = None → coursesets db !! setId = None → o = None ∧ c1 = c) ∧
  (∀ fuel', parseCourseset db (S fuel') setId c1 = Some (o, c1)).
Proof.
  intros Hparse. split; [by eapply parseCourseset_extends|].
  split; [|split; [|intros fuel'; by eapply parseCourseset_again]].
  - intros Hne Hknown. destruct fuel as [|fuel]; [done|]. simpl in Hparse.
    apply String.eqb_neq in Hne. rewrite Hne in Hparse.
    destruct (c !! setId) as [t0|] eqn:Hhit.
    { injection Hparse as <- <-. done. }
    destruct (coursesets db !! setId) as [cs|] eqn:Hcs.
    + destruct (parseExpression_body (parseCourseset db fuel) (courses cs) c)
        as [[t1 c2]|]; [|done].
      injection Hparse as <- <-. by rewrite lookup_insert_eq.
    + destruct Hknown as [[? ?]|[? ?]]; done.
  - intros Hc Hdb. destruct fuel as [|fuel]; [done|]. simpl in Hparse.
    rewrite Hc, Hdb in Hparse. destruct (String.eqb setId ""); by injection Hparse as <- <-.
Qed.

Lemma shaped_node (children : list (option tree)) :
  2 ≤ length children →
  Forall (from_option (fun t => shaped t = true) True) children →
  shaped (AND children) = true ∧ shaped (OR children) = true.
Proof.
  intros Hlen Hall.
  assert (forallb (fun child => match child with
                                | Some t' => shaped t'
                                | None => true
                                end) children = true) as Hf.
  { clear Hlen. induction Hall as [|[t|] cs Ht _ IH]; simpl in *; [done| |done].
    by rewrite Ht. }
  destruct children as [|a [|b cs]]; simpl in Hlen; [lia|lia|]. split; exact Hf.
Qed.

Lemma parseToken_body_shaped rec token c o c1 :
  (∀ setId c0 ot c2, cache_shaped c0 → rec setId c0 = Some (ot, c2) →
     from_option (fun t => shaped t = true) True ot ∧ cache_shaped c2) →
  cache_shaped c → parseToken_body rec token c = Some (o, c1) →
  from_option (fun t => shaped t = true) True o ∧ cache_shaped c1.
Proof.
  intros Hrec Hc. unfold parseToken_body. destruct (isCoursesetRef token) eqn:Hp.
  - by apply Hrec.
  - intros [= <- <-]. split; [|done]. simpl. by rewrite Hp.
Qed.

Lemma parseTokens_body_shaped rec parts c ts c1 :
  (∀ setId c0 ot c2, cache_shaped c0 → rec setId c0 = Some (ot, c2) →
     from_option (fun t => shaped t = true) True ot ∧ cache_shaped c2) →
  cache_shaped c → parseTokens_body rec parts c = Some (ts, c1) →
  Forall (from_option (fun t => shaped t = true) True) ts ∧ cache_shaped c1.
Proof.
  intros Hrec. revert c ts c1. induction parts as [|p parts IH]; intros c ts c1 Hc; simpl.
  - intros [= <- <-]. split; [constructor|done].
  - destruct (parseToken_body rec p c) as [[o c2]|] eqn:Hp; [|done].
    destruct (parseTokens_body rec parts c2) as [[ts' c3]|] eqn:Hps; [|done].
    intros [= <- <-].
    destruct (parseToken_body_shaped _ _ _ _ _ Hrec Hc Hp) as [Ht Hc2].
    destruct (IH _ _ _ Hc2 Hps) as [Hts Hc3]. split; [by constructor|done].
Qed.

(** X11. From a cache of well-formed trees, every tree [parseCourseset]
    returns is well formed, and so is every tree in the cache it leaves:
    each [AND] and [OR] node has at least two children, and no leaf carries
    a code that matches the courseset-id pattern (such tokens are always
    expanded, or dropped as [null] when they do not resolve). *)
Theorem parseCourseset_builds_shaped_trees fuel setId c o c1 :
  cache_shaped c → parseCourseset db fuel setId c = Some (o, c1) →
  from_option (fun t => shaped t = true) True o ∧ cache_shaped c1.
Proof.
  revert setId c o c1. induction fuel as [|fuel IH]; intros setId c o c1 Hc; [done|].
  simpl. destruct (String.eqb setId ""); [by intros [= <- <-]|].
  destruct (c !! setId) as [t0|] eqn:Hhit.
  { intros [= <- <-]. split; [|done]. destruct t0 as [t0|]; [|done]. by eapply Hc. }
  destruct (coursesets db !! setId) as [cs|]; [|by intros [= <- <-]].
  unfold parseExpression_body.
  assert (∀ sep, sep ≠ "" → includes (trim (courses cs)) sep = true →
            ∀ ts c2, parseTokens_body (parseCourseset db fuel)
                       (trim <$> split (trim (courses cs)) sep) c = Some (ts, c2) →
            (shaped (AND ts) = true ∧ shaped (OR ts) = true) ∧ cache_shaped c2)
    as Hnode.
  { intros sep Hsep Hinc ts c2 Hts.
    destruct (parseTokens_body_shaped _ _ _ _ _ IH Hc Hts) as [Hall Hc2].
    split; [|done]. apply shaped_node; [|done].
    rewrite (parseTokens_body_length _ _ _ _ _ Hts), length_fmap.
    by apply split_includes. }
  assert (∀ (o' : option tree) c2,
            from_option (fun t => shaped t = true) True o' → cache_shaped c2 →
            cache_shaped (<[setId := o']> c2)) as Hins.
  { intros o' c2 Ht Hc2 z tz Hz. destruct (decide (setId = z)) as [->|Hne].
    - rewrite lookup_insert_eq in Hz. injection Hz as ->. done.
    - rewrite lookup_insert_ne in Hz by done. by eapply Hc2. }
  destruct (includes (trim (courses cs)) " & ") eqn:Hand.
  { destruct (parseTokens_body _ _ c) as [[ts c2]|] eqn:Hts; [|done].
    intros [= <- <-]. destruct (Hnode " & " ltac:(done) Hand _ _ Hts) as [[? ?] ?].
    split; [done|]. by apply Hins. }
  destruct (includes (trim (courses cs)) " / ") eqn:Hor.
  { destruct (parseTokens_body _ _ c) as [[ts c2]|] eqn:Hts; [|done].
    intros [= <- <-]. destruct (Hnode " / " ltac:(done) Hor _ _ Hts) as [[? ?] ?].
    split; [done|]. by apply Hins. }
  intros Hp.
  destruct (parseToken_body (parseCourseset db fuel) (trim (courses cs)) c)
    as [[o' c2]|] eqn:Htok; [|done].
  injection Hp as <- <-.
  destruct (parseToken_body_shaped _ _ _ _ _ IH Hc Htok) as [Ht Hc2].
  split; [done|]. by apply Hins.
Qed.
End ParserExtras.

Section IdPattern.
#[local] Arguments String.append !_ _ / : simpl nomatch.

Lemma isDigit_not_upper a : isDigit a = true → isUpper a = false.
Proof.
  unfold isDigit, isUpper. cbv zeta. intros H. apply andb_true_iff in H as [_ H].
  apply Nat.leb_le in H. apply andb_false_iff. left. apply Nat.leb_gt. lia.
Qed.

Lemma spanUpper_app letters r :
  allUpper letters = true →
  (∀ a r', r = String a r' → isUpper a = false) →
  spanUpper (letters +:+ r) = (String.length letters, r).
Proof.
  intros Hl Hr. induction letters as [|a letters IH]; simpl.
  - destruct r as [|b r']; [done|]. simpl. by rewrite (Hr b r').
  - simpl in Hl. apply andb_true_iff in Hl as [Ha Hl]. by rewrite Ha, IH.
Qed.

Lemma spanUpper_split s n r :
  spanUpper s = (n, r) →
  ∃ letters, s = letters +:+ r ∧ allUpper letters = true ∧ String.length letters = n.
Proof.
  revert n r. induction s as [|a s IH]; intros n r; simpl.
  - intros [= <- <-]. by exists "".
  - destruct (isUpper a) eqn:Ha.
    + destruct (spanUpper s) as [n' r'] eqn:Hs. intros [= <- <-].
      destruct (IH _ _ eq_refl) as (letters & -> & Hl & Hn).
      exists (String a letters). simpl. by rewrite Ha, Hl, Hn.
    + intros [= <- <-]. by exists "".
Qed.

(** The test of [parseToken] accepts exactly the tokens of the courseset-id
    grammar. *)
Lemma isCoursesetRef_matches_grammar token :
  isCoursesetRef token = true ↔ coursesetIdForm token.
Proof.
  split.
  - unfold isCoursesetRef. destruct (spanUpper token) as [n r] eqn:Hspan.
    intros H. apply andb_true_iff in H as [Hn H]. apply andb_true_iff in Hn as [Hn2 Hn4].
    destruct r as [|d1 [|d2 [|d3 [|hy [|d4 [|us [|k [|d5 ds]]]]]]]]; try done.
    apply andb_true_iff in H as [H Hds]. apply andb_true_iff in H as [H Hd5].
    apply andb_true_iff in H as [H Hk]. apply andb_true_iff in H as [H Hus].
    apply andb_true_iff in H as [H Hd4]. apply andb_true_iff in H as [H Hhy].
    apply andb_true_iff in H as [H Hd3]. apply andb_true_iff in H as [Hd1 Hd2].
    apply Ascii.eqb_eq in Hus as ->.
    destruct (spanUpper_split _ _ _ Hspan) as (letters & -> & Hl & <-).
    exists letters, d1, d2, d3, hy, d4, k, (String d5 ds).
    split; [done|]. split; [done|].
    split; [split; by apply Nat.leb_le|].
    split; [done|]. split; [done|]. split; [done|]. split.
    { apply orb_true_iff in Hhy as [Hhy|Hhy]; apply Ascii.eqb_eq in Hhy; tauto. }
    split; [done|]. split.
    { apply orb_true_iff in Hk as [Hk|Hk]; [apply orb_true_iff in Hk as [Hk|Hk]|];
        apply Ascii.eqb_eq in Hk; tauto. }
    split; [done|]. simpl. by rewrite Hd5, Hds.
  - intros (letters & d1 & d2 & d3 & hy & d4 & k & digits & -> & Hl & [H2 H4] & Hd1 & Hd2
            & Hd3 & Hhy & Hd4 & Hk & Hne & Hds).
    unfold isCoursesetRef. rewrite spanUpper_app; [|done|].
    2:{ intros a r' [= <- _]. by apply isDigit_not_upper. }
    destruct digits as [|d5 ds]; [done|]. simpl in Hds.
    apply andb_true_iff in Hds as [Hd5 Hds].
    apply Nat.leb_le in H2, H4. rewrite H2, H4, Hd1, Hd2, Hd3, Hd4, Hd5, Hds.
    destruct Hhy as [->| ->]; destruct Hk as [->|[->| ->]]; reflexivity.
Qed.

(** X12. [parseToken] takes a token for a courseset reference exactly when
    the whole token consists of two to four upper-case letters, three
    digits, [H] or [Y], a digit, an underscore, one of [p], [c], [e] and at
    least one digit: such a token is resolved by [parseCourseset], with the
    cache as it is and returning what that call returns; every other token
    becomes the [COURSE] leaf carrying the token, and the cache is left
    alone. *)
Theorem parseToken_follows_the_grammar db fuel token (c : gmap string (option tree)) :
  (coursesetIdForm token → parseToken db fuel token c = parseCourseset db fuel token c) ∧
  (¬ coursesetIdForm token → parseToken db fuel token c = Some (Some (COURSE token), c)).
Proof.
  unfold parseToken, parseToken_body. split.
  - intros H. apply isCoursesetRef_matches_grammar in H. by rewrite H.
  - intros H. destruct (isCoursesetRef token) eqn:Href; [|done].
    by apply isCoursesetRef_matches_grammar in Href.
Qed.
End IdPattern.

(** * Further properties of the evaluator *)

Section EvaluatorExtras.
Implicit Types (completed : gset string) (t : tree) (r : RequirementResult).

Lemma children_validate completed (Q : option tree → RequirementResult → Prop) children :
  Q None {| satisfied := true; missing := [] |} →
  Forall (from_option (fun t => ∀ r, validate_node completed t = Normal r → Q (Some t) r)
            True) children →
  Forall (fun child => ∀ rc, validate completed child = Normal rc → Q child rc) children.
Proof.
  intros HN H. eapply Forall_impl; [exact H|].
  intros [t|]; simpl; [done|]. by intros _ rc [= <-].
Qed.

Lemma validate_OR_cases (f : option tree → completion RequirementResult) after children r :
  validate_OR f after children = Normal r →
  r = {| satisfied := true; missing := [] |} ∨ after = Normal r.
Proof.
  induction children as [|child cs IH]; simpl; [by right|].
  destruct (f child) as [rc|]; simpl; [|done].
  destruct (satisfied rc); [intros [= <-]; by left|apply IH].
Qed.

Lemma validate_OR_holds (f : option tree → completion RequirementResult)
    (h : option tree → bool) after children r :
  Forall (fun child => ∀ rc, f child = Normal rc → satisfied rc = h child) children →
  (∀ ra, after = Normal ra → satisfied ra = false) →
  validate_OR f after children = Normal r → satisfied r = existsb h children.
Proof.
  intros Hall Ha. induction Hall as [|child cs Hc _ IH]; simpl; [apply Ha|].
  destruct (f child) as [rc|] eqn:Hfc; simpl; [|done].
  rewrite <- (Hc rc eq_refl). destruct (satisfied rc); simpl; [by intros [= <-]|apply IH].
Qed.

Lemma validate_AND_holds (f : option tree → completion RequirementResult)
    (h : option tree → bool) allSatisfied allMissing children r :
  Forall (fun child => ∀ rc, f child = Normal rc → satisfied rc = h child) children →
  validate_AND f allSatisfied allMissing children = Normal r →
  satisfied r = allSatisfied && forallb h children.
Proof.
  intros Hall. revert allSatisfied allMissing.
  induction Hall as [|child cs Hc _ IH]; intros allSatisfied allMissing; simpl.
  - intros [= <-]. simpl. by rewrite andb_true_r.
  - destruct (f child) as [rc|] eqn:Hfc; simpl; [|done].
    rewrite <- (Hc rc eq_refl). destruct (satisfied rc); simpl.
    + apply IH.
    + intros H. rewrite (IH _ _ H). simpl. by rewrite andb_false_r.
Qed.

Lemma validate_AND_nonempty (f : option tree → completion RequirementResult)
    allSatisfied allMissing children r :
  Forall (fun child => ∀ rc, f child = Normal rc → missing rc = [] → satisfied rc = true)
    children →
  (allSatisfied = false → allMissing ≠ []) →
  validate_AND f allSatisfied allMissing children = Normal r →
  missing r = [] → satisfied r = true.
Proof.
  intros Hall. revert allSatisfied allMissing.
  induction Hall as [|child cs Hc _ IH]; intros allSatisfied allMissing Hinv; simpl.
  - intros [= <-]. simpl. intros ->. destruct allSatisfied; [done|]. by destruct Hinv.
  - destruct (f child) as [rc|] eqn:Hfc; simpl; [|done].
    destruct (satisfied rc) eqn:Hs; [by apply IH|]. apply IH. intros _ Happ.
    apply app_eq_nil in Happ as [_ Hm]. specialize (Hc rc eq_refl Hm). congruence.
Qed.

Lemma missing_empty_satisfied completed t r :
  validate_node completed t = Normal r → missing r = [] → satisfied r = true.
Proof.
  revert r. induction t as [code|children IH|children IH] using tree_ind; intros r.
  - simpl. intros [= <-]. simpl. by case_bool_decide.
  - rewrite validate_node_OR. intros H.
    apply validate_OR_cases in H as [->|H]; [done|].
    destruct (collectLeafCodes_node (OR children)); simpl in H; [|done].
    by injection H as <-.
  - rewrite validate_node_AND.
    apply validate_AND_nonempty; [|done].
    apply (children_validate completed
             (fun _ rc => missing rc = [] → satisfied rc = true)); done.
Qed.

Lemma satisfied_holdsIn completed t r :
  validate_node completed t = Normal r → satisfied r = holdsIn completed t.
Proof.
  revert r. induction t as [code|children IH|children IH] using tree_ind; intros r.
  - simpl. by intros [= <-].
  - rewrite validate_node_OR.
    apply (validate_OR_holds _
             (fun child => match child with
                           | None => true
                           | Some t' => holdsIn completed t'
                           end)).
    + apply (children_validate completed
               (fun child rc => satisfied rc = match child with
                                               | None => true
                                               | Some t' => holdsIn completed t'
                                               end)); done.
    + intros ra. destruct (collectLeafCodes_node (OR children)); simpl; [|done].
      by intros [= <-].
  - rewrite validate_node_AND. intros H.
    apply (validate_AND_holds _
             (fun child => match child with
                           | None => true
                           | Some t' => holdsIn completed t'
                           end)) in H; [done|].
    apply (children_validate completed
             (fun child rc => satisfied rc = match child with
                                             | None => true
                                             | Some t' => holdsIn completed t'
                                             end)); done.
Qed.

(** X13. Whenever [validate] returns, [satisfied] is the truth value of the
    tree over the completed set (a leaf holds when its code is in the set,
    an [OR] when some child holds, an [AND] when all children hold, a
    [null] tree or child always holds), and the [missing] list is empty
    exactly when [satisfied] is [true]. *)
Theorem validate_decides_the_requirement completed (o : option tree) r :
  validate completed o = Normal r →
  satisfied r = from_option (holdsIn completed) true o ∧
  (satisfied r = true ↔ missing r = []).
Proof.
  intros H. split; [|split].
  - destruct o as [t|]; simpl in *; [by apply satisfied_holdsIn|]. by injection H as <-.
  - by eapply validate_satisfied_no_missing.
  - destruct o as [t|]; simpl in *; [by eapply missing_empty_satisfied|].
    by injection H as <-.
Qed.
End EvaluatorExtras.

Section EvaluatorMonotone.
Implicit Types (completed : gset string) (t : tree) (r : RequirementResult).

Lemma validate_OR_mono (f f' : option tree → completion RequirementResult)
    after children r :
  Forall (fun child => ∀ rc, f child = Normal rc →
            ∃ rc', f' child = Normal rc' ∧ (satisfied rc = true → satisfied rc' = true))
    children →
  validate_OR f after children = Normal r →
  ∃ r', validate_OR f' after children = Normal r' ∧
        (satisfied r = true → satisfied r' = true).
Proof.
  induction 1 as [|child cs Hc _ IH]; simpl; [by eauto|].
  destruct (f child) as [rc|] eqn:Hfc; simpl; [|done].
  destruct (Hc rc eq_refl) as (rc' & -> & Hm). simpl.
  destruct (satisfied rc) eqn:Hs.
  - rewrite (Hm eq_refl). intros [= <-]. eauto.
  - intros H. destruct (satisfied rc'); [by eexists|by apply IH].
Qed.

Lemma validate_AND_mono (f f' : option tree → completion RequirementResult)
    allSatisfied allMissing allSatisfied' allMissing' children r :
  Forall (fun child => ∀ rc, f child = Normal rc →
            ∃ rc', f' child = Normal rc' ∧ (satisfied rc = true → satisfied rc' = true))
    children →
  (allSatisfied = true → allSatisfied' = true) →
  validate_AND f allSatisfied allMissing children = Normal r →
  ∃ r', validate_AND f' allSatisfied' allMissing' children = Normal r' ∧
        (satisfied r = true → satisfied r' = true).
Proof.
  intros Hall. revert allSatisfied allMissing allSatisfied' allMissing'.
  induction Hall as [|child cs Hc _ IH];
    intros allSatisfied allMissing allSatisfied' allMissing' Hb; simpl.
  - intros [= <-]. by eexists.
  - destruct (f child) as [rc|] eqn:Hfc; simpl; [|done].
    destruct (Hc rc eq_refl) as (rc' & -> & Hm). simpl.
    destruct (satisfied rc) eqn:Hs.
    + rewrite (Hm eq_refl). by apply IH.
    + intros H. destruct (satisfied rc'); eapply IH; try exact H; done.
Qed.

Lemma validate_node_mono completed completed' t r :
  completed ⊆ completed' → validate_node completed t = Normal r →
  ∃ r', validate_node completed' t = Normal r' ∧
        (satisfied r = true → satisfied r' = true).
Proof.
  intros Hsub. revert r.
  induction t as [code|children IH|children IH] using tree_ind; intros r.
  - simpl. intros [= <-]. eexists. split; [done|]. simpl.
    rewrite !bool_decide_eq_true. apply Hsub.
  - rewrite !validate_node_OR. apply validate_OR_mono.
    eapply Forall_impl; [exact IH|]. intros [t|]; simpl; [done|].
    intros _ rc [= <-]. by eexists.
  - rewrite !validate_node_AND. apply validate_AND_mono; [|done].
    eapply Forall_impl; [exact IH|]. intros [t|]; simpl; [done|].
    intros _ rc [= <-]. by eexists.
Qed.

(** X14. [validate] is monotone in the completed set: when it returns for
    a set, it returns for every larger set too (more completed courses
    never make it throw), and a requirement satisfied by the smaller set is
    satisfied by the larger one. *)
Theorem validate_is_monotone completed completed' (o : option tree) r :
  completed ⊆ completed' → validate completed o = Normal r →
  ∃ r', validate completed' o = Normal r' ∧ (satisfied r = true → satisfied r' = true).
Proof.
  intros Hsub. destruct o as [t|]; simpl; [by apply validate_node_mono|].
  intros [= <-]. by eexists.
Qed.

Lemma leaves_child (children : list (option tree)) t code :
  Some t ∈ children → code ∈ leaves t →
  code ∈ leaves (AND children) ∧ code ∈ leaves (OR children).
Proof.
  intros Hin Hc.
  assert (code ∈ flat_map (fun child => match child with
                                        | None => []
                                        | Some t' => leaves t'
                                        end) children) as H; [|by split].
  apply list_elem_of_In, in_flat_map. exists (Some t).
  split; by apply list_elem_of_In.
Qed.

Lemma collectLeafCodes_returns t codes :
  collectLeafCodes_node t = Normal codes → codes = leaves t.
Proof.
  revert codes. induction t as [code|children IH|children IH] using tree_ind;
    intros codes; [by intros [= <-]| |]; simpl.
  all: revert codes; induction children as [|[c|] cs IHcs]; intros codes; simpl in *;
    [by intros [= <-]| |done].
  all: apply Forall_cons in IH as [IHc IHrest]; simpl in IHc.
  all: destruct (collectLeafCodes_node c) as [l|]; simpl; [|done].
  all: destruct (flatMap_children _ cs) as [more|] eqn:Hm; simpl; [|done].
  all: intros [= <-]; by rewrite (IHc l eq_refl), (IHcs IHrest more eq_refl).
Qed.

Lemma validate_AND_missing (Q : MissingInfo → Prop)
    (f : option tree → completion RequirementResult)
    allSatisfied allMissing children r :
  Forall (fun child => ∀ rc, f child = Normal rc → Forall Q (missing rc)) children →
  Forall Q allMissing →
  validate_AND f allSatisfied allMissing children = Normal r → Forall Q (missing r).
Proof.
  intros Hall. revert allSatisfied allMissing.
  induction Hall as [|child cs Hc _ IH]; intros allSatisfied allMissing Hacc; simpl.
  - by intros [= <-].
  - destruct (f child) as [rc|] eqn:Hfc; simpl; [|done].
    destruct (satisfied rc); apply IH; [done|]. apply Forall_app. split; [done|by apply Hc].
Qed.

Lemma missing_in_leaves completed t r :
  validate_node completed t = Normal r →
  Forall (fun m => (∀ code, code ∈ missingCodes m → code ∈ leaves t) ∧
                   (∀ code, m = MissingCOURSE code → code ∉ completed)) (missing r).
Proof.
  revert r. induction t as [code|children IH|children IH] using tree_ind; intros r.
  - simpl. intros [= <-]. simpl. case_bool_decide as Hc; constructor; [|constructor].
    split; [done|]. by intros ? [= <-].
  - rewrite validate_node_OR. intros H.
    apply validate_OR_cases in H as [->|H]; [constructor|].
    destruct (collectLeafCodes_node (OR children)) as [options|] eqn:Ho; simpl in H; [|done].
    injection H as <-. simpl. constructor; [|constructor].
    split; [|done]. intros code Hc. simpl in Hc.
    by rewrite (collectLeafCodes_returns _ _ Ho) in Hc.
  - rewrite validate_node_AND. apply validate_AND_missing; [|constructor].
    apply Forall_forall. intros child Hin rc Hrc.
    destruct child as [t'|]; simpl in Hrc; [|injection Hrc as <-; constructor].
    rewrite Forall_forall in IH. specialize (IH _ Hin). simpl in IH.
    eapply Forall_impl; [by apply IH|]. intros m [H1 H2]. split; [|done].
    intros code Hc. by destruct (leaves_child children t' code Hin (H1 _ Hc)) as [? _].
Qed.

(** X15. Whenever [validate] returns, every course code named in its
    [missing] list (the code of a [COURSE] entry, the options of an [OR]
    entry) is the code of a leaf of the tree, and the code of a [COURSE]
    entry is not in the completed set. *)
Theorem validate_reports_leaves_only completed (o : option tree) r :
  validate completed o = Normal r →
  ∀ m, m ∈ missing r →
    (∀ code, code ∈ missingCodes m → code ∈ from_option leaves [] o) ∧
    (∀ code, m = MissingCOURSE code → code ∉ completed).
Proof.
  intros H m Hm. destruct o as [t|]; simpl in *.
  - apply missing_in_leaves in H. rewrite Forall_forall in H. by apply H.
  - injection H as <-. by apply elem_of_nil in Hm.
Qed.
End EvaluatorMonotone.

(** * Further properties of the placement validator *)

Section PlacementExtras.
Variable db : CourseDatabase.
Implicit Types (fuel : nat) (c : cache) (errors : list PlacementError).

Lemma unsatisfied_missing completed (o : option tree) r :
  validate completed o = Normal r → satisfied r = false → missing r ≠ [].
Proof.
  intros H Hs Hm. destruct o as [t|]; simpl in H.
  - apply (missing_empty_satisfied _ _ _ H) in Hm. congruence.
  - injection H as <-. done.
Qed.

Lemma validatePlacement_prerequisites_pushes fuel course semesterId gridManager
    semesterOrder errors c errors' c1 :
  validatePlacement_prerequisites db fuel course semesterId gridManager semesterOrder
    errors c = Some (Normal errors', c1) →
  errors' = errors ∨ ∃ m, m ≠ [] ∧ errors' = errors ++ [prerequisite m].
Proof.
  unfold validatePlacement_prerequisites, bind, lift, parsing, ret.
  destruct (requirement (prerequisites course)); [|intros [= <- <-]; by left].
  destruct (getCoursesBeforeSemester gridManager semesterId semesterOrder) as [completed|];
    [|done].
  destruct (parseCourseset db fuel s c) as [[o c2]|]; [|done].
  destruct (validate completed o) as [r|] eqn:Hv; [|done].
  intros [= <- <-]. destruct (satisfied r) eqn:Hs; [by left|right].
  exists (missing r). split; [by eapply unsatisfied_missing|done].
Qed.

Lemma validatePlacement_corequisites_pushes fuel course semesterId gridManager
    semesterOrder errors c errors' c1 :
  validatePlacement_corequisites db fuel course semesterId gridManager semesterOrder
    errors c = Some (Normal errors', c1) →
  errors' = errors ∨ ∃ m, m ≠ [] ∧ errors' = errors ++ [corequisite m].
Proof.
  unfold validatePlacement_corequisites, bind, lift, parsing, ret.
  destruct (requirement (corequisites course)); [|intros [= <- <-]; by left].
  destruct (getCoursesUpToSemester gridManager semesterId semesterOrder) as [completed|];
    [|done].
  destruct (parseCourseset db fuel s c) as [[o c2]|]; [|done].
  destruct (validate completed o) as [r|] eqn:Hv; [|done].
  intros [= <- <-]. destruct (satisfied r) eqn:Hs; [by left|right].
  exists (missing r). split; [by eapply unsatisfied_missing|done].
Qed.

Lemma set_delete_elem (s : gset string) (v : cell) code :
  code ∈ set_delete s v → code ∈ s ∧ Code code ≠ v.
Proof.
  destruct v as [| |x]; simpl; [done|done|].
  intros H. apply elem_of_difference in H as [H Hne]. split; [done|].
  intros [= ->]. apply Hne. by apply elem_of_singleton.
Qed.

Lemma validatePlacement_exclusions_pushes fuel course courseCode gridManager errors c
    errors' c1 :
  validatePlacement_exclusions db fuel course courseCode gridManager errors c
    = Some (Normal errors', c1) →
  errors' = errors ∨
  ∃ codes, Forall (fun code => code ∈ getAllPlacedCourses gridManager ∧
                               Code code ≠ courseCode) codes ∧
           errors' = errors ++ [exclusion codes].
Proof.
  unfold validatePlacement_exclusions, bind, lift, parsing, ret.
  destruct (requirement (exclusions course)); [|intros [= <- <-]; by left].
  destruct (parseCourseset db fuel s c) as [[o c2]|]; [|done].
  destruct (validate _ o) as [r|]; [|done].
  destruct (satisfied r); [|intros [= <- <-]; by left].
  destruct (collectLeafCodes o) as [codes|]; [|done].
  intros [= <- <-]. right. eexists. split; [|done].
  apply Forall_forall. intros code Hin. apply list_elem_of_filter in Hin as [Hin _].
  by apply set_delete_elem.
Qed.

(** X16. Whenever [validatePlacement] returns, [valid] is [true] exactly
    when the error list is empty; the list holds at most one error of each
    kind, in the order prerequisite, corequisite, exclusion; the [missing]
    list of a prerequisite or corequisite error is never empty; an
    exclusion error lists only codes that are placed in the grid and differ
    from the validated course. A code that the catalog does not know (an
    empty slot included) is valid, and the cache is not touched for it. *)
Theorem validatePlacement_reports_each_rule_once fuel courseCode semesterId gridManager
    semesterOrder c result c1 :
  validatePlacement db fuel courseCode semesterId gridManager semesterOrder c
    = Some (Normal result, c1) →
  (valid result = true ↔ errors result = []) ∧
  errorRank <$> errors result `sublist_of` [0; 1; 2] ∧
  (∀ m, prerequisite m ∈ errors result ∨ corequisite m ∈ errors result → m ≠ []) ∧
  (∀ codes, exclusion codes ∈ errors result →
     Forall (fun code => code ∈ getAllPlacedCourses gridManager ∧ Code code ≠ courseCode)
       codes) ∧
  (getCourse db courseCode = None → result = {| valid := true; errors := [] |} ∧ c1 = c).
Proof.
  unfold validatePlacement. destruct (getCourse db courseCode) as [course|].
  2:{ intros [= <- <-]. simpl. split; [done|]. split; [apply sublist_nil_l|].
      split; [|split; [|done]].
      - intros m [H|H]; by apply elem_of_nil in H.
      - intros codes H. by apply elem_of_nil in H. }
  unfold bind, ret.
  destruct (validatePlacement_prerequisites db fuel course semesterId gridManager
              semesterOrder [] c) as [[[e1|] c2]|] eqn:H1; [|done|done].
  destruct (validatePlacement_corequisites db fuel course semesterId gridManager
              semesterOrder e1 c2) as [[[e2|] c3]|] eqn:H2; [|done|done].
  destruct (validatePlacement_exclusions db fuel course courseCode gridManager e2 c3)
    as [[[e3|] c4]|] eqn:H3; [|done|done].
  intros [= <- <-]. simpl.
  apply validatePlacement_prerequisites_pushes in H1.
  apply validatePlacement_corequisites_pushes in H2.
  apply validatePlacement_exclusions_pushes in H3.
  split; [|split; [|split; [|split; [|done]]]].
  - rewrite bool_decide_eq_true. by destruct e3.
  - destruct H1 as [->|(m1 & _ & ->)], H2 as [->|(m2 & _ & ->)],
      H3 as [->|(codes & _ & ->)]; simpl;
      repeat first [apply sublist_nil | apply sublist_skip | apply sublist_cons].
  - intros m Hm.
    destruct H1 as [->|(m1 & Hm1 & ->)], H2 as [->|(m2 & Hm2 & ->)],
      H3 as [->|(codes & _ & ->)]; simpl in Hm;
      repeat (rewrite ?elem_of_cons, ?elem_of_nil in Hm);
      intuition (simplify_eq; done).
  - intros codes Hin.
    destruct H1 as [->|(m1 & _ & ->)], H2 as [->|(m2 & _ & ->)],
      H3 as [->|(codes' & Hcodes & ->)]; simpl in Hin;
      repeat (rewrite ?elem_of_cons, ?elem_of_nil in Hin);
      intuition (simplify_eq; done).
Qed.

Lemma map_set_NoDup (results : list (cell * PlacementResult)) key value :
  NoDup results.*1 → NoDup (map_set results key value).*1.
Proof.
  induction results as [|[k v] results IH]; simpl.
  - intros _. apply NoDup_singleton.
  - intros Hnd. apply NoDup_cons in Hnd as [Hk Hnd]. case_decide as Heq; simpl.
    + by apply NoDup_cons.
    + apply NoDup_cons. split; [|by apply IH].
      rewrite map_set_keys. intros [?|?]; done.
Qed.

Lemma map_set_elem (results : list (cell * PlacementResult)) key value k v :
  NoDup results.*1 →
  (k, v) ∈ map_set results key value ↔
  (k = key ∧ v = value) ∨ (k ≠ key ∧ (k, v) ∈ results).
Proof.
  induction results as [|[k0 v0] results IH]; simpl; intros Hnd.
  - rewrite list_elem_of_singleton. split.
    + intros [= -> ->]. by left.
    + intros [[-> ->]|[_ H]]; [done|]. by apply elem_of_nil in H.
  - apply NoDup_cons in Hnd as [Hk0 Hnd]. case_decide as Heq.
    + subst k0. rewrite !elem_of_cons. split.
      * intros [[= -> ->]|Hin]; [by left|]. right. split; [|by right].
        intros ->. apply Hk0. apply list_elem_of_fmap. by exists (key, v).
      * intros [[-> ->]|[Hne [[= ? ?]|Hin]]]; [by left|done|by right].
    + rewrite !elem_of_cons, (IH Hnd). split.
      * intros [[= -> ->]|[[-> ->]|[Hne Hin]]].
        -- right. split; [done|by left].
        -- by left.
        -- right. split; [done|by right].
      * intros [[-> ->]|[Hne [[= -> ->]|Hin]]].
        -- right. by left.
        -- by left.
        -- right. right. by split.
Qed.

Section Bulk.
Variables (fuel : nat) (gridManager : grid) (semesterOrder : list string).
#[local] Abbreviation ran := (ran db fuel gridManager semesterOrder).


Lemma ran_app c visits c1 visits' c2 :
  ran c visits c1 → ran c1 visits' c2 → ran c (visits ++ visits') c2.
Proof.
  revert c. induction visits as [|v visits IH]; intros c; simpl.
  - by intros ->.
  - intros [Hv Hrest] Hnext. split; [done|]. by apply IH.
Qed.

Lemma lastResult_snoc visits v k :
  lastResult (visits ++ [v]) k =
    if decide (visit_code v = k) then Some (visit_result v) else lastResult visits k.
Proof.
  unfold lastResult. rewrite filter_app, filter_cons, filter_nil.
  case_decide; [by rewrite last_snoc|by rewrite app_nil_r].
Qed.

Lemma files_snoc visits results v :
  files visits results →
  files (visits ++ [v]) (map_set results (visit_code v) (visit_result v)).
Proof.
  intros [Hnd Hin]. split; [by apply map_set_NoDup|].
  intros k r. rewrite (map_set_elem _ _ _ _ _ Hnd), lastResult_snoc, Hin.
  case_decide as Hk.
  - split.
    + intros [[_ ->]|[Hne _]]; [done|by destruct Hne].
    + intros [= <-]. by left.
  - split.
    + intros [[-> _]|[_ ?]]; [done|done].
    + intros H. right. by split.
Qed.

Lemma validateAll_slots_visits semId slots results c rs c1 visits :
  files visits results →
  validateAll_slots db fuel gridManager semesterOrder semId slots results c
    = Some (Normal rs, c1) →
  ∃ made, ran c made c1 ∧
          (fun v => (visit_semester v, visit_code v)) <$> made
            = (fun code => (semId, code)) <$> slots ∧
          files (visits ++ made) rs.
Proof.
  revert results c visits. induction slots as [|code slots IH];
    intros results c visits Hfiles; simpl.
  - unfold ret. intros [= <- <-]. exists []. by rewrite app_nil_r.
  - unfold bind at 1.
    destruct (validatePlacement db fuel code semId gridManager semesterOrder c)
      as [[[r|] c2]|] eqn:Hv; [|done|done].
    intros Hrest.
    pose (v := {| visit_semester := semId; visit_code := code;
                  visit_result := r; visit_cache := c2 |}).
    destruct (IH (map_set results code r) c2 (visits ++ [v])) as (made & Hran & Hmade & Hf).
    { apply (files_snoc visits results v Hfiles). }
    { exact Hrest. }
    exists (v :: made). split; [by split|]. split.
    + by rewrite !fmap_cons, Hmade.
    + by rewrite <- app_assoc in Hf.
Qed.

Lemma validateAll_semesters_visits semesters results c rs c1 visits :
  files visits results →
  validateAll_semesters db fuel gridManager semesterOrder semesters results c
    = Some (Normal rs, c1) →
  ∃ made, ran c made c1 ∧
          (fun v => (visit_semester v, visit_code v)) <$> made
            = slotsInOrder gridManager semesters ∧
          (∀ sem, sem ∈ semesters → is_Some (gridManager !! sem)) ∧
          files (visits ++ made) rs.
Proof.
  revert results c visits. induction semesters as [|sem semesters IH];
    intros results c visits Hfiles; simpl.
  - unfold ret. intros [= <- <-]. exists []. rewrite app_nil_r.
    split; [done|]. split; [done|]. split; [|done].
    intros sem Hsem. by apply elem_of_nil in Hsem.
  - destruct (gridManager !! sem) as [slots|] eqn:Hsem; [|done].
    unfold bind at 1.
    destruct (validateAll_slots db fuel gridManager semesterOrder sem slots results c)
      as [[[rs1|] c2]|] eqn:Hslots; [|done|done].
    intros Hrest.
    destruct (validateAll_slots_visits _ _ _ _ _ _ visits Hfiles Hslots)
      as (made1 & Hran1 & Hmade1 & Hf1).
    destruct (IH _ _ _ Hf1 Hrest) as (made2 & Hran2 & Hmade2 & Hexist & Hf2).
    exists (made1 ++ made2). split; [by eapply ran_app|]. split; [|split].
    + rewrite fmap_app, Hmade1, Hmade2.
      reflexivity.
    + intros x Hx. apply elem_of_cons in Hx as [->|Hx]; [by rewrite Hsem|by apply Hexist].
    + by rewrite <- app_assoc in Hf2.
Qed.

(** X17. Whenever [validateAll] returns, it has called [validatePlacement]
    once for every element of the array of every semester of the order, in
    order, the first call from the cache it started with and every next
    call from the cache the previous one left; its result has one entry per
    key, the keys are the contents of those slots ([null] for empty slots
    included), and the entry of a key is the result of the last of these
    calls made for that key. *)
Theorem validateAll_has_one_entry_per_key c rs c1 :
  validateAll db fuel gridManager semesterOrder c = Some (Normal rs, c1) →
  ∃ visits,
    ran c visits c1 ∧
    (fun v => (visit_semester v, visit_code v)) <$> visits
      = slotsInOrder gridManager semesterOrder ∧
    (∀ sem, sem ∈ semesterOrder → is_Some (gridManager !! sem)) ∧
    NoDup rs.*1 ∧
    (∀ k, k ∈ rs.*1 ↔
          ∃ sem slots, sem ∈ semesterOrder ∧ gridManager !! sem = Some slots ∧ k ∈ slots) ∧
    (∀ k v, (k, v) ∈ rs ↔ lastResult visits k = Some v).
Proof.
  intros H.
  destruct (validateAll_semesters_visits semesterOrder [] c rs c1 []) as
    (visits & Hran & Hvisits & Hexist & Hnd & Hlast); [|exact H|].
  { split; [constructor|]. intros k v. split; [|done]. intros Hin. by apply elem_of_nil in Hin. }
  exists visits. split; [done|]. split; [done|]. split; [done|]. split; [done|].
  split; [by apply (validateAll_keys db fuel _ _ c rs c1)|exact Hlast].
Qed.
End Bulk.
End PlacementExtras.

(** * The tree renderer *)

Section Renderer.
Implicit Types (s x sep : string) (t : tree).
#[local] Arguments String.append !_ _ / : simpl nomatch.
#[local] Arguments String.prefix : simpl never.

Lemma includes_refl s : includes s s = true.
Proof. apply includes_prefix, prefix_append. exists "". by rewrite append_nil_r. Qed.

Lemma includes_append_l s s' x : includes s x = true → includes (s +:+ s') x = true.
Proof.
  intros H. apply includes_split in H as (l & r & ->).
  rewrite !append_assoc. apply includes_app.
Qed.

Lemma includes_append_r s s' x : includes s' x = true → includes (s +:+ s') x = true.
Proof.
  intros H. apply includes_split in H as (l & r & ->).
  rewrite <- append_assoc. apply includes_app.
Qed.

Lemma includes_join sep (parts : list string) p x :
  p ∈ parts → includes p x = true → includes (join sep parts) x = true.
Proof.
  intros Hin Hx. induction parts as [|q parts IH]; [by apply elem_of_nil in Hin|].
  destruct parts as [|q' parts].
  - apply elem_of_cons in Hin as [->|Hin]; [done|by apply elem_of_nil in Hin].
  - rewrite join_cons by done. apply elem_of_cons in Hin as [->|Hin].
    + by apply includes_append_l.
    + apply includes_append_r, includes_append_r. by apply IH.
Qed.

Lemma treeToString_node_OR (children : list (option tree)) :
  treeToString_node (OR children) =
    match treeToString <$> children with
    | [p] => p
    | ps => "(" +:+ join " or " ps +:+ ")"
    end.
Proof. reflexivity. Qed.

Lemma treeToString_node_AND (children : list (option tree)) :
  treeToString_node (AND children) = join " and " (treeToString <$> children).
Proof. reflexivity. Qed.

Lemma leaves_children (children : list (option tree)) code :
  code ∈ flat_map (fun child => match child with
                                | None => []
                                | Some t' => leaves t'
                                end) children →
  ∃ t', Some t' ∈ children ∧ code ∈ leaves t'.
Proof.
  intros H. apply list_elem_of_In, in_flat_map in H as ([t'|] & Hin & Hc).
  - exists t'. split; by apply list_elem_of_In.
  - done.
Qed.

Lemma treeToString_node_leaves t code :
  code ∈ leaves t → includes (treeToString_node t) code = true.
Proof.
  revert code. induction t as [c|children IH|children IH] using tree_ind; intros code Hc.
  - apply list_elem_of_singleton in Hc as ->. apply includes_refl.
  - apply leaves_children in Hc as (t' & Hin & Hc).
    assert (includes (join " or " (treeToString <$> children)) code = true) as Hj.
    { apply (includes_join _ _ (treeToString (Some t'))).
      - apply list_elem_of_fmap. by exists (Some t').
      - rewrite Forall_forall in IH. by apply (IH _ Hin). }
    rewrite treeToString_node_OR.
    destruct (treeToString <$> children) as [|p [|q ps]].
    + by apply includes_append_r, includes_append_l.
    + done.
    + by apply includes_append_r, includes_append_l.
  - apply leaves_children in Hc as (t' & Hin & Hc).
    rewrite treeToString_node_AND.
    apply (includes_join _ _ (treeToString (Some t'))).
    + apply list_elem_of_fmap. by exists (Some t').
    + rewrite Forall_forall in IH. by apply (IH _ Hin).
Qed.

(** X18. Whenever [formatRequirementReadable] returns, the text it returns
    is the rendering of the tree [parseCourseset] resolves the id to; the
    code of every leaf of that tree occurs in the text, and an id that
    resolves to [null] gives the empty text. *)
Theorem formatRequirementReadable_shows_every_leaf db fuel coursesetId (c : cache) text c1 :
  formatRequirementReadable db fuel coursesetId c = Some (text, c1) →
  ∃ o, parseCourseset db fuel coursesetId c = Some (o, c1) ∧
       text = treeToString o ∧
       (∀ code, code ∈ from_option leaves [] o → includes text code = true) ∧
       (o = None → text = "").
Proof.
  unfold formatRequirementReadable.
  destruct (parseCourseset db fuel coursesetId c) as [[o c2]|]; [|done].
  intros [= <- <-]. exists o. split; [done|]. split; [done|]. split.
  - intros code Hc. destruct o as [t|]; simpl in *; [|by apply elem_of_nil in Hc].
    by apply treeToString_node_leaves.
  - by intros ->.
Qed.
End Renderer.

(** * Loading the catalog *)

Section Loading.
Implicit Types (r : CourseRecord) (recs : list CourseRecord).

Lemma requirement_Some (field : option string) g :
  requirement field = Some g ↔ field = Some g ∧ g ≠ "".
Proof.
  destruct field as [id|]; simpl; [|split; [done|by intros [? _]]].
  destruct (String.eqb id "") eqn:Hid.
  - apply String.eqb_eq in Hid as ->. split; [done|]. by intros [[= <-] ?].
  - apply String.eqb_neq in Hid. split; [by intros [= <-]|by intros [[= <-] _]].
Qed.

Lemma foldl_load_course recs (acc : gmap string Course * gset string) :
  let loaded := foldl load_course acc recs in
  (∀ c, loaded.1 !! c =
          match last (filter (fun r => code (record r) = c) recs) with
          | Some r => Some (record r)
          | None => acc.1 !! c
          end) ∧
  (∀ g, g ∈ loaded.2 ↔ g ∈ acc.2 ∨ (g ≠ "" ∧ ∃ r, r ∈ recs ∧ group r = Some g)).
Proof.
  induction recs as [|r recs IH] using rev_ind; simpl.
  - split; [done|]. intros g. split; [by left|].
    intros [?|(_ & r & Hr & _)]; [done|]. by apply elem_of_nil in Hr.
  - rewrite foldl_app. simpl. destruct IH as [IHc IHg]. split.
    + intros c. rewrite filter_app, filter_cons, filter_nil.
      case_decide as Hc.
      * rewrite last_snoc. subst c. by rewrite lookup_insert_eq.
      * rewrite app_nil_r, lookup_insert_ne by done. apply IHc.
    + intros g.
      assert (g ∈ (load_course (foldl load_course acc recs) r).2 ↔
              g ∈ (foldl load_course acc recs).2 ∨ (g ≠ "" ∧ group r = Some g)) as ->.
      { unfold load_course. simpl. destruct (requirement (group r)) as [g'|] eqn:Hg.
        - apply requirement_Some in Hg as [Hg Hne].
          rewrite elem_of_union, elem_of_singleton. split.
          + intros [->|?]; [by right|by left].
          + intros [?|[_ Heq]]; [by right|]. left. congruence.
        - split; [by left|]. intros [?|[Hne Heq]]; [done|].
          assert (requirement (group r) = Some g) as Hs by (by apply requirement_Some).
          congruence. }
      rewrite IHg. split.
      * intros [[?|(Hne & r' & Hin & Hr')]|[Hne Hr]].
        -- by left.
        -- right. split; [done|]. exists r'. split; [|done]. apply elem_of_app. by left.
        -- right. split; [done|]. exists r. split; [|done]. apply elem_of_app. right. left.
      * intros [?|(Hne & r' & Hin & Hr')]; [by left; left|].
        apply elem_of_app in Hin as [Hin|Hin].
        -- left. right. split; [done|]. by exists r'.
        -- apply list_elem_of_singleton in Hin as ->. by right.
Qed.

(** X19. After [load], [getCourse] returns for a code the last record of
    the document that carries it, and what it returned before when no
    record does; the groups are the former ones and every non-empty group
    of a record of the document, records overwritten by a later one with
    the same code included; the courseset table is the document's, or
    empty when the document has none. *)
Theorem load_files_the_last_record (this : LoadedDatabase) recs
    (data_coursesets : option (gmap string CoursesetEntry)) :
  let loaded := load this recs data_coursesets in
  (∀ c, getCourse (database loaded) (Code c) =
          match last (filter (fun r => code (record r) = c) recs) with
          | Some r => Some (record r)
          | None => getCourse (database this) (Code c)
          end) ∧
  (∀ g, g ∈ groups loaded ↔
        g ∈ groups this ∨ (g ≠ "" ∧ ∃ r, r ∈ recs ∧ group r = Some g)) ∧
  coursesets (database loaded) = default ∅ data_coursesets.
Proof.
  intros loaded. subst loaded. unfold load.
  pose proof (foldl_load_course recs (db_courses (database this), groups this)) as H.
  destruct (foldl load_course (db_courses (database this), groups this) recs)
    as [courseMap groupSet].
  destruct H as [Hc Hg]. simpl in *. done.
Qed.
End Loading.

(** * The validator on catalogs without dangling references *)

Section Totality.
Variable db : CourseDatabase.
Variable rank : string → nat.
Variable fuel : nat.
Hypothesis rank_decreases : ∀ setId ref, references db setId ref → rank ref < rank setId.
Hypothesis rank_bounded : ∀ setId, rank setId < fuel.
Hypothesis catalog_resolvable : resolvable db.
Implicit Types (c : cache) (o : option tree) (setId : string).

Lemma parseTokens_body_present rec parts c ts c1 :
  (∀ p c0 o c2, p ∈ parts → isCoursesetRef p = true → cache_present c0 →
     rec p c0 = Some (o, c2) → cache_present c2 ∧ presentChild o = true) →
  cache_present c → parseTokens_body rec parts c = Some (ts, c1) →
  cache_present c1 ∧ forallb presentChild ts = true.
Proof.
  revert c ts c1. induction parts as [|p parts IH]; intros c ts c1 Hrec Hc; simpl.
  - by intros [= <- <-].
  - destruct (parseToken_body rec p c) as [[o c2]|] eqn:Hp; [|done].
    destruct (parseTokens_body rec parts c2) as [[ts' c3]|] eqn:Hps; [|done].
    intros [= <- <-].
    assert (cache_present c2 ∧ presentChild o = true) as [Hc2 Ho].
    { unfold parseToken_body in Hp. destruct (isCoursesetRef p) eqn:Href.
      - apply (Hrec p c o c2); [left|done|done|done].
      - by injection Hp as <- <-. }
    destruct (IH c2 ts' c3) as [Hc3 Hts]; [|done|done|].
    { intros q c0 o' c4 Hq. apply Hrec. by right. }
    split; [done|]. simpl. by rewrite Ho, Hts.
Qed.

Lemma parseCourseset_present n setId c o c1 :
  cache_present c → parseCourseset db n setId c = Some (o, c1) →
  cache_present c1 ∧
  from_option (fun t => present t = true) True o ∧
  (setId ≠ "" → is_Some (coursesets db !! setId) → presentChild o = true).
Proof.
  revert setId c o c1. induction n as [|n IH]; intros setId c o c1 Hc; [done|].
  simpl. destruct (String.eqb setId "") eqn:Hid.
  { apply String.eqb_eq in Hid as ->. by intros [= <- <-]. }
  destruct (c !! setId) as [t0|] eqn:Hhit.
  { intros [= <- <-]. destruct (Hc _ _ Hhit) as (t & -> & Ht). by simpl. }
  destruct (coursesets db !! setId) as [cs|] eqn:Hcs.
  2:{ intros [= <- <-]. split; [done|]. split; [done|]. by intros _ [? ?]. }
  rewrite parseExpression_body_tokens.
  destruct (parseTokens_body (parseCourseset db n) (tokens (courses cs)) c)
    as [[ts c2]|] eqn:Hts; [|done].
  assert (∀ p c0 o' c3, p ∈ tokens (courses cs) → isCoursesetRef p = true →
            cache_present c0 → parseCourseset db n p c0 = Some (o', c3) →
            cache_present c3 ∧ presentChild o' = true) as Hrefs.
  { intros p c0 o' c3 Hp Href Hc0 Hrec.
    destruct (IH _ _ _ _ Hc0 Hrec) as (Hc3 & _ & Hknown). split; [done|].
    apply Hknown; [by apply isCoursesetRef_nonempty|].
    apply (proj1 catalog_resolvable setId). by exists cs. }
  destruct (parseTokens_body_present _ _ _ _ _ Hrefs Hc Hts) as [Hc2 Hall].
  assert (∀ t, present t = true → cache_present (<[setId := Some t]> c2)) as Hins.
  { intros t Ht z oz Hz. destruct (decide (setId = z)) as [->|Hne].
    - rewrite lookup_insert_eq in Hz. injection Hz as <-. by exists t.
    - rewrite lookup_insert_ne in Hz by done. by eapply Hc2. }
  apply parseTokens_body_length in Hts. unfold tokens in Hts. revert Hts.
  destruct (includes (trim (courses cs)) " & ").
  { intros _ [= <- <-]. split; [by apply Hins|]. by split. }
  destruct (includes (trim (courses cs)) " / ").
  { intros _ [= <- <-]. split; [by apply Hins|]. by split. }
  intros Hlen [= <- <-]. destruct ts as [|[t|] ts]; simpl in *; try done.
  apply andb_true_iff in Hall as [Ht _]. split; [by apply Hins|]. by split.
Qed.

Lemma validate_present_option (completed : gset string) o :
  from_option (fun t => present t = true) True o → ∃ r, validate completed o = Normal r.
Proof.
  destruct o as [t|]; simpl; [apply validate_present_total|]. by eexists.
Qed.

Section Rules.
Variables (gridManager : grid) (semesterOrder : list string).
Hypothesis semesters_exist : ∀ sem, sem ∈ semesterOrder → is_Some (gridManager !! sem).

Lemma validatePlacement_prerequisites_returns course semesterId errors c :
  cache_present c →
  ∃ errors' c1,
    validatePlacement_prerequisites db fuel course semesterId gridManager semesterOrder
      errors c = Some (Normal errors', c1) ∧ cache_present c1.
Proof.
  intros Hc. unfold validatePlacement_prerequisites, bind, lift, parsing, ret.
  destruct (requirement (prerequisites course)) as [id|]; [|by eauto].
  unfold getCoursesBeforeSemester.
  destruct (collectSemesters_take gridManager semesterOrder
              (Z.to_nat (targetIdx semesterId semesterOrder)) semesters_exist)
    as (completed & -> & _).
  destruct (parseCourseset_ranked db rank rank_decreases fuel id c (rank_bounded id))
    as [[o c2] Hparse].
  rewrite Hparse. destruct (parseCourseset_present _ _ _ _ _ Hc Hparse) as (Hc2 & Ho & _).
  destruct (validate_present_option completed o Ho) as [r ->]. by eauto.
Qed.

Lemma validatePlacement_corequisites_returns course semesterId errors c :
  cache_present c →
  ∃ errors' c1,
    validatePlacement_corequisites db fuel course semesterId gridManager semesterOrder
      errors c = Some (Normal errors', c1) ∧ cache_present c1.
Proof.
  intros Hc. unfold validatePlacement_corequisites, bind, lift, parsing, ret.
  destruct (requirement (corequisites course)) as [id|]; [|by eauto].
  unfold getCoursesUpToSemester.
  destruct (collectSemesters_take gridManager semesterOrder
              (Z.to_nat (targetIdx semesterId semesterOrder + 1)) semesters_exist)
    as (completed & -> & _).
  destruct (parseCourseset_ranked db rank rank_decreases fuel id c (rank_bounded id))
    as [[o c2] Hparse].
  rewrite Hparse. destruct (parseCourseset_present _ _ _ _ _ Hc Hparse) as (Hc2 & Ho & _).
  destruct (validate_present_option completed o Ho) as [r ->]. by eauto.
Qed.

Lemma validatePlacement_exclusions_returns codeKey course courseCode errors c :
  db_courses db !! codeKey = Some course → cache_present c →
  ∃ errors' c1,
    validatePlacement_exclusions db fuel course courseCode gridManager errors c
      = Some (Normal errors', c1) ∧ cache_present c1.
Proof.
  intros Hcourse Hc. unfold validatePlacement_exclusions, bind, lift, parsing, ret.
  destruct (requirement (exclusions course)) as [id|] eqn:Hreq; [|by eauto].
  destruct (parseCourseset_ranked db rank rank_decreases fuel id c (rank_bounded id))
    as [[o c2] Hparse].
  rewrite Hparse.
  destruct (parseCourseset_present _ _ _ _ _ Hc Hparse) as (Hc2 & Ho & Hknown).
  destruct (validate_present_option
              (set_delete (getAllPlacedCourses gridManager) courseCode) o Ho) as [r ->].
  destruct (satisfied r); [|by eauto].
  assert (presentChild o = true) as Hp.
  { apply Hknown; [by apply requirement_Some in Hreq as [_ ?]|].
    by apply (proj1 (proj2 catalog_resolvable) codeKey course). }
  destruct o as [t|]; [|done]. simpl in Hp. simpl.
  rewrite (collectLeafCodes_present _ Hp). by eauto.
Qed.

Lemma validatePlacement_returns courseCode semesterId c :
  cache_present c →
  ∃ result c1,
    validatePlacement db fuel courseCode semesterId gridManager semesterOrder c
      = Some (Normal result, c1) ∧ cache_present c1.
Proof.
  intros Hc. unfold validatePlacement.
  destruct (getCourse db courseCode) as [course|] eqn:Hcourse; [|unfold ret; by eauto].
  assert (∃ codeKey, db_courses db !! codeKey = Some course) as [codeKey Hkey].
  { destruct courseCode as [| |x]; simpl in Hcourse; [done|done|by exists x]. }
  unfold bind at 1.
  destruct (validatePlacement_prerequisites_returns course semesterId [] c Hc)
    as (e1 & c2 & -> & Hc2).
  unfold bind at 1.
  destruct (validatePlacement_corequisites_returns course semesterId e1 c2 Hc2)
    as (e2 & c3 & -> & Hc3).
  unfold bind at 1.
  destruct (validatePlacement_exclusions_returns codeKey course courseCode e2 c3 Hkey Hc3)
    as (e3 & c4 & -> & Hc4).
  unfold ret. by eauto.
Qed.

Lemma validateAll_slots_returns semId slots results c :
  cache_present c →
  ∃ rs c1,
    validateAll_slots db fuel gridManager semesterOrder semId slots results c
      = Some (Normal rs, c1) ∧ cache_present c1.
Proof.
  revert results c. induction slots as [|code slots IH]; intros results c Hc; simpl.
  - unfold ret. by eauto.
  - unfold bind at 1.
    destruct (validatePlacement_returns code semId c Hc) as (r & c2 & -> & Hc2).
    by apply IH.
Qed.

Lemma validateAll_semesters_returns semesters results c :
  semesters ⊆ semesterOrder → cache_present c →
  ∃ rs c1,
    validateAll_semesters db fuel gridManager semesterOrder semesters results c
      = Some (Normal rs, c1) ∧ cache_present c1.
Proof.
  revert results c. induction semesters as [|sem semesters IH];
    intros results c Hsub Hc; simpl.
  - unfold ret. by eauto.
  - destruct (semesters_exist sem) as [slots ->]; [apply Hsub; left|].
    unfold bind at 1.
    destruct (validateAll_slots_returns sem slots results c Hc) as (rs1 & c2 & -> & Hc2).
    apply IH; [|done]. intros x Hx. apply Hsub. by right.
Qed.
End Rules.

(** X20. On a catalog whose courseset references are acyclic and all
    resolve, in which every exclusion id of a course has an entry and every
    prerequisite or corequisite id has an entry or is a plain key, and a
    grid that has every semester of the order, the validator never throws:
    with a stack bound above the nesting depth and a cache of resolved
    trees (such as the empty cache), [validatePlacement] returns a result
    for every code and every semester, [validateAll] returns its map, and
    the cache they leave again holds resolved trees only. *)
Theorem validator_returns_on_resolvable_catalogs gridManager semesterOrder c :
  (∀ sem, sem ∈ semesterOrder → is_Some (gridManager !! sem)) →
  cache_present c →
  (∀ courseCode semesterId, ∃ result c1,
     validatePlacement db fuel courseCode semesterId gridManager semesterOrder c
       = Some (Normal result, c1) ∧ cache_present c1) ∧
  (∃ rs c1,
     validateAll db fuel gridManager semesterOrder c = Some (Normal rs, c1) ∧
     cache_present c1).
Proof.
  intros Hsem Hc. split.
  - intros courseCode semesterId. by apply validatePlacement_returns.
  - unfold validateAll. by apply validateAll_semesters_returns.
Qed.
End Totality.

(** * The further properties on the example plans and catalogs *)

Lemma plan0_fall : plan0 !! "fall-1" = Some [Code "APS105H1"; Null; Null; Null; Null].
Proof. vm_compute. reflexivity. Qed.


Lemma plan0_semesters sem : sem ∈ twoSemesters → is_Some (plan0 !! sem).
Proof.
  intros Hsem. unfold twoSemesters in Hsem.
  repeat (apply elem_of_cons in Hsem as [->|Hsem]; [vm_compute; eauto|]).
  by apply elem_of_nil in Hsem.
Qed.

Lemma plan2_semesters sem : sem ∈ twoSemesters → is_Some (plan2 !! sem).
Proof.
  intros Hsem. unfold twoSemesters in Hsem.
  repeat (apply elem_of_cons in Hsem as [->|Hsem]; [vm_compute; eauto|]).
  by apply elem_of_nil in Hsem.
Qed.

Lemma cache_present_empty : cache_present ∅.
Proof. intros setId o H. by rewrite lookup_empty in H. Qed.

Lemma sampleCatalog_resolves setId (c : cache) :
  is_Some (parseCourseset sampleCatalog 2 setId c).
Proof.
  apply (parseCourseset_ranked sampleCatalog sampleRank sampleRank_decreases).
  unfold sampleRank. case_bool_decide; lia.
Qed.

Lemma testCatalog_flat setId ref : ¬ references testCatalog setId ref.
Proof.
  intros (cs & Hcs & Hin & Href).
  apply elem_of_list_to_map_2 in Hcs.
  repeat (apply elem_of_cons in Hcs as [Hcs|Hcs];
          [injection Hcs as -> ->; vm_compute in Hin;
           repeat (apply elem_of_cons in Hin as [->|Hin]; [discriminate Href|]);
           by apply elem_of_nil in Hin|]).
  by apply elem_of_nil in Hcs.
Qed.

Lemma testCatalog_ranked (setId ref : string) : references testCatalog setId ref → 0 < 0.
Proof. intros H. by apply testCatalog_flat in H. Qed.

Lemma testCatalog_bounded (setId : string) : 0 < 1.
Proof. lia. Qed.

Lemma testCatalog_resolvable : resolvable testCatalog.
Proof.
  split; [|split].
  - intros setId ref H. by apply testCatalog_flat in H.
  - intros courseCode course id Hcourse Hreq.
    apply elem_of_list_to_map_2 in Hcourse.
    repeat (apply elem_of_cons in Hcourse as [Hcourse|Hcourse];
            [injection Hcourse as -> ->; vm_compute in Hreq;
             first [discriminate Hreq | injection Hreq as <-; vm_compute; eauto]|]).
    by apply elem_of_nil in Hcourse.
  - intros courseCode course id Hcourse Hreq. left.
    apply elem_of_list_to_map_2 in Hcourse.
    repeat (apply elem_of_cons in Hcourse as [Hcourse|Hcourse];
            [injection Hcourse as -> ->; destruct Hreq as [Hreq|Hreq]; vm_compute in Hreq;
             first [discriminate Hreq | injection Hreq as <-; vm_compute; eauto]|]).
    by apply elem_of_nil in Hcourse.
Qed.

Lemma findCourse_locates_witness :
  findCourse plan0 "APS105H1" = Some ("fall-1", 0) ∧ findCourse plan0 "ECE302H1" = None.
Proof.
  destruct (findCourse_locates plan0 "APS105H1") as (_ & _ & Hfound).
  destruct (findCourse_locates plan0 "ECE302H1") as (Hnone & _ & _).
  split.
  - apply Hfound; [apply reachable_unique|].
    exists [Code "APS105H1"; Null; Null; Null; Null]. split; [apply plan0_fall|reflexivity].
  - vm_compute. reflexivity.
Defined.

Lemma addCourse_places_witness :
  let added := addCourse plan0 "fall-1" 1 "ECE302H1" in
  added.2 = Normal true ∧ holds added.1 "fall-1" 1 "ECE302H1".
Proof.
  destruct (addCourse_places plan0 "fall-1" 1 "ECE302H1"
              (or_intror (plainKey_decide "fall-1" eq_refl))) as (Hok & _ & _ & Hres).
  assert ((addCourse plan0 "fall-1" 1 "ECE302H1").2 = Normal true) as Hret.
  { apply Hok. split; vm_compute; reflexivity. }
  split; [exact Hret|]. apply (Hres Hret).
Defined.

Lemma grid_keeps_five_slots_witness :
  fiveSlots (run [AddCourse "fall-1" 7 "ECE302H1"; MoveCourse "fall-1" 0 "winter-1" 1;
                  RemoveCourse "winter-1" 4]
               (initSemesters ["fall-1"; "winter-1"] newGrid)).
Proof.
  assert (Forall inBounds [AddCourse "fall-1" 7 "ECE302H1";
                           MoveCourse "fall-1" 0 "winter-1" 1;
                           RemoveCourse "winter-1" 4]) as Hops.
  { repeat (apply List.Forall_cons; [simpl; unfold slotsPerSemester; lia|]).
    apply List.Forall_nil. }
  assert (Forall plainOp [AddCourse "fall-1" 7 "ECE302H1";
                          MoveCourse "fall-1" 0 "winter-1" 1;
                          RemoveCourse "winter-1" 4]) as Hplain.
  { apply List.Forall_cons; [apply plainKey_decide; reflexivity|].
    apply List.Forall_cons; [split; apply plainKey_decide; reflexivity|].
    apply List.Forall_cons; [apply plainKey_decide; reflexivity|].
    apply List.Forall_nil. }
  assert (Forall plainKey ["fall-1"; "winter-1"]) as Hids.
  { repeat (apply List.Forall_cons; [apply plainKey_decide; reflexivity|]).
    apply List.Forall_nil. }
  destruct (grid_keeps_five_slots ["fall-1"; "winter-1"] _ Hids Hplain Hops) as [Hfive _].
  exact Hfive.
Defined.



Lemma addCourse_then_removeCourse_witness :
  removeCourse (addCourse plan0 "fall-1" 1 "ECE302H1").1 "fall-1" 1 = (plan0, Normal tt).
Proof.
  apply (addCourse_then_removeCourse plan0 "fall-1" 1 "ECE302H1").
  assert ((addCourse plan0 "fall-1" 1 "ECE302H1").2 = Normal true) as Hret
    by (vm_compute; reflexivity).
  rewrite <- Hret. apply surjective_pairing.
Defined.

Lemma moveCourse_into_empty_slot_witness :
  let moved := moveCourse plan0 "fall-1" 0 "winter-1" 0 in
  getAllPlacedCourses moved.1 = getAllPlacedCourses plan0 ∧
  moveCourse moved.1 "winter-1" 0 "fall-1" 0 = (plan0, Normal tt).
Proof.
  destruct (moveCourse_into_empty_slot plan0 "fall-1" 0 "winter-1" 0
              [Code "APS105H1"; Null; Null; Null; Null] (Code "APS105H1"))
    as (_ & Hset & Hback).
  - apply plan0_fall.
  - reflexivity.
  - vm_compute. reflexivity.
  - split; [exact Hset|exact Hback].
Defined.

Lemma completed_sets_are_nested_witness :
  (∃ before upTo,
     getCoursesBeforeSemester plan0 "winter-1" twoSemesters = Normal before ∧
     getCoursesUpToSemester plan0 "winter-1" twoSemesters = Normal upTo ∧
     before ⊆ upTo ∧ upTo ⊆ getAllPlacedCourses plan0) ∧
  getCoursesUpToSemester plan0 "summer-1" twoSemesters = Normal ∅.
Proof.
  destruct (completed_sets_are_nested plan0 "winter-1" twoSemesters) as [Hnest _].
  destruct (completed_sets_are_nested plan0 "summer-1" twoSemesters) as [_ Hout].
  split.
  - destruct (collectSemesters_take plan0 twoSemesters
                (Z.to_nat (targetIdx "winter-1" twoSemesters + 1)) plan0_semesters)
      as (upTo & Hup & _).
    destruct (Hnest upTo Hup) as (before & Hb & H1 & H2 & _).
    exists before, upTo. split; [exact Hb|]. split; [exact Hup|]. split; [exact H1|exact H2].
  - apply Hout. intros H. vm_compute in H.
    repeat (apply elem_of_cons in H as [H|H]; [discriminate|]). by apply elem_of_nil in H.
Defined.

Lemma completed_sets_throw_on_missing_semester_witness :
  getCoursesBeforeSemester winterOnly "winter-1" twoSemesters = TypeError ∧
  getCoursesUpToSemester winterOnly "fall-1" twoSemesters = TypeError.
Proof.
  split.
  - apply (proj1 (completed_sets_throw_on_missing_semester
                    winterOnly "winter-1" twoSemesters 1 eq_refl)).
    exists 0, "fall-1". split; [lia|]. split; vm_compute; reflexivity.
  - apply (proj2 (completed_sets_throw_on_missing_semester
                    winterOnly "fall-1" twoSemesters 0 eq_refl)).
    exists 0, "fall-1". split; [lia|]. split; vm_compute; reflexivity.
Defined.

Lemma cache_shaped_empty : cache_shaped ∅.
Proof. intros setId t H. by rewrite lookup_empty in H. Qed.

Lemma parseCourseset_fills_cache_witness :
  ∃ o c1, parseCourseset sampleCatalog 2 "ECE464H1_p3" ∅ = Some (o, c1) ∧
          c1 !! "ECE464H1_p3" = Some o ∧
          parseCourseset sampleCatalog 1 "ECE464H1_p3" c1 = Some (o, c1).
Proof.
  destruct (sampleCatalog_resolves "ECE464H1_p3" ∅) as [[o c1] Hparse].
  destruct (parseCourseset_fills_cache sampleCatalog 2 "ECE464H1_p3" ∅ o c1 Hparse)
    as (_ & Hfiled & _ & Hagain).
  exists o, c1. split; [exact Hparse|]. split; [|apply Hagain].
  apply Hfiled; [discriminate|]. right. vm_compute. eauto.
Defined.

Lemma parseCourseset_builds_shaped_trees_witness :
  ∃ o c1, parseCourseset sampleCatalog 2 "ECE435H1_p6" ∅ = Some (o, c1) ∧
          from_option (fun t => shaped t = true) True o ∧ cache_shaped c1.
Proof.
  destruct (sampleCatalog_resolves "ECE435H1_p6" ∅) as [[o c1] Hparse].
  exists o, c1. split; [exact Hparse|].
  apply (parseCourseset_builds_shaped_trees sampleCatalog 2 "ECE435H1_p6" ∅ o c1
           cache_shaped_empty Hparse).
Defined.

Lemma parseToken_follows_the_grammar_witness :
  parseToken sampleCatalog 2 "ECE435H1_p1" ∅ = parseCourseset sampleCatalog 2 "ECE435H1_p1" ∅ ∧
  parseToken sampleCatalog 2 "ECE435H1" ∅ = Some (Some (COURSE "ECE435H1"), ∅).
Proof.
  split.
  - apply (proj1 (parseToken_follows_the_grammar sampleCatalog 2 "ECE435H1_p1" ∅)).
    apply isCoursesetRef_matches_grammar. reflexivity.
  - apply (proj2 (parseToken_follows_the_grammar sampleCatalog 2 "ECE435H1" ∅)).
    intros H. apply isCoursesetRef_matches_grammar in H. discriminate.
Defined.

Lemma validate_decides_the_requirement_witness :
  from_option (holdsIn {["ECE355H1"]}) true
    (Some (OR [Some (COURSE "ECE216H1"); Some (COURSE "ECE355H1")])) = true.
Proof.
  assert (validate {["ECE355H1"]}
            (Some (OR [Some (COURSE "ECE216H1"); Some (COURSE "ECE355H1")]))
          = Normal {| satisfied := true; missing := [] |}) as Hv
    by (vm_compute; reflexivity).
  symmetry. apply (proj1 (validate_decides_the_requirement _ _ _ Hv)).
Defined.

Lemma validate_is_monotone_witness :
  ∃ r', validate ({["ECE216H1"]} ∪ {["ECE302H1"]})
          (Some (OR [Some (COURSE "ECE216H1"); Some (COURSE "ECE355H1")])) = Normal r' ∧
        satisfied r' = true.
Proof.
  destruct (validate_is_monotone {["ECE216H1"]} ({["ECE216H1"]} ∪ {["ECE302H1"]})
              (Some (OR [Some (COURSE "ECE216H1"); Some (COURSE "ECE355H1")]))
              {| satisfied := true; missing := [] |}) as (r' & Hr' & Hs).
  - apply union_subseteq_l.
  - vm_compute. reflexivity.
  - exists r'. split; [exact Hr'|]. apply Hs. reflexivity.
Defined.

Lemma validate_reports_leaves_only_witness :
  "APS111H1" ∉ ({["APS105H1"]} : gset string).
Proof.
  assert (validate {["APS105H1"]} (Some (COURSE "APS111H1"))
          = Normal {| satisfied := false; missing := [MissingCOURSE "APS111H1"] |}) as Hv
    by (vm_compute; reflexivity).
  assert (MissingCOURSE "APS111H1" ∈ [MissingCOURSE "APS111H1"]) as Hin by left.
  apply (proj2 (validate_reports_leaves_only _ _ _ Hv _ Hin) "APS111H1" eq_refl).
Defined.

Lemma validatePlacement_reports_each_rule_once_witness :
  ∃ result c1,
    validatePlacement testCatalog 1 (Code "ECE430H1") "fall-1" plan2 twoSemesters ∅
      = Some (Normal result, c1) ∧
    errorRank <$> errors result `sublist_of` [0; 1; 2] ∧
    (valid result = true ↔ errors result = []).
Proof.
  destruct (validatePlacement_returns testCatalog (fun _ => 0) 1 testCatalog_ranked
              testCatalog_bounded testCatalog_resolvable plan2 twoSemesters plan2_semesters
              (Code "ECE430H1") "fall-1" ∅ cache_present_empty) as (result & c1 & Hv & _).
  destruct (validatePlacement_reports_each_rule_once testCatalog 1 (Code "ECE430H1")
              "fall-1" plan2 twoSemesters ∅ result c1 Hv) as (Hvalid & Hsorted & _).
  exists result, c1. split; [exact Hv|]. split; [exact Hsorted|exact Hvalid].
Defined.

Lemma validateAll_has_one_entry_per_key_witness :
  ∃ rs c1 visits,
    validateAll testCatalog 1 plan2 twoSemesters ∅ = Some (Normal rs, c1) ∧
    ran testCatalog 1 plan2 twoSemesters ∅ visits c1 ∧
    (fun v => (visit_semester v, visit_code v)) <$> visits = slotsInOrder plan2 twoSemesters ∧
    ∀ k v, (k, v) ∈ rs ↔ lastResult visits k = Some v.
Proof.
  destruct (validateAll_semesters_returns testCatalog (fun _ => 0) 1 testCatalog_ranked
              testCatalog_bounded testCatalog_resolvable plan2 twoSemesters plan2_semesters
              twoSemesters [] ∅ ltac:(done) cache_present_empty) as (rs & c1 & Hv & _).
  destruct (validateAll_has_one_entry_per_key testCatalog 1 plan2 twoSemesters ∅ rs c1 Hv)
    as (visits & Hran & Hvisits & _ & _ & _ & Hlast).
  exists rs, c1, visits. split; [exact Hv|]. split; [exact Hran|].
  split; [exact Hvisits|exact Hlast].
Defined.

Lemma formatRequirementReadable_shows_every_leaf_witness :
  ∃ text c1,
    formatRequirementReadable sampleCatalog 2 "ECE464H1_p3" ∅ = Some (text, c1) ∧
    ∃ o, parseCourseset sampleCatalog 2 "ECE464H1_p3" ∅ = Some (o, c1) ∧
         ∀ code, code ∈ from_option leaves [] o → includes text code = true.
Proof.
  assert (∃ text c1,
            formatRequirementReadable sampleCatalog 2 "ECE464H1_p3" ∅ = Some (text, c1))
    as (text & c1 & Hf).
  { unfold formatRequirementReadable.
    destruct (sampleCatalog_resolves "ECE464H1_p3" ∅) as [[o c1] ->]. by eauto. }
  destruct (formatRequirementReadable_shows_every_leaf sampleCatalog 2 "ECE464H1_p3" ∅
              text c1 Hf) as (o & Hparse & _ & Hleaves & _).
  exists text, c1. split; [exact Hf|]. exists o. split; [exact Hparse|exact Hleaves].
Defined.

Lemma load_files_the_last_record_witness :
  let loaded := load newDatabase sampleRecords None in
  getCourse (database loaded) (Code "ECE100H1") =
    Some {| code := "ECE100H1"; prerequisites := Some "ECE100H1_p1";
            corequisites := None; exclusions := None |} ∧
  "Core" ∈ groups loaded.
Proof.
  destruct (load_files_the_last_record newDatabase sampleRecords None) as (Hget & Hgroups & _).
  split.
  - rewrite Hget. vm_compute. reflexivity.
  - apply Hgroups. right. split; [discriminate|]. eexists. split; [left|reflexivity].
Defined.

Lemma validator_returns_on_resolvable_catalogs_witness :
  (∃ result c1,
     validatePlacement testCatalog 1 (Code "ECE430H1") "fall-1" plan2 twoSemesters ∅
       = Some (Normal result, c1) ∧ cache_present c1) ∧
  (∃ rs c1,
     validateAll testCatalog 1 plan2 twoSemesters ∅ = Some (Normal rs, c1) ∧
     cache_present c1).
Proof.
  destruct (validator_returns_on_resolvable_catalogs testCatalog (fun _ => 0) 1
              testCatalog_ranked testCatalog_bounded testCatalog_resolvable
              plan2 twoSemesters ∅ plan2_semesters cache_present_empty)
    as [Hone Hall].
  split; [apply Hone|exact Hall].
Defined.

Lemma placement_rules_follow_semester_order_witness :
  fst <$> validatePlacement testCatalog 1 (Code "APS112H1") "fall-1" plan2 twoSemesters ∅
    = Some (Normal {| valid := false;
                      errors := [prerequisite [MissingCOURSE "APS111H1"]] |}) ∧
  fst <$> validatePlacement testCatalog 1 (Code "ECE212H1") "fall-1" plan2 twoSemesters ∅
    = Some (Normal {| valid := true; errors := [] |}).
Proof.
  destruct (placement_rules_follow_semester_order plan2 twoSemesters "fall-1" 0)
    as (before & upto & _ & _ & _ & _ & _ & Hsame).
  { reflexivity. }
  { intros i sem Hi Hsem. apply plan2_semesters. by eapply list_elem_of_lookup_2. }
  destruct (Hsame "APS111H1" 0) as (_ & _ & Hrules).
  { discriminate. }
  { eexists. split; vm_compute; reflexivity. }
  { apply reachable_unique. }
  assert (∀ id, fst <$> parseCourseset testCatalog 1 id ∅ = Some (Some (COURSE "APS111H1")) →
            ∃ c1, parseCourseset testCatalog 1 id ∅ = Some (Some (COURSE "APS111H1"), c1))
    as Hresolve.
  { intros id Hfst.
    destruct (parseCourseset_ranked testCatalog (fun _ => 0) testCatalog_ranked 1 id ∅
                (testCatalog_bounded id)) as [[o c1] Hp].
    rewrite Hp in Hfst. injection Hfst as ->. by exists c1. }
  split.
  - destruct (Hresolve "APS112H1_p1") as [c1 Hp]; [vm_compute; reflexivity|].
    destruct (Hrules testCatalog 1 (Code "APS112H1")
                {| code := "APS112H1"; prerequisites := Some "APS112H1_p1";
                   corequisites := None; exclusions := None |}
                "APS112H1_p1" ∅ c1) as [Hpre _];
      [vm_compute; reflexivity|exact Hp|reflexivity|].
    rewrite Hpre; reflexivity.
  - destruct (Hresolve "ECE212H1_c1") as [c1 Hp]; [vm_compute; reflexivity|].
    destruct (Hrules testCatalog 1 (Code "ECE212H1")
                {| code := "ECE212H1"; prerequisites := None;
                   corequisites := Some "ECE212H1_c1"; exclusions := None |}
                "ECE212H1_c1" ∅ c1) as [_ Hco];
      [vm_compute; reflexivity|exact Hp|reflexivity|].
    rewrite Hco; reflexivity.
Defined.
